(** * Hyper-Alpha-Arena front end: the AI signal chat modal and the mobile
      trade list

    A shallow embedding of
      frontend/app/components/signal/AiSignalChatModal.tsx
      frontend/app/components/mobile/MobileTradesSection.tsx
    and the properties of their specification that can be settled on it.

    Layout: the JavaScript values the components handle (strings as UTF-16
    code units, numbers as binary64 values, JSON trees), the two runtime
    services the stream reader calls (TextDecoder and JSON.parse), the
    components themselves, and then the lemmas. *)

From Stdlib Require Import ZArith NArith List Bool Ascii String Lia.
From Stdlib Require Import Strings.Byte DecimalString DecimalN.
From stdpp Require Import base option list gmap sets.

Local Open Scope Z_scope.
#[local] Set Warnings "-register-all".

(** ** JavaScript strings

    A JavaScript string is a sequence of UTF-16 code units. *)

Module JS.

Definition jsstring := list N.

(** The code units of an ASCII literal of the source. *)
Definition js (s : string) : jsstring :=
  map N_of_ascii (list_ascii_of_string s).

(** [String.prototype.startsWith]. *)
Fixpoint startsWith (s prefix : jsstring) {struct prefix} : bool :=
  match prefix, s with
  | [], _ => true
  | p :: prefix', c :: s' => N.eqb p c && startsWith s' prefix'
  | _ :: _, [] => false
  end.

(** [s.slice(n)] and [s.slice(0, n)] for a literal [n >= 0]. *)
Definition slice_from (n : nat) (s : jsstring) : jsstring := drop n s.
Definition slice_to (n : nat) (s : jsstring) : jsstring := take n s.

(** WhiteSpace and LineTerminator code points, the ones [trim] strips. *)
Definition isWhiteSpace (c : N) : bool :=
  ((9 <=? c) && (c <=? 13) || (c =? 32) || (c =? 160) || (c =? 5760)
   || (8192 <=? c) && (c <=? 8202) || (c =? 8232) || (c =? 8233)
   || (c =? 8239) || (c =? 8287) || (c =? 12288) || (c =? 65279))%N.

Fixpoint trimStart (s : jsstring) : jsstring :=
  match s with
  | c :: s' => if isWhiteSpace c then trimStart s' else s
  | [] => []
  end.

Definition trim (s : jsstring) : jsstring :=
  rev (trimStart (rev (trimStart s))).

Definition streq (a b : jsstring) : bool := bool_decide (a = b).

(** [s.split('\n')]: never empty, the last piece is what follows the last
    line feed. *)
Fixpoint split_lf (s : jsstring) : list jsstring :=
  match s with
  | [] => [[]]
  | c :: s' =>
      if (c =? 10)%N then [] :: split_lf s'
      else match split_lf s' with
           | piece :: pieces => (c :: piece) :: pieces
           | [] => [[c]]
           end
  end.

(** [lines.pop()]: the array without its last element, and that element
    ([undefined] on an empty array, here [None]). *)
Definition pop {A} (l : list A) : list A * option A :=
  (removelast l, last l).

(** The decimal digits of a natural number, as a template literal prints
    an array index. *)
Definition decimal (n : N) : jsstring :=
  js (NilZero.string_of_uint (N.to_uint n)).

End JS.
Export JS.

(** ** JavaScript numbers

    A Number is an IEEE 754 binary64 value.  [Finite neg m e] stands for
    (-1)^neg * m * 2^e in the canonical form of the format: m < 2^53,
    -1074 <= e <= 971, and m >= 2^52 unless e = -1074; m = 0 is a zero.
    NaN does not occur: JSON has no literal for it, and the only
    arithmetic the components do on payload numbers is a comparison. *)

Module Number.

Inductive number :=
| Finite (neg : bool) (m : N) (e : Z)
| Infinite (neg : bool).

(** The integer nearest to n/d, ties to even (n >= 0, d > 0). *)
Definition round_half_even (n d : Z) : Z :=
  let q := n / d in
  match (2 * (n mod d) ?= d) with
  | Lt => q
  | Gt => q + 1
  | Eq => if Z.even q then q else q + 1
  end.

(** floor (log2 (p / q)) for p, q > 0. *)
Definition log2_ratio (p q : Z) : Z :=
  let k := Z.log2 p - Z.log2 q in
  let above := if 0 <=? k then q * 2 ^ k <=? p else q <=? p * 2 ^ (- k) in
  if above then k else k - 1.

(** The Number value of the real p/q (p, q > 0): round to nearest, ties
    to even, gradual underflow, overflow to infinity. *)
Definition of_ratio (neg : bool) (p q : Z) : number :=
  let sh := Z.max (log2_ratio p q - 52) (-1074) in
  let m := if 0 <=? sh then round_half_even p (q * 2 ^ sh)
           else round_half_even (p * 2 ^ (- sh)) q in
  let '(m, sh) := if m =? 2 ^ 53 then (2 ^ 52, sh + 1) else (m, sh) in
  if 972 <=? sh then Infinite neg
  else if m =? 0 then Finite neg 0 (-1074)
  else Finite neg (Z.to_N m) sh.

(** The Number value of the decimal m * 10^e10. *)
Definition of_decimal (neg : bool) (m : N) (e10 : Z) : number :=
  if (m =? 0)%N then Finite neg 0 (-1074)
  else if 0 <=? e10 then of_ratio neg (Z.of_N m * 10 ^ e10) 1
  else of_ratio neg (Z.of_N m) (10 ^ (- e10)).

Definition isZero (x : number) : bool :=
  match x with Finite _ m _ => (m =? 0)%N | Infinite _ => false end.

(** [x > 0]. *)
Definition isPositive (x : number) : bool :=
  match x with
  | Finite neg m _ => negb neg && negb (m =? 0)%N
  | Infinite neg => negb neg
  end.

(** Number::toString, radix 10.  The digits are the shortest decimal
    s * 10^(n-k), 10^(k-1) <= s < 10^k, whose Number value is x; among
    those the one nearest to x (the even one on a tie). *)

(** floor (log10 (p / q)) + 1 for p, q > 0: the position n of the decimal
    point. *)
Definition point_position (p q : Z) : Z :=
  let est := (log2_ratio p q * 30103) / 100000 in
  let ge n := if 0 <=? n then q * 10 ^ n <=? p else q <=? p * 10 ^ (- n) in
  if ge (est + 1) then est + 2
  else if ge est then est + 1
  else if ge (est - 1) then est
  else est - 1.

(** The candidate digit strings of length k for p/q: the two k-digit
    decimals around it, each with its point position and its distance to
    p/q scaled by a common denominator. *)
Definition candidates (p q : Z) (k : Z) : list (Z * Z * Z) :=
  let n := point_position p q in
  let sc := k - n in
  let num := if 0 <=? sc then p * 10 ^ sc else p in
  let den := if 0 <=? sc then q else q * 10 ^ (- sc) in
  let lo := num / den in
  let hi := lo + 1 in
  let dlo := num - lo * den in
  let dhi := hi * den - num in
  let c_lo := if lo <? 10 ^ (k - 1) then [] else [(lo, n, dlo)] in
  let c_hi := if hi =? 10 ^ k then [(10 ^ (k - 1), n + 1, dhi)]
              else [(hi, n, dhi)] in
  c_lo ++ c_hi.

Definition represents (x : number) (c : Z * Z * Z) (k : Z) : bool :=
  let '(s, n, _) := c in
  match x, of_decimal false (Z.to_N s) (n - k) with
  | Finite _ m e, Finite _ m' e' => (m =? m')%N && (e =? e')
  | _, _ => false
  end.

Definition better (a b : Z * Z * Z) : Z * Z * Z :=
  let '(sa, _, da) := a in
  let '(sb, _, db) := b in
  match da ?= db with
  | Lt => a
  | Gt => b
  | Eq => if Z.even sa then a else b
  end.

Fixpoint shortest (fuel : nat) (x : number) (p q : Z) (k : Z)
  : Z * Z * Z :=
  match fuel with
  | O => (0, 0, k)
  | S fuel' =>
      match filter (fun c => represents x c k = true) (candidates p q k) with
      | [] => shortest fuel' x p q (k + 1)
      | [c] => let '(s, n, _) := c in (s, n, k)
      | c1 :: c2 :: _ => let '(s, n, _) := better c1 c2 in (s, n, k)
      end
  end.

Definition zeros (n : Z) : jsstring := repeat 48%N (Z.to_nat n).

Definition format (s n k : Z) : jsstring :=
  let ds := decimal (Z.to_N s) in
  if (k <=? n) && (n <=? 21) then ds ++ zeros (n - k)
  else if (0 <? n) && (n <=? 21) then
    take (Z.to_nat n) ds ++ js "." ++ drop (Z.to_nat n) ds
  else if (-6 <? n) && (n <=? 0) then js "0." ++ zeros (- n) ++ ds
  else
    let ex := js (if 0 <=? n - 1 then "e+" else "e-")
              ++ decimal (Z.abs_N (n - 1)) in
    if k =? 1 then ds ++ ex
    else take 1 ds ++ js "." ++ drop 1 ds ++ ex.

Definition toString (x : number) : jsstring :=
  match x with
  | Infinite neg => js (if neg then "-Infinity" else "Infinity")
  | Finite neg m e =>
      if (m =? 0)%N then js "0"
      else
        let p := if 0 <=? e then Z.of_N m * 2 ^ e else Z.of_N m in
        let q := if 0 <=? e then 1 else 2 ^ (- e) in
        let '(s, n, k) := shortest 17 x p q 1 in
        (if neg then js "-" else []) ++ format s n k
  end.

End Number.
Export Number.

(** ** JavaScript values

    What [JSON.parse] can return, and [undefined].  An object keeps its
    own properties in the order JavaScript lists them: the array indices
    in ascending order, then the other keys in insertion order. *)

Module Value.

Inductive jsval :=
| VUndefined
| VNull
| VBool (b : bool)
| VNum (x : number)
| VStr (s : jsstring)
| VArr (elems : list jsval)
| VObj (props : list (jsstring * jsval)).

Fixpoint lookup_prop (k : jsstring) (props : list (jsstring * jsval))
  : option jsval :=
  match props with
  | [] => None
  | (k', v) :: props' => if streq k k' then Some v else lookup_prop k props'
  end.

Definition isDigit (c : N) : bool := ((48 <=? c) && (c <=? 57))%N.

Definition digits_value (ds : jsstring) : N :=
  fold_left (fun acc c => (acc * 10 + (c - 48))%N) ds 0%N.

(** An array index: the canonical decimal form of an integer below
    2^32 - 1. *)
Definition array_index (k : jsstring) : option N :=
  match k with
  | [] => None
  | c :: rest =>
      if forallb isDigit k && (negb (c =? 48)%N || bool_decide (rest = []))
         && (digits_value k <? 4294967295)%N
      then Some (digits_value k)
      else None
  end.

(** CreateDataProperty: a repeated key keeps its place and takes the new
    value.  A new key that is an array index goes before the larger
    indices and before every other key; any other new key goes last.
    That is the order in which the own keys of an object are listed. *)
Fixpoint set_prop (k : jsstring) (v : jsval) (props : list (jsstring * jsval))
  : list (jsstring * jsval) :=
  match props with
  | [] => [(k, v)]
  | (k', v') :: props' =>
      if streq k k' then (k, v) :: props'
      else
        match array_index k, array_index k' with
        | Some i, Some i' =>
            if (i <? i')%N then (k, v) :: props
            else (k', v') :: set_prop k v props'
        | Some _, None => (k, v) :: props
        | None, _ => (k', v') :: set_prop k v props'
        end
  end.

Definition hasOwn (k : jsstring) (v : jsval) : bool :=
  match v with
  | VObj props => bool_decide (is_Some (lookup_prop k props))
  | _ => false
  end.

(** [v.k] for the property names the components read, none of which is
    an index or a member of a built-in prototype.  On [null] and
    [undefined] the access throws a TypeError: [None]. *)
Definition get (v : jsval) (k : jsstring) : option jsval :=
  match v with
  | VUndefined | VNull => None
  | VObj props => Some (default VUndefined (lookup_prop k props))
  | VArr elems =>
      Some (if streq k (js "length")
            then VNum (of_decimal false (N.of_nat (length elems)) 0)
            else VUndefined)
  | VStr s =>
      Some (if streq k (js "length")
            then VNum (of_decimal false (N.of_nat (length s)) 0)
            else VUndefined)
  | VBool _ | VNum _ => Some VUndefined
  end.

(** ToBoolean. *)
Definition truthy (v : jsval) : bool :=
  match v with
  | VUndefined | VNull => false
  | VBool b => b
  | VNum x => negb (isZero x)
  | VStr s => negb (bool_decide (s = []))
  | VArr _ | VObj _ => true
  end.

(** [a || b] and [a && b]. *)
Definition or_else (a b : jsval) : jsval := if truthy a then a else b.
Definition and_then (a b : jsval) : jsval := if truthy a then b else a.

Definition isUndefined (v : jsval) : bool :=
  match v with VUndefined => true | _ => false end.

Definition typeof_string (v : jsval) : bool :=
  match v with VStr _ => true | _ => false end.

(** [v === 'literal']. *)
Definition is_str (v : jsval) (lit : jsstring) : bool :=
  match v with VStr s => streq s lit | _ => false end.

Fixpoint join_with (sep : jsstring) (pieces : list jsstring) : jsstring :=
  match pieces with
  | [] => []
  | [p] => p
  | p :: pieces' => p ++ sep ++ join_with sep pieces'
  end.

(** ToString.  An array prints its elements joined by commas, [null] and
    [undefined] elements as empty; an object prints as [object Object]
    unless an own [toString] property hides the inherited method, in which
    case the conversion finds no callable method and throws: [None]. *)
Fixpoint ToString (v : jsval) : option jsstring :=
  match v with
  | VUndefined => Some (js "undefined")
  | VNull => Some (js "null")
  | VBool b => Some (js (if b then "true" else "false"))
  | VNum x => Some (toString x)
  | VStr s => Some s
  | VArr elems =>
      pieces ← (fix each (l : list jsval) : option (list jsstring) :=
                  match l with
                  | [] => Some []
                  | e :: l' =>
                      p ← match e with
                          | VUndefined | VNull => Some []
                          | _ => ToString e
                          end;
                      ps ← each l';
                      Some (p :: ps)
                  end) elems;
      Some (join_with (js ",") pieces)
  | VObj _ =>
      if hasOwn (js "toString") v then None else Some (js "[object Object]")
  end.

Definition digit_of (radix : N) (c : N) : option N :=
  let d := if isDigit c then Some (c - 48)%N
           else if ((97 <=? c) && (c <=? 102))%N then Some (c - 87)%N
           else if ((65 <=? c) && (c <=? 70))%N then Some (c - 55)%N
           else None in
  d ≫= fun d => if (d <? radix)%N then Some d else None.

Fixpoint span_digits (s : jsstring) : jsstring * jsstring :=
  match s with
  | c :: s' =>
      if isDigit c then let '(ds, r) := span_digits s' in (c :: ds, r)
      else ([], s)
  | [] => ([], [])
  end.

(** Whether a non-decimal integer literal (digits after [0x], [0o] or
    [0b]) is well formed and not zero. *)
Definition radix_positive (radix : N) (ds : jsstring) : bool :=
  negb (bool_decide (ds = []))
  && forallb (fun c => bool_decide (is_Some (digit_of radix c))) ds
  && existsb (fun c => negb (c =? 48)%N) ds.

(** Whether an unsigned StrDecimalLiteral denotes a Number above zero. *)
Definition decimal_positive (s : jsstring) : bool :=
  if streq s (js "Infinity") then true
  else
    let '(int, r1) := span_digits s in
    let '(frac, r2) := match r1 with
                       | 46%N :: r => span_digits r
                       | _ => ([], r1)
                       end in
    let ex := match r2 with
              | [] => Some 0
              | c :: r =>
                  if ((c =? 101) || (c =? 69))%N then
                    let '(neg, r') := match r with
                                      | 43%N :: r' => (false, r')
                                      | 45%N :: r' => (true, r')
                                      | _ => (false, r)
                                      end in
                    let '(ds, rest) := span_digits r' in
                    if bool_decide (ds = []) || negb (bool_decide (rest = []))
                    then None
                    else Some (if neg then - Z.of_N (digits_value ds)
                               else Z.of_N (digits_value ds))
                  else None
              end in
    match ex with
    | None => false
    | Some e =>
        if bool_decide (int = []) && bool_decide (frac = []) then false
        else isPositive (of_decimal false (digits_value (int ++ frac))
                                    (e - Z.of_nat (length frac)))
    end.

(** Whether StringToNumber of [s] is above zero. *)
Definition string_positive (s : jsstring) : bool :=
  match trim s with
  | 48%N :: c :: ds =>
      if ((c =? 120) || (c =? 88))%N then radix_positive 16 ds
      else if ((c =? 111) || (c =? 79))%N then radix_positive 8 ds
      else if ((c =? 98) || (c =? 66))%N then radix_positive 2 ds
      else decimal_positive (trim s)
  | 43%N :: t => decimal_positive t
  | t => decimal_positive t
  end.

(** [v > 0]: ToPrimitive with hint number, then ToNumber.  [None] when the
    conversion throws. *)
Definition gt_zero (v : jsval) : option bool :=
  match v with
  | VUndefined | VNull => Some false
  | VBool b => Some b
  | VNum x => Some (isPositive x)
  | VStr s => Some (string_positive s)
  | VArr _ => string_positive <$> ToString v
  | VObj _ => (fun _ => false) <$> ToString v
  end.

Definition isHighSurrogate (c : N) : bool := ((55296 <=? c) && (c <=? 56319))%N.
Definition isLowSurrogate (c : N) : bool := ((56320 <=? c) && (c <=? 57343))%N.

(** The string iterator: one string per code point. *)
Fixpoint codePoints (s : jsstring) : list jsstring :=
  match s with
  | [] => []
  | c :: s' =>
      match s' with
      | c' :: s'' =>
          if isHighSurrogate c && isLowSurrogate c'
          then [c; c'] :: codePoints s''
          else [c] :: codePoints s'
      | [] => [[c]]
      end
  end.

(** What [[...v]] spreads: the elements of an array, the code points of
    a string; anything else JSON can produce is not iterable. *)
Definition spread (v : jsval) : option (list jsval) :=
  match v with
  | VArr elems => Some elems
  | VStr s => Some (map VStr (codePoints s))
  | _ => None
  end.

End Value.
Export Value.

(** ** TextDecoder

    [new TextDecoder()] is the UTF-8 decoder of the Encoding standard.
    Called with [{ stream: true }] it keeps its state between calls: the
    bytes of an unfinished sequence, and whether the first code point has
    gone by (a leading byte order mark is dropped). *)

Module TextDecoder.

Record decoder := {
  code_point : N;
  bytes_seen : N;
  bytes_needed : N;
  lower_boundary : N;
  upper_boundary : N;
  bom_seen : bool
}.

Definition fresh : decoder :=
  {| code_point := 0; bytes_seen := 0; bytes_needed := 0;
     lower_boundary := 128; upper_boundary := 191; bom_seen := false |}.

Definition reset (d : decoder) : decoder :=
  {| code_point := 0; bytes_seen := 0; bytes_needed := 0;
     lower_boundary := 128; upper_boundary := 191; bom_seen := bom_seen d |}.

Definition expect (d : decoder) (needed lower upper cp : N) : decoder :=
  {| code_point := cp; bytes_seen := 0; bytes_needed := needed;
     lower_boundary := lower; upper_boundary := upper;
     bom_seen := bom_seen d |}.

Local Open Scope N_scope.

(** A byte arriving when no sequence is open; the result is the decoder
    and the code points it emits (U+FFFD for an error). *)
Definition lead_byte (d : decoder) (b : N) : decoder * list N :=
  if b <=? 127 then (reset d, [b])
  else if (194 <=? b) && (b <=? 223) then
    (expect d 1 128 191 (N.land b 31), [])
  else if (224 <=? b) && (b <=? 239) then
    (expect d 2 (if b =? 224 then 160 else 128)
              (if b =? 237 then 159 else 191) (N.land b 15), [])
  else if (240 <=? b) && (b <=? 244) then
    (expect d 3 (if b =? 240 then 144 else 128)
              (if b =? 244 then 143 else 191) (N.land b 7), [])
  else (reset d, [65533]).

(** The handler of the UTF-8 decoder for one byte.  A byte outside the
    boundaries ends the open sequence with an error and is then read
    again as a lead byte. *)
Definition handler (d : decoder) (b : N) : decoder * list N :=
  if bytes_needed d =? 0 then lead_byte d b
  else if (b <? lower_boundary d) || (upper_boundary d <? b) then
    let '(d', out) := lead_byte (reset d) b in (d', 65533 :: out)
  else
    let cp := N.lor (N.shiftl (code_point d) 6) (N.land b 63) in
    if bytes_seen d + 1 =? bytes_needed d then (reset d, [cp])
    else
      ({| code_point := cp; bytes_seen := bytes_seen d + 1;
          bytes_needed := bytes_needed d;
          lower_boundary := 128; upper_boundary := 191;
          bom_seen := bom_seen d |}, []).

(** The code units of a code point. *)
Definition code_units (cp : N) : jsstring :=
  if cp <? 65536 then [cp]
  else [55296 + N.shiftr (cp - 65536) 10; 56320 + N.land (cp - 65536) 1023].

(** Serialising the emitted code points: the first one of the stream is
    dropped when it is U+FEFF. *)
Fixpoint emit (seen : bool) (cps : list N) : bool * jsstring :=
  match cps with
  | [] => (seen, [])
  | cp :: cps' =>
      let '(seen', out) := emit true cps' in
      (seen', if negb seen && (cp =? 65279) then out else code_units cp ++ out)
  end.

Definition decode_byte (d : decoder) (b : byte) : decoder * jsstring :=
  let '(d', cps) := handler d (Byte.to_N b) in
  let '(seen, out) := emit (bom_seen d') cps in
  ({| code_point := code_point d'; bytes_seen := bytes_seen d';
      bytes_needed := bytes_needed d';
      lower_boundary := lower_boundary d';
      upper_boundary := upper_boundary d'; bom_seen := seen |}, out).

(** [decoder.decode(value, { stream: true })]. *)
Fixpoint decode (d : decoder) (value : list byte) : decoder * jsstring :=
  match value with
  | [] => (d, [])
  | b :: value' =>
      let '(d1, out1) := decode_byte d b in
      let '(d2, out2) := decode d1 value' in
      (d2, out1 ++ out2)
  end.

End TextDecoder.

(** ** JSON.parse

    The JSON grammar, read one code unit at a time by a pushdown
    automaton: [mode] is what may come next, the stack holds the arrays
    and objects that are still open. *)

Module JSON.

Inductive numstate :=
| NMinus | NZero | NInt | NDot | NFrac | NE | NESign | NExp.

Inductive mode :=
| Value
| ArrayStart
| AfterElement
| ObjectStart
| Key
| Colon
| AfterMember
| End (v : jsval)
| InString (key : bool) (acc : jsstring)
| Escape (key : bool) (acc : jsstring)
| Unicode (key : bool) (acc : jsstring) (count : nat) (code : N)
| InNumber (ns : numstate) (neg : bool) (mant : N) (frac : Z)
           (eneg : bool) (ex : N)
| Literal (rest : jsstring) (v : jsval).

Inductive frame :=
| FArr (elems : list jsval)
| FObj (props : list (jsstring * jsval)) (key : jsstring).

Definition state := (mode * list frame)%type.

Definition isJSONSpace (c : N) : bool :=
  ((c =? 32) || (c =? 9) || (c =? 10) || (c =? 13))%N.

(** A value is complete: it is the result, or goes into the innermost
    open container. *)
Definition complete (v : jsval) (stack : list frame) : state :=
  match stack with
  | [] => (End v, [])
  | FArr elems :: stack' => (AfterElement, FArr (v :: elems) :: stack')
  | FObj props key :: stack' =>
      (AfterMember, FObj (set_prop key v props) key :: stack')
  end.

Definition close_array (stack : list frame) : option state :=
  match stack with
  | FArr elems :: stack' => Some (complete (VArr (rev elems)) stack')
  | _ => None
  end.

Definition close_object (stack : list frame) : option state :=
  match stack with
  | FObj props _ :: stack' => Some (complete (VObj props) stack')
  | _ => None
  end.

Definition number_value (neg : bool) (mant : N) (frac : Z)
    (eneg : bool) (ex : N) : jsval :=
  VNum (of_decimal neg mant
          ((if eneg then - Z.of_N ex else Z.of_N ex) - frac)).

Local Open Scope N_scope.

(** The start of a value. *)
Definition start_value (c : N) (stack : list frame) : option state :=
  if c =? 34 then Some (InString false [], stack)
  else if c =? 123 then Some (ObjectStart, FObj [] [] :: stack)
  else if c =? 91 then Some (ArrayStart, FArr [] :: stack)
  else if c =? 45 then Some (InNumber NMinus true 0 0 false 0, stack)
  else if c =? 48 then Some (InNumber NZero false 0 0 false 0, stack)
  else if isDigit c then Some (InNumber NInt false (c - 48) 0 false 0, stack)
  else if c =? 116 then Some (Literal (js "rue") (VBool true), stack)
  else if c =? 102 then Some (Literal (js "alse") (VBool false), stack)
  else if c =? 110 then Some (Literal (js "ull") VNull, stack)
  else None.

(** A code unit between tokens. *)
Definition step_between (m : mode) (stack : list frame) (c : N)
  : option state :=
  if isJSONSpace c then Some (m, stack)
  else
    match m with
    | Value => start_value c stack
    | ArrayStart => if c =? 93 then close_array stack else start_value c stack
    | AfterElement =>
        if c =? 44 then Some (Value, stack)
        else if c =? 93 then close_array stack
        else None
    | ObjectStart =>
        if c =? 34 then Some (InString true [], stack)
        else if c =? 125 then close_object stack
        else None
    | Key => if c =? 34 then Some (InString true [], stack) else None
    | Colon => if c =? 58 then Some (Value, stack) else None
    | AfterMember =>
        if c =? 44 then Some (Key, stack)
        else if c =? 125 then close_object stack
        else None
    | _ => None
    end.

(** The end of a string: a key waits for its colon, a value is complete. *)
Definition end_string (key : bool) (acc : jsstring) (stack : list frame)
  : option state :=
  if key then
    match stack with
    | FObj props _ :: stack' => Some (Colon, FObj props (rev acc) :: stack')
    | _ => None
    end
  else Some (complete (VStr (rev acc)) stack).

Definition escaped (c : N) : option N :=
  if (c =? 34) || (c =? 92) || (c =? 47) then Some c
  else if c =? 98 then Some 8
  else if c =? 102 then Some 12
  else if c =? 110 then Some 10
  else if c =? 114 then Some 13
  else if c =? 116 then Some 9
  else None.

(** A code unit inside a number; a number ends at the first code unit
    that cannot continue it, which is then read as what follows a value. *)
Definition step_number (ns : numstate) (neg : bool) (mant : N) (frac : Z)
    (eneg : bool) (ex : N) (stack : list frame) (c : N) : option state :=
  let finish :=
    let '(m, stack') := complete (number_value neg mant frac eneg ex) stack in
    step_between m stack' c in
  let isE := (c =? 101) || (c =? 69) in
  let d := c - 48 in
  match ns with
  | NMinus =>
      if c =? 48 then Some (InNumber NZero neg 0 0 false 0, stack)
      else if isDigit c then Some (InNumber NInt neg d 0 false 0, stack)
      else None
  | NZero =>
      if c =? 46 then Some (InNumber NDot neg mant frac eneg ex, stack)
      else if isE then Some (InNumber NE neg mant frac eneg ex, stack)
      else finish
  | NInt =>
      if isDigit c
      then Some (InNumber NInt neg (mant * 10 + d) frac eneg ex, stack)
      else if c =? 46 then Some (InNumber NDot neg mant frac eneg ex, stack)
      else if isE then Some (InNumber NE neg mant frac eneg ex, stack)
      else finish
  | NDot =>
      if isDigit c
      then Some (InNumber NFrac neg (mant * 10 + d) (frac + 1)%Z eneg ex, stack)
      else None
  | NFrac =>
      if isDigit c
      then Some (InNumber NFrac neg (mant * 10 + d) (frac + 1)%Z eneg ex, stack)
      else if isE then Some (InNumber NE neg mant frac eneg ex, stack)
      else finish
  | NE =>
      if c =? 43 then Some (InNumber NESign neg mant frac false ex, stack)
      else if c =? 45 then Some (InNumber NESign neg mant frac true ex, stack)
      else if isDigit c then Some (InNumber NExp neg mant frac eneg d, stack)
      else None
  | NESign =>
      if isDigit c then Some (InNumber NExp neg mant frac eneg d, stack)
      else None
  | NExp =>
      if isDigit c
      then Some (InNumber NExp neg mant frac eneg (ex * 10 + d), stack)
      else finish
  end.

Definition step (st : state) (c : N) : option state :=
  let '(m, stack) := st in
  match m with
  | InString key acc =>
      if c =? 34 then end_string key acc stack
      else if c =? 92 then Some (Escape key acc, stack)
      else if c <? 32 then None
      else Some (InString key (c :: acc), stack)
  | Escape key acc =>
      if c =? 117 then Some (Unicode key acc 0 0, stack)
      else (fun c' => (InString key (c' :: acc), stack)) <$> escaped c
  | Unicode key acc count code =>
      digit_of 16 c ≫= fun d =>
        let code' := code * 16 + d in
        Some (match count with
              | 3%nat => InString key (code' :: acc)
              | _ => Unicode key acc (S count) code'
              end, stack)
  | Literal rest v =>
      match rest with
      | r :: rest' =>
          if c =? r then
            Some (match rest' with
                  | [] => complete v stack
                  | _ => (Literal rest' v, stack)
                  end)
          else None
      | [] => None
      end
  | InNumber ns neg mant frac eneg ex =>
      step_number ns neg mant frac eneg ex stack c
  | End _ => if isJSONSpace c then Some st else None
  | _ => step_between m stack c
  end.

(** The end of the text: a value must be complete, or a number that may
    end here must be the whole text. *)
Definition finish (st : state) : option jsval :=
  match st with
  | (End v, []) => Some v
  | (InNumber ns neg mant frac eneg ex, []) =>
      match ns with
      | NZero | NInt | NFrac | NExp =>
          Some (number_value neg mant frac eneg ex)
      | _ => None
      end
  | _ => None
  end.

Fixpoint run (st : state) (text : jsstring) : option jsval :=
  match text with
  | [] => finish st
  | c :: text' => step st c ≫= fun st' => run st' text'
  end.

(** [JSON.parse(text)]; [None] is the SyntaxError. *)
Definition parse (text : jsstring) : option jsval := run (Value, []) text.

End JSON.

(** ** AiSignalChatModal: data

    [Message], [AnalysisEntry] as the interfaces declare them.  A field
    that receives a payload property through an unchecked cast
    ([data.content as string]) holds whatever value the payload had.
    Message ids are integers ([Date.now()], database keys) in the range
    where [+ 1] is exact. *)

Module Message.

Inductive Role := user | assistant.

Inductive EntryType := reasoning | tool_call | tool_result.

Record AnalysisEntry := {
  type : EntryType;
  entry_content : jsval;
  name : jsval;
  arguments : jsval;
  result : jsval
}.

Record t := {
  id : Z;
  role : Role;
  content : jsval;
  signal_configs : jsval;
  isStreaming : option bool;
  statusText : jsval;
  analysisLog : option (list AnalysisEntry)
}.

Definition with_statusText (v : jsval) (m : t) : t :=
  {| id := id m; role := role m; content := content m;
     signal_configs := signal_configs m; isStreaming := isStreaming m;
     statusText := v; analysisLog := analysisLog m |}.

Definition with_content (v : jsval) (m : t) : t :=
  {| id := id m; role := role m; content := v;
     signal_configs := signal_configs m; isStreaming := isStreaming m;
     statusText := statusText m; analysisLog := analysisLog m |}.

(** [analysisLog: [...(m.analysisLog || []), entry]]. *)
Definition log_entry (entry : AnalysisEntry) (m : t) : t :=
  {| id := id m; role := role m; content := content m;
     signal_configs := signal_configs m; isStreaming := isStreaming m;
     statusText := statusText m;
     analysisLog := Some (default [] (analysisLog m) ++ [entry]) |}.

(** [{ ...m, content: finalContent, signal_configs: finalSignalConfigs,
       isStreaming: false, statusText: undefined }]. *)
Definition finalized (finalContent finalSignalConfigs : jsval) (m : t) : t :=
  {| id := id m; role := role m; content := finalContent;
     signal_configs := finalSignalConfigs; isStreaming := Some false;
     statusText := VUndefined; analysisLog := analysisLog m |}.

Definition streaming (m : t) : bool :=
  match isStreaming m with Some true => true | _ => false end.

End Message.

Module Chat.

Import Message.

(** What the component does to the world outside its state. *)
Inductive Effect :=
| ToastError (message : jsval)
| ConsoleError
| PostChatStream (accountId : Z) (userMessage : jsstring)
                 (conversationId : jsval)
| LoadConversations.

(** The state of the modal ([useState]), the effects it has had, and
    whether an updater has thrown: an updater that throws does so while
    React renders, outside every [try] of the component, and takes the
    component down; updates that arrive afterwards are dropped, and what
    the record then holds is no longer on display.

    [crashed] records the exceptions of updaters and nothing else.  The
    JSX of [ChatArea] and [SignalCardsPanel] can throw as well while it
    renders a state (line 494 calls [slice] on what [JSON.stringify]
    gives for the result of a tool, line 589 reads [name] of every
    config), and that unmounts the modal too; so [crashed s = false] is
    necessary for the modal to be on display with state [s], not
    sufficient.

    A setter applies its updater at once.  React queues the updaters and
    runs them in the order of the calls, so the state after any number of
    calls is the same. *)
Record State := {
  selectedAccountId : option Z;
  currentConversationId : jsval;
  messages : list Message.t;
  userInput : jsstring;
  loading : bool;
  allSignalConfigs : list jsval;
  effects : list Effect;
  crashed : bool
}.

Definition initial : State :=
  {| selectedAccountId := None; currentConversationId := VNull;
     messages := []; userInput := []; loading := false;
     allSignalConfigs := []; effects := []; crashed := false |}.

Definition perform (e : Effect) (s : State) : State :=
  {| selectedAccountId := selectedAccountId s;
     currentConversationId := currentConversationId s;
     messages := messages s; userInput := userInput s;
     loading := loading s; allSignalConfigs := allSignalConfigs s;
     effects := effects s ++ [e]; crashed := crashed s |}.

Definition crash (s : State) : State :=
  {| selectedAccountId := selectedAccountId s;
     currentConversationId := currentConversationId s;
     messages := messages s; userInput := userInput s;
     loading := loading s; allSignalConfigs := allSignalConfigs s;
     effects := effects s; crashed := true |}.

(** The state setters, with functional updaters where the source has
    them.  [None] from an updater is an exception thrown in it. *)
Definition setMessages (f : list Message.t → option (list Message.t))
    (s : State) : State :=
  if crashed s then s
  else match f (messages s) with
       | None => crash s
       | Some l =>
           {| selectedAccountId := selectedAccountId s;
              currentConversationId := currentConversationId s;
              messages := l; userInput := userInput s;
              loading := loading s; allSignalConfigs := allSignalConfigs s;
              effects := effects s; crashed := false |}
       end.

Definition setAllSignalConfigs (f : list jsval → option (list jsval))
    (s : State) : State :=
  if crashed s then s
  else match f (allSignalConfigs s) with
       | None => crash s
       | Some l =>
           {| selectedAccountId := selectedAccountId s;
              currentConversationId := currentConversationId s;
              messages := messages s; userInput := userInput s;
              loading := loading s; allSignalConfigs := l;
              effects := effects s; crashed := false |}
       end.

Definition setCurrentConversationId (v : jsval) (s : State) : State :=
  if crashed s then s
  else {| selectedAccountId := selectedAccountId s;
          currentConversationId := v;
          messages := messages s; userInput := userInput s;
          loading := loading s; allSignalConfigs := allSignalConfigs s;
          effects := effects s; crashed := false |}.

Definition setUserInput (v : jsstring) (s : State) : State :=
  if crashed s then s
  else {| selectedAccountId := selectedAccountId s;
          currentConversationId := currentConversationId s;
          messages := messages s; userInput := v;
          loading := loading s; allSignalConfigs := allSignalConfigs s;
          effects := effects s; crashed := false |}.

Definition setLoading (b : bool) (s : State) : State :=
  if crashed s then s
  else {| selectedAccountId := selectedAccountId s;
          currentConversationId := currentConversationId s;
          messages := messages s; userInput := userInput s;
          loading := b; allSignalConfigs := allSignalConfigs s;
          effects := effects s; crashed := false |}.

Definition setSelectedAccountId (a : option Z) (s : State) : State :=
  if crashed s then s
  else {| selectedAccountId := a;
          currentConversationId := currentConversationId s;
          messages := messages s; userInput := userInput s;
          loading := loading s; allSignalConfigs := allSignalConfigs s;
          effects := effects s; crashed := false |}.

(** [prev.map(m => m.id === msgId ? f(m) : m)]. *)
Definition updateMessage (msgId : Z) (f : Message.t → option Message.t)
    (prev : list Message.t) : option (list Message.t) :=
  mapM (fun m => if Message.id m =? msgId then f m else Some m) prev.

(** *** The locals of one run of [sendMessage] *)

Record Locals := {
  decoder : TextDecoder.decoder;
  buffer : jsstring;
  finalContent : jsval;
  finalSignalConfigs : jsval;
  finalConversationId : jsval;
  finalMessageId : jsval;
  currentEventType : jsstring
}.

Definition locals0 : Locals :=
  {| decoder := TextDecoder.fresh; buffer := [];
     finalContent := VStr []; finalSignalConfigs := VArr [];
     finalConversationId := VNull; finalMessageId := VNull;
     currentEventType := [] |}.

Definition with_currentEventType (ty : jsstring) (l : Locals) : Locals :=
  {| decoder := decoder l; buffer := buffer l;
     finalContent := finalContent l;
     finalSignalConfigs := finalSignalConfigs l;
     finalConversationId := finalConversationId l;
     finalMessageId := finalMessageId l; currentEventType := ty |}.

Definition with_input (d : TextDecoder.decoder) (b : jsstring) (l : Locals)
  : Locals :=
  {| decoder := d; buffer := b;
     finalContent := finalContent l;
     finalSignalConfigs := finalSignalConfigs l;
     finalConversationId := finalConversationId l;
     finalMessageId := finalMessageId l;
     currentEventType := currentEventType l |}.

(** A new decoder state and carry-over buffer in a state of the loop. *)
Definition lift_input (d : TextDecoder.decoder) (b : jsstring)
    (st : Locals * State) : Locals * State :=
  (with_input d b (fst st), snd st).

(** The argument of [onUpdate]; a property left out is [undefined]. *)
Record Updates := {
  u_content : jsval;
  u_signalConfigs : jsval;
  u_conversationId : jsval;
  u_messageId : jsval
}.

(** The callback [sendMessage] passes to [handleSSEEvent]. *)
Definition onUpdate (updates : Updates) (l : Locals) : Locals :=
  {| decoder := decoder l; buffer := buffer l;
     finalContent :=
       if negb (isUndefined (u_content updates)) then u_content updates
       else finalContent l;
     finalSignalConfigs :=
       if truthy (u_signalConfigs updates) then u_signalConfigs updates
       else finalSignalConfigs l;
     finalConversationId :=
       if truthy (u_conversationId updates) then u_conversationId updates
       else finalConversationId l;
     finalMessageId :=
       if truthy (u_messageId updates) then u_messageId updates
       else finalMessageId l;
     currentEventType := currentEventType l |}.

(** [reasoning.slice(0, 80)]: a string and an array have the method,
    nothing else JSON can produce has. *)
Definition slice80 (v : jsval) : option jsval :=
  match v with
  | VStr s => Some (VStr (slice_to 80 s))
  | VArr elems => Some (VArr (take 80 elems))
  | _ => None
  end.

(** [handleSSEEvent(eventType, data, msgId, onUpdate)], over the locals
    [onUpdate] assigns and the state.  [None] is an exception thrown
    before anything was changed (a property read on [null]). *)
Definition handleSSEEvent {L : Type} (eventType : jsstring) (data : jsval)
    (msgId : Z) (onUpdate : Updates → L → L) (st : L * State)
  : option (L * State) :=
  let '(l, s) := st in
  if streq eventType (js "status") then
    Some (l, setMessages (updateMessage msgId (fun m =>
            v ← get data (js "message");
            Some (with_statusText v m))) s)
  else if streq eventType (js "reasoning") then
    c ← get data (js "content");
    let reasoning := or_else c (VStr []) in
    let entry := {| type := Message.reasoning; entry_content := reasoning;
                    name := VUndefined; arguments := VUndefined;
                    result := VUndefined |} in
    Some (l, setMessages (updateMessage msgId (fun m =>
            preview ← slice80 reasoning ≫= ToString;
            Some (log_entry entry
                    (with_statusText
                       (VStr (js "Thinking: " ++ preview ++ js "...")) m)))) s)
  else if streq eventType (js "content") then
    c ← get data (js "content");
    let l' := onUpdate {| u_content := c; u_signalConfigs := VUndefined;
                          u_conversationId := VUndefined;
                          u_messageId := VUndefined |} l in
    Some (l', setMessages (updateMessage msgId (fun m =>
            Some (with_statusText VUndefined (with_content c m)))) s)
  else if streq eventType (js "signal_config") then
    config ← get data (js "config");
    if truthy config then
      Some (onUpdate {| u_content := VUndefined;
                        u_signalConfigs := VArr [config];
                        u_conversationId := VUndefined;
                        u_messageId := VUndefined |} l, s)
    else Some (l, s)
  else if streq eventType (js "done") then
    c ← get data (js "content");
    signalConfigs ← get data (js "signal_configs");
    conversation_id ← get data (js "conversation_id");
    message_id ← get data (js "message_id");
    Some (onUpdate {| u_content := c; u_signalConfigs := signalConfigs;
                      u_conversationId := conversation_id;
                      u_messageId := message_id |} l, s)
  else if streq eventType (js "error") then
    message ← get data (js "message");
    Some (l, perform (ToastError
                        (or_else message (VStr (js "AI generation failed")))) s)
  else if streq eventType (js "tool_call") then
    nm ← get data (js "name");
    args ← get data (js "arguments");
    let entry := {| type := Message.tool_call; entry_content := VUndefined;
                    name := nm; arguments := args; result := VUndefined |} in
    Some (l, setMessages (updateMessage msgId (fun m =>
            shown ← ToString nm;
            Some (log_entry entry
                    (with_statusText
                       (VStr (js "Calling " ++ shown ++ js "...")) m)))) s)
  else if streq eventType (js "tool_result") then
    nm ← get data (js "name");
    res ← get data (js "result");
    let entry := {| type := Message.tool_result; entry_content := VUndefined;
                    name := nm; arguments := VUndefined; result := res |} in
    Some (l, setMessages (updateMessage msgId (fun m =>
            shown ← ToString nm;
            Some (log_entry entry
                    (with_statusText
                       (VStr (js "Got result from " ++ shown)) m)))) s)
  else Some (l, s).

(** *** sendMessage *)

(** One run of [sendMessage]: the ids it made up, the conversation id its
    closure saw, and its locals. *)
Record Activation := {
  tempUserMsgId : Z;
  conversationIdAtCall : jsval;
  locals : Locals
}.

Definition tempAssistantMsgId (a : Activation) : Z := tempUserMsgId a + 1.

Definition with_locals (l : Locals) (a : Activation) : Activation :=
  {| tempUserMsgId := tempUserMsgId a;
     conversationIdAtCall := conversationIdAtCall a; locals := l |}.

(** The guard: [!userInput.trim() || !selectedAccountId] returns at once. *)
Definition canSend (s : State) : bool :=
  negb (bool_decide (trim (userInput s) = []))
  && match selectedAccountId s with
     | Some account => negb (account =? 0)
     | None => false
     end.

Definition tempUserMsg (now : Z) (userMessage : jsstring) : Message.t :=
  {| id := now; role := user; content := VStr userMessage;
     signal_configs := VUndefined; isStreaming := None;
     statusText := VUndefined; analysisLog := None |}.

Definition tempAssistantMsg (now : Z) : Message.t :=
  {| id := now + 1; role := assistant; content := VStr [];
     signal_configs := VUndefined; isStreaming := Some true;
     statusText := VStr (js "Connecting..."); analysisLog := None |}.

(** From the call to the [fetch]; [now] is what [Date.now()] returned. *)
Definition begin (now : Z) (s : State) : Activation * State :=
  let userMessage := trim (userInput s) in
  let s1 := setLoading true (setUserInput [] s) in
  let s2 := setMessages (fun prev =>
              Some (prev ++ [tempUserMsg now userMessage;
                             tempAssistantMsg now])) s1 in
  ({| tempUserMsgId := now;
      conversationIdAtCall := currentConversationId s;
      locals := locals0 |},
   perform (PostChatStream (default 0 (selectedAccountId s)) userMessage
                           (currentConversationId s)) s2).

(** The body of [for (const line of lines)]. *)
Definition process_line (msgId : Z) (st : Locals * State) (line : jsstring)
  : Locals * State :=
  if startsWith line (js "event: ") then
    (with_currentEventType (trim (slice_from 7 line)) (fst st), snd st)
  else if startsWith line (js "data: ") then
    let st' :=
      match JSON.parse (slice_from 6 line) with
      | Some data =>
          default st
            (handleSSEEvent (currentEventType (fst st)) data msgId onUpdate st)
      | None => st
      end in
    (with_currentEventType [] (fst st'), snd st')
  else st.

(** The lines of one record of the stream: the event line, the data
    line, the blank line that ends it. *)
Definition record_lines (event data : jsstring) : list jsstring :=
  [js "event: " ++ event; js "data: " ++ data; []].

(** The body of [while (true)] for a chunk the reader delivered. *)
Definition process_chunk (msgId : Z) (st : Locals * State) (value : list byte)
  : Locals * State :=
  let '(d, text) := TextDecoder.decode (decoder (fst st)) value in
  let '(lines, lastLine) := pop (split_lf (buffer (fst st) ++ text)) in
  fold_left (process_line msgId) lines
    (with_input d (default [] lastLine) (fst st), snd st).

Definition read_loop (msgId : Z) (chunks : list (list byte))
    (st : Locals * State) : Locals * State :=
  fold_left (process_chunk msgId) chunks st.

(** How a [try] block ends. *)
Inductive Completion :=
| Returned (s : State)
| Thrown (s : State).

(** After the loop: "Finalize the message". *)
Definition finalize (a : Activation) (s : State) : Completion :=
  let l := locals a in
  let s1 := setMessages (updateMessage (tempAssistantMsgId a) (fun m =>
              Some (finalized (finalContent l) (finalSignalConfigs l) m))) s in
  match (len ← get (finalSignalConfigs l) (js "length"); gt_zero len)
        : option bool with
  | None => Thrown s1
  | Some nonEmpty =>
      let s2 := if nonEmpty
                then setAllSignalConfigs (fun prev =>
                       app prev <$> spread (finalSignalConfigs l)) s1
                else s1 in
      Returned
        (if negb (truthy (conversationIdAtCall a))
            && truthy (finalConversationId l)
         then perform LoadConversations
                (setCurrentConversationId (finalConversationId l) s2)
         else s2)
  end.

(** The [catch] block. *)
Definition handleError (a : Activation) (s : State) : State :=
  setMessages (fun prev =>
      Some (filter (fun m => Message.id m ≠ tempUserMsgId a
                             ∧ Message.id m ≠ tempAssistantMsgId a) prev))
    (perform (ToastError (VStr (js "Failed to send message")))
       (perform ConsoleError s)).

(** The [finally] block. *)
Definition finish (s : State) : State := setLoading false s.

(** What the network does to the request. *)
Inductive StreamEnd :=
| EndOfStream          (* [reader.read()] resolves with [done] *)
| ReadRejected.        (* [reader.read()] rejects *)

Inductive Response :=
| FetchRejected
| ResponseNotOk
| ResponseNoBody
| ResponseBody (chunks : list (list byte)) (ending : StreamEnd).

Definition readAll (a : Activation) (chunks : list (list byte)) (s : State)
  : Activation * State :=
  let '(l, s') := read_loop (tempAssistantMsgId a) chunks (locals a, s) in
  (with_locals l a, s').

Definition attempt (a : Activation) (resp : Response) (s : State)
  : Completion :=
  match resp with
  | FetchRejected | ResponseNotOk | ResponseNoBody => Thrown s
  | ResponseBody chunks ending =>
      let '(a', s') := readAll a chunks s in
      match ending with
      | EndOfStream => finalize a' s'
      | ReadRejected => Thrown s'
      end
  end.

Definition settle (a : Activation) (c : Completion) : State :=
  finish match c with
         | Returned s => s
         | Thrown s => handleError a s
         end.

(** [sendMessage()], run to its end with nothing else in between. *)
Definition sendMessage (now : Z) (resp : Response) (s : State) : State :=
  if canSend s then
    let '(a, s1) := begin now s in settle a (attempt a resp s1)
  else s.

(** *** The other handlers *)

Definition startNewConversation (s : State) : State :=
  setAllSignalConfigs (fun _ => Some [])
    (setMessages (fun _ => Some []) (setCurrentConversationId VNull s)).

(** The configs [loadMessages] collects: those of the assistant messages,
    in message order.  [None] when a [signal_configs] is not iterable. *)
Fixpoint collectConfigs (msgs : list Message.t) : option (list jsval) :=
  match msgs with
  | [] => Some []
  | m :: msgs' =>
      here ← match role m with
             | assistant =>
                 if truthy (signal_configs m) then spread (signal_configs m)
                 else Some []
             | user => Some []
             end;
      rest ← collectConfigs msgs';
      Some (here ++ rest)
  end.

(** [loadMessages], from the moment the server has answered with
    [msgs]. *)
Definition loadMessages (msgs : list Message.t) (s : State) : State :=
  let s1 := setMessages (fun _ => Some msgs) s in
  match collectConfigs msgs with
  | Some configs => setAllSignalConfigs (fun _ => Some configs) s1
  | None => perform ConsoleError s1
  end.

(** *** The session as a transition system

    The handlers interleave at every [await].  A session is the state
    of the modal and the runs of [sendMessage] that are under way. *)

Record Session := {
  ui : State;
  inflight : list Activation
}.

Definition opened : Session := {| ui := initial; inflight := [] |}.

Inductive step : Session → Session → Prop :=
(* the user types; picks an account; picks a conversation *)
| step_input x text :
    crashed (ui x) = false →
    step x {| ui := setUserInput text (ui x); inflight := inflight x |}
| step_account x account :
    crashed (ui x) = false →
    step x {| ui := setSelectedAccountId account (ui x);
              inflight := inflight x |}
| step_select x conversationId :
    crashed (ui x) = false →
    step x {| ui := setCurrentConversationId conversationId (ui x);
              inflight := inflight x |}
| step_new x :
    crashed (ui x) = false →
    step x {| ui := startNewConversation (ui x); inflight := inflight x |}
(* the server answers a [loadMessages]; stored messages carry no
   streaming flag *)
| step_loaded x msgs :
    Forall (fun m => streaming m = false) msgs →
    step x {| ui := loadMessages msgs (ui x); inflight := inflight x |}
(* the user sends: Enter and the Send button are disabled while
   [loading] *)
| step_send x now a s' :
    crashed (ui x) = false →
    loading (ui x) = false →
    canSend (ui x) = true →
    begin now (ui x) = (a, s') →
    step x {| ui := s'; inflight := inflight x ++ [a] |}
(* a run reads a chunk *)
| step_chunk x before a after value l' s' :
    inflight x = before ++ a :: after →
    process_chunk (tempAssistantMsgId a) (locals a, ui x) value = (l', s') →
    step x {| ui := s'; inflight := before ++ with_locals l' a :: after |}
(* a run comes to its end: the stream is exhausted, or something threw *)
| step_done x before a after :
    inflight x = before ++ a :: after →
    step x {| ui := settle a (finalize a (ui x));
              inflight := before ++ after |}
| step_failed x before a after :
    inflight x = before ++ a :: after →
    step x {| ui := settle a (Thrown (ui x)); inflight := before ++ after |}.

Inductive reachable : Session → Prop :=
| reachable_opened : reachable opened
| reachable_step x y : reachable x → step x y → reachable y.

(** *** Vocabulary for the properties *)

(** The request failed: anything but a stream read to its end. *)
Definition failed (resp : Response) : bool :=
  match resp with
  | ResponseBody _ EndOfStream => false
  | _ => true
  end.

(** [after] is [before] with changes to the messages of id [msgId] only;
    no message changes its id, its role or its streaming flag. *)
Definition touches_only (msgId : Z) (before after : list Message.t) : Prop :=
  Forall2 (fun m m' =>
             Message.id m' = Message.id m
             ∧ role m' = role m
             ∧ isStreaming m' = isStreaming m
             ∧ (Message.id m ≠ msgId → m' = m)) before after.

(** What reading the stream of the run with placeholder [msgId] may do to
    the state of the modal. *)
Definition advances (msgId : Z) (s s' : State) : Prop :=
  selectedAccountId s' = selectedAccountId s
  ∧ currentConversationId s' = currentConversationId s
  ∧ userInput s' = userInput s
  ∧ loading s' = loading s
  ∧ allSignalConfigs s' = allSignalConfigs s
  ∧ (crashed s = true → crashed s' = true)
  ∧ touches_only msgId (messages s) (messages s').

(** The messages with the streaming flag set. *)
Definition streamingMessages (s : State) : list Message.t :=
  filter (fun m => streaming m = true) (messages s).

(** The two things the end of a run does to the list: the placeholder is
    finalised, or the two messages of the run are filtered out. *)
Definition finalise_in (a : Activation) (l : list Message.t)
  : list Message.t :=
  map (fun m => if Message.id m =? tempAssistantMsgId a
                then finalized (finalContent (locals a))
                               (finalSignalConfigs (locals a)) m
                else m) l.

Definition discard_in (a : Activation) (l : list Message.t)
  : list Message.t :=
  filter (fun m => Message.id m ≠ tempUserMsgId a
                   ∧ Message.id m ≠ tempAssistantMsgId a) l.

(** The lists a run can leave behind, and the ones it can leave in a
    modal that is still mounted. *)
Definition left_behind (a : Activation) (l l' : list Message.t) : Prop :=
  l' = l ∨ l' = finalise_in a l ∨ l' = discard_in a l
  ∨ l' = discard_in a (finalise_in a l).

Definition left_mounted (a : Activation) (l l' : list Message.t) : Prop :=
  l' = finalise_in a l ∨ l' = discard_in a l
  ∨ l' = discard_in a (finalise_in a l).

(** What holds of every reachable session: at most one run of
    [sendMessage] is under way, [loading] is set while it is, and in a
    mounted modal every message with the streaming flag is an assistant
    message that carries the placeholder id of that run. *)
Definition session_inv (x : Session) : Prop :=
  (length (inflight x) ≤ 1)%nat
  ∧ (length (streamingMessages (ui x)) ≤ 1)%nat
  ∧ (crashed (ui x) = false →
       (loading (ui x) = false → inflight x = [])
       ∧ ∀ m, m ∈ messages (ui x) → streaming m = true →
           role m = assistant
           ∧ ∃ a, inflight x = [a] ∧ Message.id m = tempUserMsgId a + 1).

End Chat.

(** ** SignalConfig

    The configs of the panel are what the server sent: line 286 casts
    the payload without a check.  Of a trigger condition and of a member
    of a pool the cards test [metric], [operator] and [threshold] before
    they use them, so these three are kept as the JSON has them, of any
    type, [VUndefined] for a property that is absent.  (A trigger
    condition that is a number, a string or an array has none of the
    properties and reads like [{}]; a pool whose [signals] is truthy and
    not an array, or has a member that is [null], makes the pool card
    throw while it renders.)  The properties that are only shown are as
    the interface declares them, each of them optional. *)

Module TriggerCondition.
Record t := {
  metric : jsval;
  operator : jsval;
  threshold : jsval;
  time_window : option jsstring;
  direction : option jsstring;
  ratio_threshold : option number;
  volume_threshold : option number
}.
(** The object literal [{}]. *)
Definition empty : t :=
  {| metric := VUndefined; operator := VUndefined; threshold := VUndefined;
     time_window := None; direction := None; ratio_threshold := None;
     volume_threshold := None |}.
End TriggerCondition.

Module PoolSignal.
Record t := {
  metric : jsval;
  operator : jsval;
  threshold : jsval;
  time_window : option jsstring
}.
End PoolSignal.

Module SignalConfig.
Inductive Type_ := signal | pool.
Inductive Logic := AND | OR.
Record t := {
  name : option jsstring;
  symbol : option jsstring;
  description : option jsstring;
  _type : option Type_;
  trigger_condition : option TriggerCondition.t;
  logic : option Logic;
  signals : option (list PoolSignal.t)
}.
End SignalConfig.

(** How a config of the JSON reads as such a record: property by
    property, as the cards read them.  A falsy value of a property that
    is only shown reads as an absent one (the cards test those with [||]
    and [&&]).  [None] when the config is not covered: the card throws
    on it ([null] where an object is read, [signals] that is not an
    array), or a property that is only shown has another type than the
    interface declares. *)

Module FromJSON.
Import SignalConfig.

Definition shown_string (v : jsval) : option (option jsstring) :=
  match v with
  | VStr s => Some (Some s)
  | _ => if truthy v then None else Some None
  end.

Definition shown_number (v : jsval) : option (option number) :=
  match v with
  | VNum x => Some (Some x)
  | _ => if truthy v then None else Some None
  end.

Definition condition (v : jsval) : option TriggerCondition.t :=
  metric ← get v (js "metric");
  operator ← get v (js "operator");
  threshold ← get v (js "threshold");
  time_window ← get v (js "time_window") ≫= shown_string;
  direction ← get v (js "direction") ≫= shown_string;
  ratio_threshold ← get v (js "ratio_threshold") ≫= shown_number;
  volume_threshold ← get v (js "volume_threshold") ≫= shown_number;
  Some {| TriggerCondition.metric := metric;
          TriggerCondition.operator := operator;
          TriggerCondition.threshold := threshold;
          TriggerCondition.time_window := time_window;
          TriggerCondition.direction := direction;
          TriggerCondition.ratio_threshold := ratio_threshold;
          TriggerCondition.volume_threshold := volume_threshold |}.

Definition member (v : jsval) : option PoolSignal.t :=
  metric ← get v (js "metric");
  operator ← get v (js "operator");
  threshold ← get v (js "threshold");
  time_window ← get v (js "time_window") ≫= shown_string;
  Some {| PoolSignal.metric := metric; PoolSignal.operator := operator;
          PoolSignal.threshold := threshold;
          PoolSignal.time_window := time_window |}.

Definition config (v : jsval) : option SignalConfig.t :=
  name ← get v (js "name") ≫= shown_string;
  symbol ← get v (js "symbol") ≫= shown_string;
  description ← get v (js "description") ≫= shown_string;
  type ← get v (js "_type");
  trigger ← get v (js "trigger_condition");
  logic ← get v (js "logic") ≫= shown_string;
  signals ← get v (js "signals");
  trigger_condition ← (if truthy trigger then Some <$> condition trigger
                       else Some None);
  members ← (if truthy signals
             then match signals with
                  | VArr elems => Some <$> mapM member elems
                  | _ => None
                  end
             else Some None);
  logic ← match logic with
          | Some (c :: l) =>
              if streq (c :: l) (js "AND") then Some (Some AND)
              else if streq (c :: l) (js "OR") then Some (Some OR)
              else None
          | _ => Some None
          end;
  Some {| SignalConfig.name := name; SignalConfig.symbol := symbol;
          SignalConfig.description := description;
          SignalConfig._type :=
            if is_str type (js "pool") then Some pool
            else if is_str type (js "signal") then Some signal
            else None;
          SignalConfig.trigger_condition := trigger_condition;
          SignalConfig.logic := logic;
          SignalConfig.signals := members |}.

End FromJSON.

(** ** SignalCard and SignalPoolCard: the computed validity *)

Module SignalCard.
Import SignalConfig.

(** [const isValid = hasValidMetric && (isTakerVolume ||
      (cond.operator && cond.threshold !== undefined))], with
    [hasValidMetric = cond.metric && typeof cond.metric === 'string']. *)
Definition isValid (config : SignalConfig.t) : jsval :=
  let cond := default TriggerCondition.empty (trigger_condition config) in
  let metric := TriggerCondition.metric cond in
  let isTakerVolume := VBool (is_str metric (js "taker_volume")) in
  let hasValidMetric := and_then metric (VBool (typeof_string metric)) in
  and_then hasValidMetric
    (or_else isTakerVolume
       (and_then (TriggerCondition.operator cond)
          (VBool (negb (isUndefined (TriggerCondition.threshold cond)))))).

(** [disabled={!isValid}] on Preview, [disabled={!isValid || isCreating}]
    on Create. *)
Definition previewDisabled (config : SignalConfig.t) : bool :=
  negb (truthy (isValid config)).
Definition createDisabled (config : SignalConfig.t) (isCreating : bool)
  : bool :=
  negb (truthy (isValid config)) || isCreating.

End SignalCard.

Module SignalPoolCard.
Import SignalConfig.

(** [signals.length > 0 && signals.every(s => s.metric && s.operator &&
      s.threshold !== undefined)]. *)
Definition isValid (config : SignalConfig.t) : bool :=
  let signals := default [] (signals config) in
  (0 <? Z.of_nat (length signals))
  && forallb (fun s =>
       truthy (and_then (PoolSignal.metric s)
                 (and_then (PoolSignal.operator s)
                    (VBool (negb (isUndefined (PoolSignal.threshold s)))))))
       signals.

Definition createDisabled (config : SignalConfig.t) (isCreating : bool)
  : bool :=
  negb (isValid config) || isCreating.

End SignalPoolCard.

(** The validity the specification defines, in its own words: a
    single-signal config is valid iff it has a metric and (is
    taker-volume, or has both operator and threshold); a pool is valid iff
    it has at least one member signal and every member has metric,
    operator, and threshold.  What it is for a property to be had, or to
    be present, the specification does not say: the definitions take the
    three readings as parameters. *)

Module SpecValidity.
Import SignalConfig.





Definition present (v : jsval) : bool := negb (isUndefined v).






End SpecValidity.

(** ** SignalCardsPanel *)

Module SignalCardsPanel.
Import SignalConfig.

(** An element of the [configs] array: a reference to an object.
    [indexOf] compares references. *)
Record Ref := {
  addr : nat;
  config : SignalConfig.t
}.

Fixpoint indexOf_from (from : Z) (configs : list Ref) (c : Ref) : Z :=
  match configs with
  | [] => -1
  | c' :: configs' =>
      if bool_decide (addr c' = addr c) then from
      else indexOf_from (from + 1) configs' c
  end.

Definition indexOf (configs : list Ref) (c : Ref) : Z :=
  indexOf_from 0 configs c.

(** [`signal-${i}`]. *)
Definition positional (i : Z) : jsstring :=
  js "signal-" ++ (if i <? 0 then js "-" else []) ++ decimal (Z.abs_N i).

(** [config.name || `signal-${i}`]. *)
Definition signalKey (c : SignalConfig.t) (i : Z) : jsstring :=
  match name c with
  | Some (u :: s) => u :: s
  | _ => positional i
  end.

Record State := {
  creatingSignals : gset jsstring;
  createdSignals : gset jsstring
}.

Definition mounted : State :=
  {| creatingSignals := ∅; createdSignals := ∅ |}.

(** How the promise of [onCreate] / [onCreatePool] settles. *)
Inductive Settled :=
| Resolved (success : bool)
| Rejected.

(** [handleCreate] up to its [await]. *)
Definition handleCreate_begin (signalKey : jsstring) (st : State) : State :=
  {| creatingSignals := creatingSignals st ∪ {[signalKey]};
     createdSignals := createdSignals st |}.

(** [handleCreate] after its [await]: the rest of [try], then [finally]. *)
Definition handleCreate_end (signalKey : jsstring) (r : Settled) (st : State)
  : State :=
  {| creatingSignals := creatingSignals st ∖ {[signalKey]};
     createdSignals :=
       match r with
       | Resolved true => createdSignals st ∪ {[signalKey]}
       | _ => createdSignals st
       end |}.

(** [handleCreate(config, isPool)], run to its end with nothing else in
    between; the boolean tells whether the returned promise rejects. *)
Definition handleCreate (onCreate onCreatePool : SignalConfig.t → Settled)
    (configs : list Ref) (c : Ref) (isPool : bool) (st : State)
  : State * bool :=
  let signalKey := signalKey (config c) (indexOf configs c) in
  let st1 := handleCreate_begin signalKey st in
  let r := if isPool then onCreatePool (config c) else onCreate (config c) in
  (handleCreate_end signalKey r st1,
   match r with Rejected => true | Resolved _ => false end).

(** What the panel passes to the card at index [idx]. *)
Record CardProps := {
  isPool : bool;
  isCreating : bool;
  isCreated : bool
}.

(** [config._type === 'pool']. *)
Definition isPoolConfig (c : SignalConfig.t) : bool :=
  match _type c with Some pool => true | _ => false end.

(** The validity computed by the card the panel renders for a config. *)
Definition cardIsValid (c : SignalConfig.t) : bool :=
  if isPoolConfig c then SignalPoolCard.isValid c
  else truthy (SignalCard.isValid c).

(** A config without a name: its key is positional. *)
Definition unnamed (c : SignalConfig.t) : bool :=
  match name c with Some (_ :: _) => false | _ => true end.

(** The two ways the keys of two cards can coincide: the configs carry
    the same name, or one has no name and the other is named like the
    positional key of the first. *)
Definition sameName (c c' : SignalConfig.t) : Prop :=
  unnamed c = false ∧ name c = name c'.

Definition namedLikePosition (c c' : SignalConfig.t) (idx' : nat) : Prop :=
  unnamed c' = true ∧ name c = Some (positional (Z.of_nat idx')).

Definition card (st : State) (idx : nat) (c : Ref) : CardProps :=
  let signalKey := signalKey (config c) (Z.of_nat idx) in
  {| isPool := isPoolConfig (config c);
     isCreating := bool_decide (signalKey ∈ creatingSignals st);
     isCreated := bool_decide (signalKey ∈ createdSignals st) |}.

Definition render (st : State) (configs : list Ref) : list CardProps :=
  imap (card st) configs.

(** The panel with several creations under way: a click starts a run of
    [handleCreate], which ends when its callback settles. *)
Record Panel := {
  state : State;
  pending : list jsstring
}.

Inductive step (configs : list Ref) : Panel → Panel → Prop :=
| step_click p c :
    c ∈ configs →
    step configs p
      {| state := handleCreate_begin
                    (signalKey (config c) (indexOf configs c)) (state p);
         pending := signalKey (config c) (indexOf configs c) :: pending p |}
| step_settled p before k after r :
    pending p = before ++ k :: after →
    step configs p
      {| state := handleCreate_end k r (state p);
         pending := before ++ after |}.

End SignalCardsPanel.

(** ** MobileTradesSection *)

Module Trades.

(** [ArenaTrade] comes from the API module; these are the properties the
    section reads. *)
Record RelatedOrder := {
  order_type : jsstring;
  order_price : option number;
  order_quantity : option number
}.

Record ArenaTrade := {
  trade_id : Z;
  trade_time : jsstring;
  account_name : jsstring;
  symbol : jsstring;
  side : jsstring;
  price : option number;
  quantity : option number;
  notional : option number;
  signal_trigger_id : option Z;
  prompt_template_name : option jsstring;
  related_orders : option (list RelatedOrder)
}.

Inductive Selected := all | account (id : Z).

Inductive SideStyle := emerald | red | blue | gray.

Definition sideStyle (side : jsstring) : SideStyle :=
  if streq side (js "BUY") then emerald
  else if streq side (js "SELL") then red
  else if streq side (js "CLOSE") then blue
  else gray.

Inductive TriggerBadge := SignalPool | Scheduled.

(** A rendered [TradeCard]. *)
Record TradeCard := {
  key : Z * jsstring;
  trade : ArenaTrade;
  showsAccount : bool;
  style : SideStyle;
  triggerBadge : option TriggerBadge;
  templateBadge : option jsstring;
  relatedOrders : list RelatedOrder
}.

Definition present (o : option jsstring) : bool :=
  match o with Some (_ :: _) => true | _ => false end.

Definition nonzero (o : option Z) : bool :=
  match o with Some z => negb (z =? 0) | None => false end.

Definition renderCard (selectedAccount : Selected) (t : ArenaTrade)
  : TradeCard :=
  {| key := (trade_id t, trade_time t);
     trade := t;
     showsAccount := match selectedAccount with all => true | _ => false end;
     style := sideStyle (side t);
     triggerBadge :=
       if nonzero (signal_trigger_id t) then Some SignalPool
       else if present (prompt_template_name t) then Some Scheduled
       else None;
     templateBadge :=
       if present (prompt_template_name t) then prompt_template_name t
       else None;
     relatedOrders := default [] (related_orders t) |}.

Inductive Body :=
| Spinner
| NoTrades
| Cards (cards : list TradeCard).

(** The part of [TradesSection] below the header. *)
Definition TradesSection (trades : list ArenaTrade)
    (selectedAccount : Selected) (loading : bool) : Body :=
  if loading then Spinner
  else if bool_decide (length trades = 0%nat) then NoTrades
  else Cards (map (renderCard selectedAccount) (take 20 trades)).

(** The trades on display, top to bottom. *)
Definition displayed (b : Body) : list ArenaTrade :=
  match b with
  | Cards cards => map trade cards
  | _ => []
  end.

End Trades.

(** ** Integer ids as text

    The ids of accounts, conversations and trades are Numbers that are
    integers.  [id.toString()] prints one and [parseInt(text)] reads one
    back. *)

Module Int.

(** Number.isSafeInteger: the integers every one of which is a Number of
    its own. *)
Definition safe (z : Z) : Prop := - 2 ^ 53 < z < 2 ^ 53.

(** The digits of an integer.  This is what Number::toString prints for
    a safe integer (lemma [toString_safe_integer]); from 10^21 on
    Number::toString prints an exponent instead. *)
Definition toString (z : Z) : jsstring :=
  (if z <? 0 then js "-" else []) ++ decimal (Z.abs_N z).

(** The Number nearest to the integer: the integer itself when it is
    safe. *)
Definition toNumber (z : Z) : number := of_decimal (z <? 0) (Z.abs_N z) 0.

(** The integer a Number is; [None] for an infinity and for a Number
    with a fraction. *)
Definition ofNumber (x : number) : option Z :=
  match x with
  | Infinite _ => None
  | Finite neg m e =>
      let sign := if neg then -1 else 1 in
      if 0 <=? e then Some (sign * (Z.of_N m * 2 ^ e))
      else if Z.of_N m mod 2 ^ (- e) =? 0
           then Some (sign * (Z.of_N m / 2 ^ (- e)))
           else None
  end.

(** The values of the longest run of digits of the radix a string starts
    with. *)
Fixpoint digits (radix : N) (s : jsstring) : list N :=
  match s with
  | c :: s' =>
      match digit_of radix c with
      | Some d => d :: digits radix s'
      | None => []
      end
  | [] => []
  end.

(** [parseInt(text)] with no radix: white space is skipped, then a sign,
    then [0x] or [0X] selects radix 16, then the longest run of digits
    counts and what follows it is ignored.  The result is the Number
    nearest to the integer the digits denote; [None] is NaN (no
    digit). *)
Definition parseInt (text : jsstring) : option number :=
  let s := trimStart text in
  let '(neg, s1) := match s with
                    | 45%N :: s' => (true, s')
                    | 43%N :: s' => (false, s')
                    | _ => (false, s)
                    end in
  let '(radix, s2) := match s1 with
                      | 48%N :: c :: s' =>
                          if ((c =? 120) || (c =? 88))%N then (16%N, s')
                          else (10%N, s1)
                      | _ => (10%N, s1)
                      end in
  match digits radix s2 with
  | [] => None
  | ds =>
      let n := fold_left (fun acc d => (acc * radix + d)%N) ds 0%N in
      Some (of_decimal neg n 0)
  end.

End Int.

(** ** Number.prototype.toFixed

    [x.toFixed(f)] for 0 <= f <= 100: the integer n nearest to x * 10^f
    (the larger one on a tie), printed with f digits after the point; a
    value of 10^21 or more is printed as [toString] prints it. *)

Module Fixed.

(** The absolute value of [Finite _ m e] as a ratio of integers. *)
Definition ratio (m : N) (e : Z) : Z * Z :=
  (if 0 <=? e then Z.of_N m * 2 ^ e else Z.of_N m,
   if 0 <=? e then 1 else 2 ^ (- e)).

(** Whether it is 10^21 or more. *)
Definition large (m : N) (e : Z) : bool :=
  let '(p, q) := ratio m e in 10 ^ 21 * q <=? p.

Definition toFixed (f : nat) (x : number) : jsstring :=
  match x with
  | Infinite _ => toString x
  | Finite neg m e =>
      let '(p, q) := ratio m e in
      let s := if neg && negb (m =? 0)%N then js "-" else [] in
      if large m e then s ++ toString (Finite false m e)
      else
        let n := (2 * p * 10 ^ Z.of_nat f + q) / (2 * q) in
        let m0 := if n =? 0 then js "0" else decimal (Z.to_N n) in
        s ++ match f with
             | O => m0
             | _ =>
                 let m1 := if (length m0 <=? f)%nat
                           then repeat 48%N (f + 1 - length m0) ++ m0
                           else m0 in
                 take (length m1 - f) m1 ++ js "." ++ drop (length m1 - f) m1
             end
  end.

End Fixed.

(** ** AiSignalChatModal: the header *)

Module TradingAccount.
(** [TradingAccount] comes from the API module; these are the properties
    the modal reads. *)
Record t := {
  id : Z;
  name : jsstring;
  model : jsstring;
  account_type : jsstring
}.
End TradingAccount.

Module Conversation.
Record t := {
  id : Z;
  title : jsstring;
  created_at : jsstring;
  updated_at : jsstring
}.
End Conversation.

Module Modal.
Import Chat.

(** [accounts.filter(acc => acc.account_type === 'AI')]. *)
Definition aiAccounts (accounts : list TradingAccount.t)
  : list TradingAccount.t :=
  filter (fun acc => TradingAccount.account_type acc = js "AI") accounts.

(** [!!selectedAccountId]. *)
Definition hasAccount (s : State) : bool :=
  match selectedAccountId s with
  | Some account => negb (account =? 0)
  | None => false
  end.

(** The effect on [[open, accounts]]: when the modal is open the
    conversations are loaded and, with no account selected, the first AI
    account is. *)
Definition openEffect (open : bool) (accounts : list TradingAccount.t)
    (s : State) : State :=
  if open then
    let s1 := perform LoadConversations s in
    match aiAccounts accounts with
    | first :: _ =>
        if hasAccount s then s1
        else setSelectedAccountId (Some (TradingAccount.id first)) s1
    | [] => s1
    end
  else s.

(** The account select: one item per AI account, its value
    [acc.id.toString()]; choosing an item calls
    [setSelectedAccountId(parseInt(val))].  NaN is stored as [None], as
    [null] is: the component only tests the id for truthiness and sends
    it in the body of the request, where both print as [null].  The
    result is [None] when [parseInt] gives an infinity, for which the
    state of the model has no place. *)
Definition accountItems (accounts : list TradingAccount.t) : list jsstring :=
  map (fun acc => toString (Int.toNumber (TradingAccount.id acc)))
    (aiAccounts accounts).

Definition onAccountChange (val : jsstring) (s : State) : option State :=
  match Int.parseInt val with
  | None => Some (setSelectedAccountId None s)
  | Some x => (fun z => setSelectedAccountId (Some z) s) <$> Int.ofNumber x
  end.

(** The conversation select: the item [new], then one item per
    conversation, its value [conv.id.toString()].  Choosing [new] starts
    a new conversation, any other value calls
    [setCurrentConversationId(parseInt(val))]; [None] when [parseInt]
    gives NaN. *)
Definition conversationItems (conversations : list Conversation.t)
  : list jsstring :=
  js "new" :: map (fun conv => toString (Int.toNumber (Conversation.id conv)))
                conversations.

Definition onConversationChange (val : jsstring) (s : State) : option State :=
  if streq val (js "new") then Some (startNewConversation s)
  else (fun x => setCurrentConversationId (VNum x) s) <$> Int.parseInt val.

(** *** loadMessages, from the request on *)

Inductive MessagesResponse :=
| MessagesRejected            (* the fetch or [response.json()] rejects,
                                 or the body is [null] *)
| MessagesNotOk
| MessagesBody (messages : option (list Message.t)).

(** A body without [messages] empties the list ([data.messages || []])
    and then throws at [data.messages.forEach]. *)
Definition loadMessagesFrom (resp : MessagesResponse) (s : State) : State :=
  match resp with
  | MessagesRejected => perform ConsoleError s
  | MessagesNotOk => s
  | MessagesBody (Some msgs) => loadMessages msgs s
  | MessagesBody None => perform ConsoleError (setMessages (fun _ => Some []) s)
  end.

End Modal.

(** ** getMetricLabel and getOperatorLabel

    [labels[key] || key] on an object literal: an own property first,
    then what the literal inherits from [Object.prototype], which is not
    a string. *)

Module Labels.

Definition objectPrototype : list jsstring :=
  map js ["constructor"; "hasOwnProperty"; "isPrototypeOf";
          "propertyIsEnumerable"; "toLocaleString"; "toString"; "valueOf";
          "__proto__"; "__defineGetter__"; "__defineSetter__";
          "__lookupGetter__"; "__lookupSetter__"]%string.

Inductive Label :=
| Text (s : jsstring)
| Inherited (name : jsstring).

Fixpoint own (key : jsstring) (labels : list (jsstring * jsstring))
  : option jsstring :=
  match labels with
  | [] => None
  | (k, v) :: labels' => if streq key k then Some v else own key labels'
  end.

Definition label_or_key (labels : list (jsstring * jsstring)) (key : jsstring)
  : Label :=
  match own key labels with
  | Some (c :: v) => Text (c :: v)
  | Some [] => Text key
  | None =>
      if bool_decide (key ∈ objectPrototype) then Inherited key else Text key
  end.

Definition metricLabels : list (jsstring * jsstring) :=
  [(js "oi", js "Open Interest");
   (js "oi_delta_percent", js "OI Delta %");
   (js "cvd", js "CVD");
   (js "funding_rate", js "Funding Rate");
   (js "depth_ratio", js "Depth Ratio");
   (js "order_imbalance", js "Order Imbalance");
   (js "taker_buy_ratio", js "Taker Buy Ratio");
   (js "taker_volume", js "Taker Volume")].

Definition operatorLabels : list (jsstring * jsstring) :=
  [(js "greater_than", js ">");
   (js "less_than", js "<");
   (js "greater_than_or_equal", js ">=");
   (js "less_than_or_equal", js "<=");
   (js "abs_greater_than", js "abs >")].

Definition getMetricLabel (metric : jsstring) : Label :=
  label_or_key metricLabels metric.

Definition getOperatorLabel (op : jsstring) : Label :=
  label_or_key operatorLabels op.

End Labels.

(** ** ChatArea *)

Module ChatArea.
Import Chat Message.

(** What stands after the name of the sender:
    [msg.isStreaming && msg.statusText && (...)].  A status text that is
    the number zero is printed as it is. *)
Inductive Status :=
| NoStatus
| StatusText (v : jsval)
| StrayNumber (x : number).

Inductive Body :=
| Markdown (content : jsval)
| Generating
| NoBody.

Record Bubble := {
  key : Z;
  fromUser : bool;
  status : Status;
  log : option (list AnalysisEntry);
  body : Body
}.

(** [analysisLog.slice(-5)]. *)
Definition lastFive {A} (l : list A) : list A := drop (length l - 5) l.

Definition bubble (msg : Message.t) : Bubble :=
  {| key := Message.id msg;
     fromUser := match role msg with user => true | assistant => false end;
     status :=
       if streaming msg then
         if truthy (statusText msg) then StatusText (statusText msg)
         else match statusText msg with
              | VNum x => StrayNumber x
              | _ => NoStatus
              end
       else NoStatus;
     log :=
       if streaming msg then
         match analysisLog msg with
         | Some (e :: l) => Some (lastFive (e :: l))
         | _ => None
         end
       else None;
     body :=
       if truthy (content msg) then Markdown (content msg)
       else if streaming msg then Generating
       else NoBody |}.

Record View := {
  placeholder : bool;
  bubbles : list Bubble;
  textareaDisabled : bool;
  sendDisabled : bool;
  sendLabel : jsstring
}.

Definition render (s : State) : View :=
  {| placeholder := bool_decide (length (messages s) = 0%nat);
     bubbles := map bubble (messages s);
     textareaDisabled := loading s || negb (Modal.hasAccount s);
     sendDisabled :=
       loading s || bool_decide (trim (userInput s) = [])
       || negb (Modal.hasAccount s);
     sendLabel := if loading s then js "Sending..." else js "Send" |}.

(** What the user does in the input area.  A disabled control takes no
    event. *)
Inductive Action :=
| Change (value : jsstring)
| EnterKey (shiftKey : bool)
| ClickSend.

Definition enabled (act : Action) (s : State) : bool :=
  match act with
  | Change _ | EnterKey _ => negb (textareaDisabled (render s))
  | ClickSend => negb (sendDisabled (render s))
  end.

(** Whether the handler of the action calls [sendMessage]. *)
Definition sends (act : Action) : bool :=
  match act with
  | EnterKey false | ClickSend => true
  | _ => false
  end.

(** The handlers; [now] and [resp] are what the clock and the network
    answer if a message goes out. *)
Definition handle (now : Z) (resp : Response) (act : Action) (s : State)
  : State :=
  match act with
  | Change value => setUserInput value s
  | EnterKey false | ClickSend => sendMessage now resp s
  | EnterKey true => s
  end.

End ChatArea.

(** ** The cards: the Create button *)

Module CardButtons.
Import SignalConfig SignalCardsPanel.

Inductive CreateButton :=
| Created
| Create (disabled : bool) (label : jsstring).

Definition signalCreate (config : SignalConfig.t) (isCreating isCreated : bool)
  : CreateButton :=
  if isCreated then Created
  else Create (SignalCard.createDisabled config isCreating)
              (if isCreating then js "Creating..." else js "Create Signal").

Definition poolCreate (config : SignalConfig.t) (isCreating isCreated : bool)
  : CreateButton :=
  if isCreated then Created
  else Create (SignalPoolCard.createDisabled config isCreating)
              (if isCreating then js "Creating..."
               else js "Create Signal Pool").

(** The Create button of the card the panel renders at [idx]. *)
Definition createButton (st : State) (idx : nat) (c : Ref) : CreateButton :=
  let p := card st idx c in
  if isPool p then poolCreate (config c) (isCreating p) (isCreated p)
  else signalCreate (config c) (isCreating p) (isCreated p).

End CardButtons.

(** ** SignalCard: what the card shows *)

Module SignalCardView.
Import SignalConfig.

(** [config.trigger_condition || {}]. *)
Definition cond (config : SignalConfig.t) : TriggerCondition.t :=
  default TriggerCondition.empty (trigger_condition config).

(** [cond.metric && typeof cond.metric === 'string'], as a condition. *)
Definition hasValidMetric (config : SignalConfig.t) : bool :=
  let metric := TriggerCondition.metric (cond config) in
  truthy (and_then metric (VBool (typeof_string metric))).

Definition isTakerVolume (config : SignalConfig.t) : bool :=
  is_str (TriggerCondition.metric (cond config)) (js "taker_volume").

(** [getOperatorLabel(cond.operator || '')] for the operator the JSON
    has.  The key of [labels[op]] is the value converted to a string;
    the label is shown when the table has one, the member of
    [Object.prototype] when the key names one, and the value itself
    otherwise.  [None] when the conversion throws. *)
Inductive OperatorShown :=
| OperatorLabel (label : Labels.Label)
| OperatorValue (v : jsval).

Definition operatorShown (operator : jsval) : option OperatorShown :=
  let op := or_else operator (VStr []) in
  key ← ToString op;
  Some match Labels.own key Labels.operatorLabels with
       | Some (c :: label) => OperatorLabel (Labels.Text (c :: label))
       | Some [] => OperatorValue op
       | None =>
           if bool_decide (key ∈ Labels.objectPrototype)
           then OperatorLabel (Labels.Inherited key)
           else OperatorValue op
       end.

(** [text || 'fallback'] and [x || fallback]. *)
Definition or_text (o : option jsstring) (fallback : jsstring) : jsstring :=
  match o with
  | Some (c :: s) => c :: s
  | _ => fallback
  end.

Definition or_number (o : option number) (fallback : number) : number :=
  match o with
  | Some x => if isZero x then fallback else x
  | None => fallback
  end.

Inductive Badge :=
| MetricBadge (label : Labels.Label)
| InvalidConfig.

Inductive Details :=
| MissingMetric
| TakerVolume (direction : jsstring) (ratio volume : number)
| Condition (metric : Labels.Label) (operator : option OperatorShown)
            (threshold : jsval).

Record View := {
  invalidBorder : bool;
  title : jsstring;
  symbol : jsstring;
  badge : Badge;
  description : option jsstring;
  details : Details;
  timeWindow : jsstring;
  previewDisabled : bool;
  create : CardButtons.CreateButton
}.

Definition render (config : SignalConfig.t) (isCreating isCreated : bool)
  : View :=
  let c := cond config in
  let metric := match TriggerCondition.metric c with
                | VStr s => s
                | _ => []
                end in
  {| invalidBorder := negb (truthy (SignalCard.isValid config));
     title := or_text (name config) (js "Unnamed Signal");
     symbol := or_text (SignalConfig.symbol config) (js "No symbol");
     badge :=
       if hasValidMetric config
       then MetricBadge (Labels.getMetricLabel metric)
       else InvalidConfig;
     description :=
       match SignalConfig.description config with
       | Some (x :: d) => Some (x :: d)
       | _ => None
       end;
     details :=
       if negb (hasValidMetric config) then MissingMetric
       else if isTakerVolume config then
         TakerVolume (or_text (TriggerCondition.direction c) (js "any"))
           (or_number (TriggerCondition.ratio_threshold c)
              (of_decimal false 15 (-1)))
           (or_number (TriggerCondition.volume_threshold c)
              (of_decimal false 0 0))
       else
         Condition (Labels.getMetricLabel metric)
           (operatorShown (TriggerCondition.operator c))
           (TriggerCondition.threshold c);
     timeWindow := or_text (TriggerCondition.time_window c) (js "5m");
     previewDisabled := SignalCard.previewDisabled config;
     create := CardButtons.signalCreate config isCreating isCreated |}.

End SignalCardView.

(** ** MobileTradesSection: what a card prints *)

Module TradeText.
Import Trades.

(** [key={`${trade.trade_id}-${trade.trade_time}`}]. *)
Definition keyString (t : ArenaTrade) : jsstring :=
  Int.toString (trade_id t) ++ js "-" ++ trade_time t.

(** A text that is a number in fixed notation with [f] digits after the
    point: an optional minus sign, one digit or more, the point, [f]
    digits. *)
Definition decimals (f : nat) (text : jsstring) : Prop :=
  ∃ sign int frac,
    text = sign ++ int ++ js "." ++ frac
    ∧ (sign = [] ∨ sign = js "-")
    ∧ int ≠ [] ∧ length frac = f
    ∧ Forall (fun c => isDigit c = true) (int ++ frac).

(** [x?.toFixed(f)], printed: nothing for a missing number. *)
Definition fixed (f : nat) (x : option number) : jsstring :=
  default [] (Fixed.toFixed f <$> x).

Definition priceText (t : ArenaTrade) : jsstring :=
  js "@ $" ++ fixed 2 (price t).

Definition quantityText (t : ArenaTrade) : jsstring := fixed 4 (quantity t).

Definition notionalText (t : ArenaTrade) : jsstring :=
  js "$" ++ fixed 2 (notional t).

End TradeText.

(** ** Vocabulary for the properties of the stream *)

Module Stream.
Import Chat Message.

(** The event types [handleSSEEvent] knows. *)
Definition knownEvents : list jsstring :=
  map js ["status"; "reasoning"; "content"; "signal_config"; "done";
          "error"; "tool_call"; "tool_result"]%string.

(** The decoder is not in the middle of a sequence that could still end
    in a code point below U+0080. *)
Definition started (d : TextDecoder.decoder) : Prop :=
  (TextDecoder.upper_boundary d <= 191)%N
  ∧ (TextDecoder.bytes_needed d = 0%N
     ∨ (1 <= TextDecoder.code_point d)%N
     ∨ (144 <= TextDecoder.lower_boundary d)%N).

(** The effects of reading a stream are error toasts. *)
Definition reports (s s' : State) : Prop :=
  ∃ toasts, effects s' = effects s ++ map ToastError toasts.

(** The analysis log of every message keeps its entries, in order. *)
Definition logOf (m : Message.t) : list AnalysisEntry :=
  default [] (analysisLog m).

Definition logs_extend (l l' : list Message.t) : Prop :=
  Forall2 (fun m m' => ∃ more, logOf m' = logOf m ++ more) l l'.

(** The kind of entry an event adds to the analysis log. *)
Definition entryType (eventType : jsstring) : option EntryType :=
  if streq eventType (js "reasoning") then Some reasoning
  else if streq eventType (js "tool_call") then Some tool_call
  else if streq eventType (js "tool_result") then Some tool_result
  else None.

(** What the first effect of a run of [sendMessage] is: the request. *)
Definition request (s : State) : Effect :=
  PostChatStream (default 0 (selectedAccountId s)) (trim (userInput s))
                 (currentConversationId s).

(** The event type an event line selects. *)
Definition selects (line : jsstring) : option jsstring :=
  if startsWith line (js "event: ") then Some (trim (slice_from 7 line))
  else None.

(** Lines none of which selects [signal_config] or [done], the two event
    types whose handlers pass [signalConfigs] to [onUpdate]; they may
    hold records of every other type, data lines that do not parse, and
    anything else. *)
Definition keeps_configs (lines : list jsstring) : Prop :=
  Forall (fun line => selects line ≠ Some (js "signal_config")
                      ∧ selects line ≠ Some (js "done")) lines.

(** A well-formed [signal_config] record of a stream: the text of its
    data line, the config that text carries, and the lines of the stream
    that follow the record up to the next one. *)
Record ConfigRecord := {
  payload : jsstring;
  carried : jsval;
  followedBy : list jsstring
}.

Definition wellFormed (r : ConfigRecord) : Prop :=
  ∃ data, JSON.parse (payload r) = Some data
          ∧ get data (js "config") = Some (carried r)
          ∧ truthy (carried r) = true.

Definition linesOf (r : ConfigRecord) : list jsstring :=
  record_lines (js "signal_config") (payload r) ++ followedBy r.

End Stream.

(** ** Sample data for the worked cases *)

Module Sample.
Import Chat.

(** Wire text written with apostrophes where the stream has double
    quotes. *)
Definition quoted (s : string) : list byte :=
  map (fun b => match b with x27 => x22 | _ => b end) (list_byte_of_string s).

(** One record of the stream: the event line, the data line, a blank
    line. *)
Definition record (event data : string) : list byte :=
  quoted ("event: " ++ event) ++ [x0a]
  ++ quoted ("data: " ++ data) ++ [x0a; x0a].

(** The same for a text that is already decoded. *)
Definition text (s : string) : jsstring :=
  map (fun c => if (c =? 39)%N then 34%N else c) (js s).

Definition cfg : jsval :=
  VObj [(js "name", VStr (js "BTC OI")); (js "symbol", VStr (js "BTC"))].

Definition stream_hello : list byte :=
  record "status" "{'message': 'A'}"
  ++ record "content" "{'content': 'hello'}"
  ++ record "done"
       "{'content': 'hello', 'signal_configs': [{'name': 'BTC OI', 'symbol': 'BTC'}], 'conversation_id': 7, 'message_id': 42}".

Definition cfg_a : jsval := VObj [(js "name", VStr (js "a"))].
Definition cfg_b : jsval := VObj [(js "name", VStr (js "b"))].

Definition stream_two_configs : list byte :=
  record "signal_config" "{'config': {'name': 'a'}}"
  ++ record "signal_config" "{'config': {'name': 'b'}}".

Definition hello_lines : list jsstring :=
  record_lines (js "status") (text "{'message': 'A'}")
  ++ record_lines (js "content") (text "{'content': 'hello'}")
  ++ record_lines (js "done")
       (text "{'content': 'hello', 'signal_configs': [{'name': 'BTC OI', 'symbol': 'BTC'}], 'conversation_id': 7, 'message_id': 42}").

(** Two [signal_config] records with other records around them. *)
Definition stream_configs_among_others : list byte :=
  record "status" "{'message': 'Analysing'}"
  ++ record "signal_config" "{'config': {'name': 'a'}}"
  ++ record "tool_call" "{'name': 'get_oi', 'arguments': {}}"
  ++ record "signal_config" "{'config': {'name': 'b'}}"
  ++ record "content" "{'content': 'Two signals'}"
  ++ record "done"
       "{'content': 'Two signals', 'signal_configs': [{'name': 'a'}, {'name': 'b'}], 'conversation_id': 7, 'message_id': 42}".

Definition configs_among_others : list Stream.ConfigRecord :=
  [ {| Stream.payload := text "{'config': {'name': 'a'}}";
       Stream.carried := cfg_a;
       Stream.followedBy :=
         record_lines (js "tool_call")
           (text "{'name': 'get_oi', 'arguments': {}}") |};
    {| Stream.payload := text "{'config': {'name': 'b'}}";
       Stream.carried := cfg_b;
       Stream.followedBy :=
         record_lines (js "content") (text "{'content': 'Two signals'}") |} ].

Definition done_lines : list jsstring :=
  record_lines (js "done")
    (text "{'content': 'Two signals', 'signal_configs': [{'name': 'a'}, {'name': 'b'}], 'conversation_id': 7, 'message_id': 42}").

(** The modal with an account picked and a question typed. *)
Definition ready : State :=
  setUserInput (js "OI signal for BTC")
    (setSelectedAccountId (Some 3) initial).

(** Configs with a name and a symbol only; two different ones that the
    assistant gave the same name, two without a name. *)
Definition named (nm sym : string) : SignalConfig.t :=
  {| SignalConfig.name := Some (js nm); SignalConfig.symbol := Some (js sym);
     SignalConfig.description := None; SignalConfig._type := None;
     SignalConfig.trigger_condition := None; SignalConfig.logic := None;
     SignalConfig.signals := None |}.

Definition same_names : list SignalCardsPanel.Ref :=
  [ {| SignalCardsPanel.addr := 0; SignalCardsPanel.config := named "OI spike" "BTC" |};
    {| SignalCardsPanel.addr := 1; SignalCardsPanel.config := named "OI spike" "ETH" |} ].

Definition unnamed_pair : list SignalCardsPanel.Ref :=
  [ {| SignalCardsPanel.addr := 0; SignalCardsPanel.config := named "" "BTC" |};
    {| SignalCardsPanel.addr := 1; SignalCardsPanel.config := named "" "ETH" |} ].

(** A config the assistant named like a positional key, before a config
    without a name. *)
Definition positional_clash : list SignalCardsPanel.Ref :=
  [ {| SignalCardsPanel.addr := 0;
       SignalCardsPanel.config := named "signal-1" "BTC" |};
    {| SignalCardsPanel.addr := 1; SignalCardsPanel.config := named "" "ETH" |} ].

(** A taker-volume config without operator and threshold, and a config
    whose metric is the empty string. *)
Definition condition (metric : jsval) (operator threshold : jsval)
  : TriggerCondition.t :=
  {| TriggerCondition.metric := metric;
     TriggerCondition.operator := operator;
     TriggerCondition.threshold := threshold;
     TriggerCondition.time_window := None;
     TriggerCondition.direction := None;
     TriggerCondition.ratio_threshold := None;
     TriggerCondition.volume_threshold := None |}.

Definition with_condition (c : TriggerCondition.t) : SignalConfig.t :=
  {| SignalConfig.name := Some (js "sample");
     SignalConfig.symbol := Some (js "BTC");
     SignalConfig.description := None; SignalConfig._type := None;
     SignalConfig.trigger_condition := Some c; SignalConfig.logic := None;
     SignalConfig.signals := None |}.

Definition taker_volume : SignalConfig.t :=
  with_condition (condition (VStr (js "taker_volume")) VUndefined VUndefined).

Definition empty_metric : SignalConfig.t :=
  with_condition (condition (VStr []) (VStr (js "greater_than"))
                    (VNum (of_decimal false 1 0))).

Definition zero_threshold : SignalConfig.t :=
  with_condition (condition (VStr (js "oi_delta_percent"))
                    (VStr (js "greater_than"))
                    (VNum (of_decimal false 0 0))).

(** A threshold that is [null], as a server that has none sends it. *)
Definition null_threshold : SignalConfig.t :=
  with_condition (condition (VStr (js "oi_delta_percent"))
                    (VStr (js "greater_than")) VNull).

(** A condition whose metric is the number 5: as the trigger condition of
    a single signal, and as the only member of a pool. *)
Definition numeric_metric : SignalConfig.t :=
  with_condition (condition (VNum (of_decimal false 5 0))
                    (VStr (js "greater_than"))
                    (VNum (of_decimal false 1 0))).

Definition pool_of (members : list PoolSignal.t) : SignalConfig.t :=
  {| SignalConfig.name := Some (js "sample");
     SignalConfig.symbol := Some (js "BTC");
     SignalConfig.description := None;
     SignalConfig._type := Some SignalConfig.pool;
     SignalConfig.trigger_condition := None;
     SignalConfig.logic := None;
     SignalConfig.signals := Some members |}.

Definition numeric_metric_pool : SignalConfig.t :=
  pool_of [ {| PoolSignal.metric := VNum (of_decimal false 5 0);
               PoolSignal.operator := VStr (js "greater_than");
               PoolSignal.threshold := VNum (of_decimal false 1 0);
               PoolSignal.time_window := None |} ].

Definition null_threshold_pool : SignalConfig.t :=
  pool_of [ {| PoolSignal.metric := VStr (js "cvd");
               PoolSignal.operator := VStr (js "less_than");
               PoolSignal.threshold := VNull;
               PoolSignal.time_window := None |} ].

(** Two accounts, one of them of type AI, and two conversations. *)
Definition accounts : list TradingAccount.t :=
  [ {| TradingAccount.id := 1; TradingAccount.name := js "manual";
       TradingAccount.model := [];
       TradingAccount.account_type := js "PAPER" |};
    {| TradingAccount.id := 2; TradingAccount.name := js "gpt";
       TradingAccount.model := js "gpt-5";
       TradingAccount.account_type := js "AI" |} ].

Definition conversations : list Conversation.t :=
  [ {| Conversation.id := 7; Conversation.title := js "BTC";
       Conversation.created_at := []; Conversation.updated_at := [] |};
    {| Conversation.id := 12; Conversation.title := js "ETH";
       Conversation.created_at := []; Conversation.updated_at := [] |} ].

(** The session right after that question was sent at time 1000. *)
Definition sending : Session :=
  {| ui := snd (begin 1000 ready); inflight := [fst (begin 1000 ready)] |}.

End Sample.

(** * Properties *)

(** ** Strings and lines *)

Section Lines.

Lemma split_lf_nonempty (s : jsstring) : split_lf s ≠ [].
Proof.
  destruct s as [|c s]; simpl; [done|].
  destruct (c =? 10)%N; [done|]. by destruct (split_lf s).
Qed.

Lemma removelast_cons {A} (x : A) (l : list A) :
  l ≠ [] → removelast (x :: l) = x :: removelast l.
Proof. by destruct l. Qed.

Lemma last_cons_nonempty {A} (x : A) (l : list A) :
  l ≠ [] → last (x :: l) = last l.
Proof. by destruct l. Qed.

(** Splitting a text that arrives in two parts: the complete lines of
    the first part, then the split of what the first part left over
    followed by the second part. *)
Lemma split_lf_app (x y : jsstring) :
  split_lf (x ++ y)
  = removelast (split_lf x) ++ split_lf (default [] (last (split_lf x)) ++ y).
Proof.
  induction x as [|c x IH]; [done|].
  pose proof (split_lf_nonempty x) as Hx.
  simpl. destruct (c =? 10)%N eqn:Hc.
  - rewrite IH, removelast_cons, last_cons_nonempty by done. done.
  - rewrite IH. destruct (split_lf x) as [|p [|q ps]]; [done| |].
    + simpl. rewrite Hc. done.
    + done.
Qed.

Lemma pop_split_lf_app (x y : jsstring) :
  pop (split_lf (x ++ y))
  = ((pop (split_lf x)).1
       ++ (pop (split_lf (default [] (pop (split_lf x)).2 ++ y))).1,
     (pop (split_lf (default [] (pop (split_lf x)).2 ++ y))).2).
Proof.
  unfold pop. simpl. rewrite split_lf_app.
  set (z := default [] (last (split_lf x)) ++ y).
  pose proof (split_lf_nonempty z) as Hz.
  destruct (split_lf z) as [|p ps] eqn:E; [done|].
  f_equal.
  - rewrite removelast_app by done. done.
  - rewrite last_app. by destruct (last (p :: ps)) eqn:El;
      [|apply last_None in El].
Qed.

(** A piece that follows the last line feed has no line feed. *)
Lemma split_lf_last (s piece : jsstring) :
  last (split_lf s) = Some piece → split_lf piece = [piece].
Proof.
  revert piece. induction s as [|c s IH]; intros piece.
  - simpl. by intros [= <-].
  - pose proof (split_lf_nonempty s) as Hs.
    simpl. destruct (c =? 10)%N eqn:Hc.
    + rewrite last_cons_nonempty by done. apply IH.
    + destruct (split_lf s) as [|p [|q ps]] eqn:E; [done| |].
      * simpl. intros [= <-]. simpl. rewrite Hc.
        by rewrite (IH p eq_refl).
      * intros H. apply IH. exact H.
Qed.

End Lines.

(** ** The decoder reads byte by byte *)

Lemma decode_app (d : TextDecoder.decoder) (a b : list byte) :
  TextDecoder.decode d (a ++ b)
  = let '(d1, out1) := TextDecoder.decode d a in
    let '(d2, out2) := TextDecoder.decode d1 b in
    (d2, out1 ++ out2).
Proof.
  revert d. induction a as [|x a IH]; intros d; simpl.
  - by destruct (TextDecoder.decode d b).
  - destruct (TextDecoder.decode_byte d x) as [d1 o1].
    rewrite IH. destruct (TextDecoder.decode d1 a) as [d2 o2].
    destruct (TextDecoder.decode d2 b) as [d3 o3].
    by rewrite app_assoc.
Qed.

(** ** The decode loop *)

Section DecodeLoop.
Import Chat.

Lemma with_input_id (l : Locals) : with_input (decoder l) (buffer l) l = l.
Proof. by destruct l. Qed.

Lemma with_input_twice d b d' b' l :
  with_input d b (with_input d' b' l) = with_input d b l.
Proof. done. Qed.

(** [handleSSEEvent] reaches the locals through [onUpdate] only, and
    [onUpdate] touches neither the decoder nor the buffer. *)
Lemma handleSSEEvent_input ty data msgId d b (st : Locals * State) :
  handleSSEEvent ty data msgId onUpdate (lift_input d b st)
  = lift_input d b <$> handleSSEEvent ty data msgId onUpdate st.
Proof.
  destruct st as [l s]. unfold handleSSEEvent, lift_input. simpl.
  repeat (case_match; try done);
    repeat (match goal with
            | |- context [get ?v ?k] => destruct (get v k); simpl; try done
            end);
    repeat (case_match; try done).
Qed.

Lemma process_line_input msgId d b (st : Locals * State) line :
  process_line msgId (lift_input d b st) line
  = lift_input d b (process_line msgId st line).
Proof.
  unfold process_line.
  destruct (startsWith line (js "event: ")); [by destruct st|].
  destruct (startsWith line (js "data: ")); [|done].
  destruct (JSON.parse (slice_from 6 line)) as [data|]; [|by destruct st].
  change (currentEventType (lift_input d b st).1)
    with (currentEventType st.1).
  rewrite handleSSEEvent_input.
  by destruct (handleSSEEvent _ data msgId onUpdate st) as [[l' s']|];
    destruct st.
Qed.

Lemma process_lines_input msgId d b lines (st : Locals * State) :
  fold_left (process_line msgId) lines (lift_input d b st)
  = lift_input d b (fold_left (process_line msgId) lines st).
Proof.
  revert st. induction lines as [|line lines IH]; intros st; [done|].
  simpl. by rewrite process_line_input, IH.
Qed.

Lemma process_chunk_unfold msgId (st : Locals * State) value :
  process_chunk msgId st value
  = let out := TextDecoder.decode (decoder st.1) value in
    let p := pop (split_lf (buffer st.1 ++ out.2)) in
    lift_input out.1 (default [] p.2)
      (fold_left (process_line msgId) p.1 st).
Proof.
  unfold process_chunk.
  destruct (TextDecoder.decode (decoder st.1) value) as [d text].
  cbn [fst snd]. destruct (pop _) as [lines lastLine]. cbn [fst snd].
  rewrite <- process_lines_input. by destruct st.
Qed.

(** The lines leave the decoder and the buffer alone. *)
Lemma process_lines_decoder msgId lines (st : Locals * State) :
  decoder (fold_left (process_line msgId) lines st).1 = decoder st.1
  ∧ buffer (fold_left (process_line msgId) lines st).1 = buffer st.1.
Proof.
  pose proof (process_lines_input msgId (decoder st.1) (buffer st.1)
                lines st) as H.
  replace (lift_input (decoder st.1) (buffer st.1) st) with st in H
    by (unfold lift_input; rewrite with_input_id; by destruct st).
  rewrite H. done.
Qed.

(** Two chunks are read as their concatenation is. *)
Lemma process_chunk_app msgId (st : Locals * State) (a b : list byte) :
  process_chunk msgId st (a ++ b)
  = process_chunk msgId (process_chunk msgId st a) b.
Proof.
  rewrite !process_chunk_unfold. cbn zeta.
  rewrite decode_app.
  destruct (TextDecoder.decode (decoder st.1) a) as [d1 t1].
  cbn [fst snd].
  set (p1 := pop (split_lf (buffer st.1 ++ t1))).
  set (st1 := fold_left (process_line msgId) p1.1 st).
  change (decoder (lift_input d1 (default [] p1.2) st1).1) with d1.
  change (buffer (lift_input d1 (default [] p1.2) st1).1)
    with (default [] p1.2).
  destruct (TextDecoder.decode d1 b) as [d2 t2]. cbn [fst snd].
  rewrite (app_assoc (buffer st.1) t1 t2), pop_split_lf_app.
  fold p1. cbn [fst snd].
  set (p2 := pop (split_lf (default [] p1.2 ++ t2))).
  rewrite fold_left_app. fold st1.
  rewrite process_lines_input. done.
Qed.

Lemma process_chunk_buffer msgId (st : Locals * State) value :
  split_lf (buffer (process_chunk msgId st value).1)
  = [buffer (process_chunk msgId st value).1].
Proof.
  rewrite process_chunk_unfold. cbn zeta. cbn [lift_input fst snd].
  unfold pop. cbn [fst snd with_input buffer].
  destruct (last _) as [piece|] eqn:E; [|done].
  by apply split_lf_last in E.
Qed.

Lemma process_chunk_nil msgId (st : Locals * State) :
  split_lf (buffer st.1) = [buffer st.1] → process_chunk msgId st [] = st.
Proof.
  intros H. rewrite process_chunk_unfold. cbn zeta. simpl.
  rewrite app_nil_r, H. simpl.
  unfold lift_input. rewrite with_input_id. by destruct st.
Qed.

(** The whole loop is one reading of all the bytes. *)
Lemma read_loop_concat msgId chunks (st : Locals * State) :
  split_lf (buffer st.1) = [buffer st.1] →
  read_loop msgId chunks st = process_chunk msgId st (concat chunks).
Proof.
  revert st. induction chunks as [|c chunks IH]; intros st H; simpl.
  - by rewrite process_chunk_nil.
  - unfold read_loop in *. rewrite IH by apply process_chunk_buffer.
    by rewrite process_chunk_app.
Qed.

End DecodeLoop.

Section Chunking.
Import Chat.

(** C1.  However the bytes of the response are cut into chunks, cuts
    inside a line or inside a multi-byte character included, the decode
    loop of [sendMessage] ends in the state it reaches when all the bytes
    come as one chunk: the same locals (final content, signal configs,
    conversation id, message id) and the same component state, and so the
    same result of [sendMessage], whether the stream then ends or
    fails. *)
Theorem chunking_invariant (chunks : list (list byte)) :
  (∀ msgId s,
     read_loop msgId chunks (locals0, s)
     = read_loop msgId [concat chunks] (locals0, s))
  ∧ (∀ now ending s,
       sendMessage now (ResponseBody chunks ending) s
       = sendMessage now (ResponseBody [concat chunks] ending) s).
Proof.
  assert (∀ msgId s,
            read_loop msgId chunks (locals0, s)
            = read_loop msgId [concat chunks] (locals0, s)) as Hloop.
  { intros msgId s. rewrite !read_loop_concat by done.
    simpl. by rewrite app_nil_r. }
  split; [exact Hloop|].
  intros now ending s. unfold sendMessage.
  destruct (canSend s); [|done].
  destruct (begin now s) as [a s1] eqn:Hb.
  assert (locals a = locals0) as Hl.
  { unfold begin in Hb. by injection Hb as <- _. }
  unfold attempt, readAll. by rewrite Hl, Hloop.
Qed.

End Chunking.

Section Malformed.
Import Chat.

Lemma startsWith_data_not_event (line : jsstring) :
  startsWith line (js "data: ") = true →
  startsWith line (js "event: ") = false.
Proof.
  change (js "data: ") with [100; 97; 116; 97; 58; 32]%N.
  change (js "event: ") with [101; 118; 101; 110; 116; 58; 32]%N.
  destruct line as [|c line]; [done|]. cbn [startsWith].
  destruct (N.eqb_spec 100 c) as [<-|]; done.
Qed.

(** C5.  A data line that is not valid JSON, under any pending event
    type: [JSON.parse] throws inside the [try], the empty [catch] takes
    it, and the record is skipped.  The component state and every
    accumulator are as before; only the pending event type is reset, and
    the loop goes on with the lines that follow. *)
Theorem malformed_data_skipped (msgId : Z) (l : Locals) (s : State)
    (line : jsstring) :
  startsWith line (js "data: ") = true →
  JSON.parse (slice_from 6 line) = None →
  process_line msgId (l, s) line = (with_currentEventType [] l, s)
  ∧ ∀ rest,
      fold_left (process_line msgId) (line :: rest) (l, s)
      = fold_left (process_line msgId) rest (with_currentEventType [] l, s).
Proof.
  intros Hdata Hparse.
  assert (process_line msgId (l, s) line = (with_currentEventType [] l, s))
    as Hline.
  { unfold process_line.
    by rewrite (startsWith_data_not_event _ Hdata), Hdata, Hparse. }
  split; [exact Hline|]. intros rest. simpl. by rewrite Hline.
Qed.

Lemma malformed_data_skipped_witness :
  process_line 1001
    (with_currentEventType (js "signal_config") locals0, Sample.ready)
    (js "data: {oops")
  = (with_currentEventType []
       (with_currentEventType (js "signal_config") locals0), Sample.ready).
Proof.
  apply (malformed_data_skipped 1001
           (with_currentEventType (js "signal_config") locals0)
           Sample.ready (js "data: {oops")); reflexivity.
Defined.

End Malformed.

(** ** Records of the stream, line by line *)

Section Records.
Import Chat.

Ltac eval_streq :=
  repeat match goal with
         | |- context [streq (js ?a) (js ?b)] =>
             let v := eval vm_compute in (streq (js a) (js b)) in
             change (streq (js a) (js b)) with v
         end.

Lemma startsWith_app (p s : jsstring) : startsWith (p ++ s) p = true.
Proof.
  induction p as [|c p IH]; [done|].
  cbn [startsWith app]. by rewrite N.eqb_refl, IH.
Qed.

Lemma process_event_line msgId (st : Locals * State) event :
  process_line msgId st (js "event: " ++ event)
  = (with_currentEventType (trim event) st.1, st.2).
Proof.
  unfold process_line. rewrite startsWith_app.
  change (slice_from 7 (js "event: " ++ event)) with event. done.
Qed.

Lemma process_data_line msgId (st : Locals * State) text :
  process_line msgId st (js "data: " ++ text)
  = let st' := match JSON.parse text with
               | Some data =>
                   default st (handleSSEEvent (currentEventType st.1) data
                                 msgId onUpdate st)
               | None => st
               end in
    (with_currentEventType [] st'.1, st'.2).
Proof.
  unfold process_line.
  rewrite (startsWith_data_not_event _ (startsWith_app _ _)), startsWith_app.
  change (slice_from 6 (js "data: " ++ text)) with text. done.
Qed.

Lemma handle_signal_config data msgId (l : Locals) s config :
  get data (js "config") = Some config → truthy config = true →
  handleSSEEvent (js "signal_config") data msgId onUpdate (l, s)
  = Some (onUpdate {| u_content := VUndefined;
                      u_signalConfigs := VArr [config];
                      u_conversationId := VUndefined;
                      u_messageId := VUndefined |} l, s).
Proof.
  intros Hg Ht. unfold handleSSEEvent. eval_streq. cbv iota.
  rewrite Hg. simpl. by rewrite Ht.
Qed.

(** One well-formed [signal_config] record: the accumulator becomes the
    one-element list of its config, whatever it held. *)
Lemma process_signal_config_record msgId (l : Locals) s text data config :
  JSON.parse text = Some data →
  get data (js "config") = Some config → truthy config = true →
  fold_left (process_line msgId) (record_lines (js "signal_config") text) (l, s)
  = ({| decoder := decoder l; buffer := buffer l;
        finalContent := finalContent l;
        finalSignalConfigs := VArr [config];
        finalConversationId := finalConversationId l;
        finalMessageId := finalMessageId l;
        currentEventType := [] |}, s).
Proof.
  intros Hp Hg Ht. unfold record_lines. cbn [fold_left].
  rewrite process_event_line, process_data_line, Hp. cbn [fst snd].
  change (trim (js "signal_config")) with (js "signal_config").
  cbn [currentEventType with_currentEventType].
  rewrite (handle_signal_config _ _ _ _ _ Hg Ht). done.
Qed.

End Records.

Section SignalConfigEvents.
Import Chat Stream.

(** A handler other than those of [signal_config] and [done] leaves the
    accumulator of configs as it is. *)
Lemma handle_keeps_configs ty data msgId (l l' : Locals) (s s' : State) :
  ty ≠ js "signal_config" → ty ≠ js "done" →
  handleSSEEvent ty data msgId onUpdate (l, s) = Some (l', s') →
  finalSignalConfigs l' = finalSignalConfigs l.
Proof.
  intros Hsc Hdone. unfold handleSSEEvent, streq.
  rewrite (bool_decide_eq_false_2 (ty = js "signal_config")) by done.
  rewrite (bool_decide_eq_false_2 (ty = js "done")) by done.
  repeat match goal with
         | |- context [bool_decide (ty = ?lit)] =>
             destruct (bool_decide (ty = lit))
         end;
    repeat match goal with
           | |- context [get data ?k] => destruct (get data k); cbn
           end;
    intros [= <- <-] || discriminate 1; reflexivity.
Qed.

Lemma process_line_keeps_configs msgId (st : Locals * State) line :
  selects line ≠ Some (js "signal_config") → selects line ≠ Some (js "done") →
  currentEventType st.1 ≠ js "signal_config" →
  currentEventType st.1 ≠ js "done" →
  finalSignalConfigs (process_line msgId st line).1 = finalSignalConfigs st.1
  ∧ currentEventType (process_line msgId st line).1 ≠ js "signal_config"
  ∧ currentEventType (process_line msgId st line).1 ≠ js "done".
Proof.
  unfold selects, process_line. intros Hsc Hdone Hty1 Hty2.
  destruct (startsWith line (js "event: ")).
  { cbn [fst snd with_currentEventType finalSignalConfigs currentEventType].
    split; [done|].
    split; intros H; [apply Hsc|apply Hdone]; by rewrite H. }
  destruct (startsWith line (js "data: ")); [|done].
  cbn [fst snd with_currentEventType finalSignalConfigs currentEventType].
  split; [|split; discriminate].
  destruct (JSON.parse (slice_from 6 line)) as [data|]; [|done].
  destruct st as [l s]. cbn [fst] in *.
  destruct (handleSSEEvent (currentEventType l) data msgId onUpdate (l, s))
    as [[l' s']|] eqn:Hev; [|done].
  exact (handle_keeps_configs _ _ _ _ _ _ _ Hty1 Hty2 Hev).
Qed.

Lemma process_lines_keep_configs msgId (lines : list jsstring)
    (st : Locals * State) :
  keeps_configs lines →
  currentEventType st.1 ≠ js "signal_config" →
  currentEventType st.1 ≠ js "done" →
  finalSignalConfigs (fold_left (process_line msgId) lines st).1
  = finalSignalConfigs st.1
  ∧ currentEventType (fold_left (process_line msgId) lines st).1
    ≠ js "signal_config"
  ∧ currentEventType (fold_left (process_line msgId) lines st).1 ≠ js "done".
Proof.
  intros H. revert st. induction H as [|line lines [Hsc Hdone] _ IH];
    intros st Hty1 Hty2; [done|].
  cbn [fold_left].
  destruct (process_line_keeps_configs msgId st line Hsc Hdone Hty1 Hty2)
    as (Hacc & Hty1' & Hty2').
  destruct (IH _ Hty1' Hty2') as (IH1 & IH2 & IH3).
  by rewrite IH1, Hacc.
Qed.

(** Any number of well-formed [signal_config] records, each followed by
    lines of other kinds: the accumulator holds the last config alone. *)
Lemma signal_config_records (msgId : Z) (records : list ConfigRecord)
    (st : Locals * State) :
  Forall (fun r => wellFormed r ∧ keeps_configs (followedBy r)) records →
  currentEventType st.1 ≠ js "signal_config" →
  currentEventType st.1 ≠ js "done" →
  let st' := fold_left (process_line msgId) (concat (map linesOf records)) st in
  finalSignalConfigs st'.1
  = match last records with
    | Some r => VArr [carried r]
    | None => finalSignalConfigs st.1
    end
  ∧ currentEventType st'.1 ≠ js "signal_config"
  ∧ currentEventType st'.1 ≠ js "done".
Proof.
  intros H. revert st.
  induction H as [|r records [(data & Hp & Hg & Ht) Hquiet] _ IH];
    intros [l s] Hty1 Hty2; [done|].
  cbv zeta. cbn [map concat]. rewrite !fold_left_app.
  assert (fold_left (process_line msgId) (linesOf r) (l, s)
          = fold_left (process_line msgId) (followedBy r)
              ({| decoder := decoder l; buffer := buffer l;
                  finalContent := finalContent l;
                  finalSignalConfigs := VArr [carried r];
                  finalConversationId := finalConversationId l;
                  finalMessageId := finalMessageId l;
                  currentEventType := [] |}, s)) as ->.
  { unfold linesOf. rewrite fold_left_app.
    by rewrite (process_signal_config_record _ _ _ _ _ _ Hp Hg Ht). }
  match goal with
  | |- context [fold_left _ (followedBy r) ?st0] =>
      destruct (process_lines_keep_configs msgId (followedBy r) st0 Hquiet)
        as (Hacc & Hty1' & Hty2'); [discriminate..|]
  end.
  destruct (IH _ Hty1' Hty2') as (IH1 & IH2 & IH3).
  split; [|split; [exact IH2|exact IH3]]. rewrite IH1, Hacc.
  destruct records as [|r' records]; [done|].
  change (last (r :: r' :: records)) with (last (r' :: records)).
  destruct (last (r' :: records)) eqn:E; [done|]. by apply last_None in E.
Qed.

(** C2, as the code has it.  A well-formed [signal_config] record does
    not append to the pending accumulator: it replaces what the
    accumulator held, whatever that was, by the one-element list of its
    config.  So for a stream that contains n such records among lines of
    any other kind (records of the other event types, lines that do not
    parse), however the stream is cut into chunks: when the loop has
    read the last of them and the lines that follow it up to a [done]
    event, the accumulator holds the last of the n configs alone (it is
    empty when n = 0); the rest of the stream is read from that state,
    and when no [done] event comes the accumulator ends so. *)
Theorem signal_config_replaces (msgId : Z) (chunks : list (list byte))
    (before : list jsstring) (records : list ConfigRecord)
    (rest : list jsstring) (carry : option jsstring) (s : State) :
  keeps_configs before →
  Forall (fun r => wellFormed r ∧ keeps_configs (followedBy r)) records →
  pop (split_lf (TextDecoder.decode TextDecoder.fresh (concat chunks)).2)
  = (before ++ concat (map linesOf records) ++ rest, carry) →
  let st := fold_left (process_line msgId)
              (before ++ concat (map linesOf records)) (locals0, s) in
  let held := match last records with
              | Some r => VArr [carried r]
              | None => VArr []
              end in
  finalSignalConfigs st.1 = held
  ∧ read_loop msgId chunks (locals0, s)
    = lift_input (TextDecoder.decode TextDecoder.fresh (concat chunks)).1
        (default [] carry) (fold_left (process_line msgId) rest st)
  ∧ (keeps_configs rest →
     finalSignalConfigs (read_loop msgId chunks (locals0, s)).1 = held)
  ∧ ∀ (l : Locals) (s0 : State) (r : ConfigRecord),
      wellFormed r →
      finalSignalConfigs
        (fold_left (process_line msgId)
           (record_lines (js "signal_config") (payload r)) (l, s0)).1
      = VArr [carried r].
Proof.
  intros Hbefore Hrecords Hlines st held.
  assert (finalSignalConfigs st.1 = held
          ∧ currentEventType st.1 ≠ js "signal_config"
          ∧ currentEventType st.1 ≠ js "done") as (Hheld & Hty1 & Hty2).
  { subst st held. rewrite fold_left_app.
    match goal with
    | |- context [fold_left _ before ?st0] =>
        destruct (process_lines_keep_configs msgId before st0 Hbefore)
          as (Hacc & Hty1 & Hty2); [discriminate..|]
    end.
    destruct (signal_config_records msgId records _ Hrecords Hty1 Hty2)
      as (Hlast & Hty1' & Hty2').
    cbv zeta in Hlast. split; [|done]. rewrite Hlast, Hacc.
    by destruct (last records). }
  assert (read_loop msgId chunks (locals0, s)
          = lift_input (TextDecoder.decode TextDecoder.fresh (concat chunks)).1
              (default [] carry) (fold_left (process_line msgId) rest st))
    as Hloop.
  { rewrite read_loop_concat by done. rewrite process_chunk_unfold.
    cbn zeta. cbn [fst snd locals0 decoder buffer app]. rewrite Hlines.
    cbn [fst snd]. subst st. by rewrite app_assoc, fold_left_app. }
  split; [done|]. split; [done|]. split.
  - intros Hrest. rewrite Hloop.
    cbn [fst snd lift_input with_input finalSignalConfigs].
    destruct (process_lines_keep_configs msgId rest st Hrest Hty1 Hty2)
      as [Hacc _].
    by rewrite Hacc.
  - intros l s0 r (data & Hp & Hg & Ht).
    by rewrite (process_signal_config_record _ _ _ _ _ _ Hp Hg Ht).
Qed.

Lemma signal_config_replaces_witness :
  finalSignalConfigs
    (fold_left (process_line 1001)
       (record_lines (js "status") (Sample.text "{'message': 'Analysing'}")
        ++ concat (map linesOf Sample.configs_among_others))
       (locals0, Sample.ready)).1
  = VArr [Sample.cfg_b].
Proof.
  refine (proj1 (signal_config_replaces 1001
                   [take 70 Sample.stream_configs_among_others;
                    drop 70 Sample.stream_configs_among_others]
                   (record_lines (js "status")
                      (Sample.text "{'message': 'Analysing'}"))
                   Sample.configs_among_others Sample.done_lines (Some [])
                   Sample.ready _ _ _)).
  - repeat constructor; vm_compute; discriminate.
  - repeat constructor.
    + exists (VObj [(js "config", Sample.cfg_a)]). vm_compute. done.
    + vm_compute; discriminate.
    + vm_compute; discriminate.
    + vm_compute; discriminate.
    + vm_compute; discriminate.
    + vm_compute; discriminate.
    + vm_compute; discriminate.
    + exists (VObj [(js "config", Sample.cfg_b)]). vm_compute. done.
    + vm_compute; discriminate.
    + vm_compute; discriminate.
    + vm_compute; discriminate.
    + vm_compute; discriminate.
    + vm_compute; discriminate.
    + vm_compute; discriminate.
  - vm_compute. reflexivity.
Defined.

(** C2, as stated, fails: two [signal_config] records in one stream leave
    the second config alone in the accumulator, not both in arrival
    order. *)
Lemma signal_config_not_appended :
  let a := (readAll (begin 1000 Sample.ready).1
              [Sample.stream_two_configs] (begin 1000 Sample.ready).2).1 in
  finalSignalConfigs (locals a) = VArr [Sample.cfg_b]
  ∧ finalSignalConfigs (locals a) ≠ VArr [Sample.cfg_a; Sample.cfg_b].
Proof. vm_compute. split; [reflexivity|discriminate]. Qed.

End SignalConfigEvents.

Section HelloStream.
Import Chat Message.

Ltac eval_streq :=
  repeat match goal with
         | |- context [streq (js ?a) (js ?b)] =>
             let v := eval vm_compute in (streq (js a) (js b)) in
             change (streq (js a) (js b)) with v
         end.

Lemma updateMessage_map msgId (f : Message.t → option Message.t) g l :
  (∀ m, f m = Some (g m)) →
  updateMessage msgId f l
  = Some (map (fun m => if Message.id m =? msgId then g m else m) l).
Proof.
  intros Hf. unfold updateMessage.
  induction l as [|m l IH]; [done|]. simpl. rewrite IH.
  destruct (Message.id m =? msgId); [rewrite Hf|]; done.
Qed.

Lemma handle_status data msgId (l : Locals) s :
  handleSSEEvent (js "status") data msgId onUpdate (l, s)
  = Some (l, setMessages (updateMessage msgId (fun m =>
               v ← get data (js "message");
               Some (with_statusText v m))) s).
Proof. unfold handleSSEEvent. eval_streq. done. Qed.

Lemma handle_content data msgId (l : Locals) s c :
  get data (js "content") = Some c →
  handleSSEEvent (js "content") data msgId onUpdate (l, s)
  = Some (onUpdate {| u_content := c; u_signalConfigs := VUndefined;
                      u_conversationId := VUndefined;
                      u_messageId := VUndefined |} l,
          setMessages (updateMessage msgId (fun m =>
            Some (with_statusText VUndefined (with_content c m)))) s).
Proof.
  intros Hc. unfold handleSSEEvent. eval_streq. cbv iota. by rewrite Hc.
Qed.

Lemma handle_done data msgId (l : Locals) s c cs ci mi :
  get data (js "content") = Some c →
  get data (js "signal_configs") = Some cs →
  get data (js "conversation_id") = Some ci →
  get data (js "message_id") = Some mi →
  handleSSEEvent (js "done") data msgId onUpdate (l, s)
  = Some (onUpdate {| u_content := c; u_signalConfigs := cs;
                      u_conversationId := ci; u_messageId := mi |} l, s).
Proof.
  intros H1 H2 H3 H4. unfold handleSSEEvent. eval_streq. cbv iota.
  by rewrite H1, H2, H3, H4.
Qed.

Lemma hello_decoded :
  pop (split_lf (TextDecoder.decode TextDecoder.fresh Sample.stream_hello).2)
  = (Sample.hello_lines, Some []).
Proof. vm_compute. reflexivity. Qed.

Lemma setMessages_ext f f' (s : State) :
  f (messages s) = f' (messages s) → setMessages f s = setMessages f' s.
Proof. intros H. unfold setMessages. by rewrite H. Qed.

Lemma process_blank_line msgId (st : Locals * State) :
  process_line msgId st [] = st.
Proof. reflexivity. Qed.

Lemma process_status_record msgId (l : Locals) s text data v :
  JSON.parse text = Some data → get data (js "message") = Some v →
  fold_left (process_line msgId) (record_lines (js "status") text) (l, s)
  = (with_currentEventType [] l,
     setMessages (fun prev => Some (map (fun m =>
         if Message.id m =? msgId then with_statusText v m else m) prev)) s).
Proof.
  intros Hp Hg. unfold record_lines. cbn [fold_left].
  rewrite process_event_line, process_data_line, Hp. cbn [fst snd].
  change (trim (js "status")) with (js "status").
  cbn [currentEventType with_currentEventType].
  rewrite handle_status, process_blank_line.
  cbn [from_option Datatypes.id fst snd with_currentEventType].
  f_equal. apply setMessages_ext, updateMessage_map.
  intros m. by rewrite Hg.
Qed.

Lemma process_content_record msgId (l : Locals) s text data c :
  JSON.parse text = Some data → get data (js "content") = Some c →
  fold_left (process_line msgId) (record_lines (js "content") text) (l, s)
  = (with_currentEventType []
       (onUpdate {| u_content := c; u_signalConfigs := VUndefined;
                    u_conversationId := VUndefined;
                    u_messageId := VUndefined |} l),
     setMessages (fun prev => Some (map (fun m =>
         if Message.id m =? msgId
         then with_statusText VUndefined (with_content c m) else m) prev)) s).
Proof.
  intros Hp Hg. unfold record_lines. cbn [fold_left].
  rewrite process_event_line, process_data_line, Hp. cbn [fst snd].
  change (trim (js "content")) with (js "content").
  cbn [currentEventType with_currentEventType].
  rewrite (handle_content _ _ _ _ _ Hg), process_blank_line.
  cbn [from_option Datatypes.id fst snd with_currentEventType].
  f_equal. by apply setMessages_ext, updateMessage_map.
Qed.

Lemma process_done_record msgId (l : Locals) s text data c cs ci mi :
  JSON.parse text = Some data →
  get data (js "content") = Some c →
  get data (js "signal_configs") = Some cs →
  get data (js "conversation_id") = Some ci →
  get data (js "message_id") = Some mi →
  fold_left (process_line msgId) (record_lines (js "done") text) (l, s)
  = (with_currentEventType []
       (onUpdate {| u_content := c; u_signalConfigs := cs;
                    u_conversationId := ci; u_messageId := mi |} l), s).
Proof.
  intros Hp H1 H2 H3 H4. unfold record_lines. cbn [fold_left].
  rewrite process_event_line, process_data_line, Hp. cbn [fst snd].
  change (trim (js "done")) with (js "done").
  cbn [currentEventType with_currentEventType].
  by rewrite (handle_done _ _ _ _ _ _ _ _ H1 H2 H3 H4), process_blank_line.
Qed.

(** What the three records of the sample stream do. *)
Lemma hello_lines_processed msgId (s : State) :
  fold_left (process_line msgId) Sample.hello_lines (locals0, s)
  = ({| decoder := TextDecoder.fresh; buffer := [];
        finalContent := VStr (js "hello");
        finalSignalConfigs := VArr [Sample.cfg];
        finalConversationId := VNum (of_decimal false 7 0);
        finalMessageId := VNum (of_decimal false 42 0);
        currentEventType := [] |},
     setMessages (fun prev => Some (map (fun m =>
         if Message.id m =? msgId
         then with_statusText VUndefined (with_content (VStr (js "hello")) m)
         else m) prev))
       (setMessages (fun prev => Some (map (fun m =>
           if Message.id m =? msgId
           then with_statusText (VStr (js "A")) m else m) prev)) s)).
Proof.
  unfold Sample.hello_lines. rewrite !fold_left_app.
  erewrite process_status_record; [|by vm_compute..].
  erewrite process_content_record; [|by vm_compute..].
  erewrite process_done_record; [|by vm_compute..].
  f_equal.
Qed.

(** Finalising a run whose accumulator holds one config. *)
Lemma finalize_one (a : Activation) (s : State) (c : jsval) :
  finalSignalConfigs (locals a) = VArr [c] →
  finalize a s
  = Returned
      (let s2 := setAllSignalConfigs (fun prev => Some (prev ++ [c]))
                   (setMessages (fun prev => Some (map (fun m =>
                        if Message.id m =? tempAssistantMsgId a
                        then finalized (finalContent (locals a)) (VArr [c]) m
                        else m) prev)) s) in
       if negb (truthy (conversationIdAtCall a))
          && truthy (finalConversationId (locals a))
       then perform LoadConversations
              (setCurrentConversationId (finalConversationId (locals a)) s2)
       else s2).
Proof.
  intros H. unfold finalize. rewrite H.
  change (get (VArr [c]) (js "length") ≫= λ len, gt_zero len)
    with (Some true).
  cbn [spread fmap option_fmap option_map].
  assert (setMessages (updateMessage (tempAssistantMsgId a) (fun m =>
              Some (finalized (finalContent (locals a)) (VArr [c]) m))) s
          = setMessages (fun prev => Some (map (fun m =>
                if Message.id m =? tempAssistantMsgId a
                then finalized (finalContent (locals a)) (VArr [c]) m
                else m) prev)) s) as ->
    by (apply setMessages_ext; by apply updateMessage_map).
  done.
Qed.

(** C3.  The stream [status:"A"], [content:"hello"], [done:{content:
    "hello", signal_configs:[cfg], conversation_id:7, message_id:42}],
    however it is cut into chunks, sent from any state of the mounted
    modal that lets the message go: the placeholder assistant message
    (the last one of the list, id [now + 1]) ends with content "hello",
    [isStreaming = false], [statusText = undefined], and the aggregate
    list of signal configs is the old one followed by [cfg]. *)
Theorem hello_stream (chunks : list (list byte)) (now : Z) (s : State) :
  concat chunks = Sample.stream_hello →
  canSend s = true →
  crashed s = false →
  let s' := sendMessage now (ResponseBody chunks EndOfStream) s in
  last (messages s')
  = Some {| id := now + 1; role := assistant; content := VStr (js "hello");
            signal_configs := VArr [Sample.cfg]; isStreaming := Some false;
            statusText := VUndefined; analysisLog := None |}
  ∧ allSignalConfigs s' = allSignalConfigs s ++ [Sample.cfg]
  ∧ Sample.cfg ∈ allSignalConfigs s'.
Proof.
  intros Hc Hsend Hcr s'. subst s'.
  rewrite (proj2 (chunking_invariant chunks)), Hc.
  unfold sendMessage. rewrite Hsend.
  unfold begin, attempt, readAll, read_loop.
  cbn [locals tempAssistantMsgId tempUserMsgId fold_left].
  rewrite process_chunk_unfold. cbn zeta.
  cbn [decoder buffer locals0 fst snd app].
  rewrite hello_decoded. cbn [fst snd]. rewrite hello_lines_processed.
  cbn [lift_input fst snd from_option Datatypes.id with_input].
  rewrite (finalize_one _ _ Sample.cfg) by reflexivity.
  cbn [locals with_locals with_input finalSignalConfigs finalContent
       finalConversationId tempAssistantMsgId tempUserMsgId
       conversationIdAtCall].
  change (truthy (VNum (of_decimal false 7 0))) with true.
  destruct s as [acc conv msgs input ld cfgs effs cr].
  cbn in Hcr. subst cr.
  unfold settle, finish.
  assert (msgs ++ [tempUserMsg now (trim input); tempAssistantMsg now]
          = (msgs ++ [tempUserMsg now (trim input)]) ++ [tempAssistantMsg now])
    as Happ by (by rewrite <- app_assoc).
  cbn [currentConversationId tempAssistantMsgId tempUserMsgId with_locals].
  destruct (truthy conv);
    cbn [negb andb setLoading setMessages setAllSignalConfigs
         setCurrentConversationId setUserInput perform crashed messages
         allSignalConfigs currentConversationId selectedAccountId userInput
         loading effects];
    rewrite Happ, !map_app;
    cbn [map tempAssistantMsg Message.id with_statusText with_content
         finalized role content signal_configs isStreaming statusText
         analysisLog];
    rewrite !Z.eqb_refl, last_snoc;
    (split; [done|split; [done|]]);
    apply elem_of_app; right; apply list_elem_of_singleton; done.
Qed.

End HelloStream.

Lemma hello_stream_witness :
  last (Chat.messages
          (Chat.sendMessage 1000
             (Chat.ResponseBody [take 30 Sample.stream_hello;
                                 drop 30 Sample.stream_hello]
                                Chat.EndOfStream) Sample.ready))
  = Some {| Message.id := 1001; Message.role := Message.assistant;
            Message.content := VStr (js "hello");
            Message.signal_configs := VArr [Sample.cfg];
            Message.isStreaming := Some false;
            Message.statusText := VUndefined;
            Message.analysisLog := None |}.
Proof.
  refine (proj1 (hello_stream [take 30 Sample.stream_hello;
                               drop 30 Sample.stream_hello]
                   1000 Sample.ready _ _ _)); vm_compute; reflexivity.
Defined.

(** ** What the stream can do to the messages *)

Section Advances.
Import Chat Message.

Lemma touches_only_refl msgId l : touches_only msgId l l.
Proof. unfold touches_only. by apply Forall_Forall2_diag, Forall_true. Qed.

Lemma touches_only_trans msgId l1 l2 l3 :
  touches_only msgId l1 l2 → touches_only msgId l2 l3 →
  touches_only msgId l1 l3.
Proof.
  unfold touches_only. intros H12 H23.
  eapply Forall2_trans; [|exact H12|exact H23].
  intros m1 m2 m3 (Hi & Hr & Hs & Hu) (Hi' & Hr' & Hs' & Hu').
  repeat split; [congruence..|].
  intros Hne. rewrite Hu' by congruence. by apply Hu.
Qed.

Lemma advances_refl msgId s : advances msgId s s.
Proof. unfold advances. repeat split; auto using touches_only_refl. Qed.

Lemma advances_trans msgId s1 s2 s3 :
  advances msgId s1 s2 → advances msgId s2 s3 → advances msgId s1 s3.
Proof.
  unfold advances.
  intros (?&?&?&?&?&?&?) (?&?&?&?&?&?&?).
  repeat split; try congruence; eauto using touches_only_trans.
Qed.

Lemma advances_perform msgId e s : advances msgId s (perform e s).
Proof. unfold advances. repeat split; auto using touches_only_refl. Qed.

(** An updater of the message [msgId] that keeps id, role and streaming
    flag. *)
Lemma advances_update msgId (f : Message.t → option Message.t) s :
  (∀ m m', f m = Some m' →
     Message.id m' = Message.id m ∧ role m' = role m
     ∧ isStreaming m' = isStreaming m) →
  advances msgId s (setMessages (updateMessage msgId f) s).
Proof.
  intros Hf. unfold setMessages.
  destruct (crashed s) eqn:Hcr; [apply advances_refl|].
  destruct (updateMessage msgId f (messages s)) as [l|] eqn:Hu.
  - unfold advances. cbn. repeat split; [congruence|].
    unfold updateMessage in Hu. apply mapM_Some in Hu.
    refine (Forall2_impl _ _ _ _ Hu _). intros m m' Hm. cbn in Hm.
    destruct (Z.eqb_spec (Message.id m) msgId) as [Heq|Hne].
    + destruct (Hf _ _ Hm) as (?&?&?). repeat split; congruence.
    + injection Hm as <-. done.
  - unfold advances, crash. cbn. repeat split; auto using touches_only_refl.
Qed.

Lemma handleSSEEvent_advances ty data msgId (l l' : Locals) s s' :
  handleSSEEvent ty data msgId onUpdate (l, s) = Some (l', s') →
  advances msgId s s'.
Proof.
  unfold handleSSEEvent. intros H.
  repeat (case_match; simplify_option_eq);
    try apply advances_refl; try apply advances_perform;
    apply advances_update; intros m m' Hm; simplify_option_eq; done.
Qed.

Lemma process_line_advances msgId (st : Locals * State) line :
  advances msgId st.2 (process_line msgId st line).2.
Proof.
  unfold process_line. destruct st as [l s].
  repeat case_match; cbn [fst snd]; try apply advances_refl.
  destruct (handleSSEEvent _ _ msgId onUpdate (l, s)) as [[l' s']|] eqn:E;
    cbn; [|apply advances_refl].
  by apply handleSSEEvent_advances in E.
Qed.

Lemma process_lines_advances msgId lines (st : Locals * State) :
  advances msgId st.2 (fold_left (process_line msgId) lines st).2.
Proof.
  revert st. induction lines as [|line lines IH]; intros st;
    [apply advances_refl|].
  cbn [fold_left]. eapply advances_trans; [|apply IH].
  apply process_line_advances.
Qed.

Lemma process_chunk_advances msgId (st : Locals * State) value :
  advances msgId st.2 (process_chunk msgId st value).2.
Proof.
  rewrite process_chunk_unfold. cbn zeta. cbn [lift_input snd].
  apply process_lines_advances.
Qed.

Lemma read_loop_advances msgId chunks (st : Locals * State) :
  advances msgId st.2 (read_loop msgId chunks st).2.
Proof.
  revert st. induction chunks as [|c chunks IH]; intros st;
    [apply advances_refl|].
  unfold read_loop in *. cbn [fold_left].
  eapply advances_trans; [|apply IH]. apply process_chunk_advances.
Qed.

End Advances.

(** ** A request that fails *)

Section Failure.
Import Chat Message.

Lemma filter_touches_only msgId other l l' :
  touches_only msgId l l' →
  filter (fun m => Message.id m ≠ other ∧ Message.id m ≠ msgId) l'
  = filter (fun m => Message.id m ≠ other ∧ Message.id m ≠ msgId) l.
Proof.
  unfold touches_only. induction 1 as [|m m' l l' (Hi & _ & _ & Hu) _ IH];
    [done|].
  rewrite !filter_cons, IH, Hi.
  destruct (decide (Message.id m ≠ other ∧ Message.id m ≠ msgId))
    as [[_ Hne]|]; [|done].
  by rewrite (Hu Hne).
Qed.

Lemma filter_all {A} (P : A → Prop) `{∀ x, Decision (P x)} (l : list A) :
  Forall P l → filter P l = l.
Proof.
  induction 1 as [|x l Hx _ IH]; [done|].
  by rewrite filter_cons_True, IH.
Qed.

Lemma attempt_failed (a : Activation) (resp : Response) (s : State) :
  failed resp = true →
  ∃ s2, attempt a resp s = Thrown s2
        ∧ advances (tempAssistantMsgId a) s s2
        ∧ match resp with
          | ResponseBody _ _ => True
          | _ => s2 = s
          end.
Proof.
  intros Hf. destruct resp as [| | |chunks [|]]; try done;
    try (exists s; split; [done|split; [apply advances_refl|done]]).
  unfold attempt, readAll.
  pose proof (read_loop_advances (tempAssistantMsgId a) chunks (locals a, s))
    as Hadv.
  destruct (read_loop _ chunks (locals a, s)) as [l s2]. by exists s2.
Qed.

(** C4.  On every request-level failure (the fetch rejects, the
    response is not OK or has no body, or a read of the stream rejects)
    the error is reported to the user, and the user message and the
    placeholder are removed: the list is the one from before the send,
    so no message carries one of the two ids of the run and no
    half-streamed message remains.  The ids of the run are those
    [Date.now()] gave: no earlier message carries them.  When the
    failure comes after part of the stream was read, this is what
    happens unless an updater threw on the way, which takes the modal
    and its list down. *)
Theorem failure_discards (now : Z) (resp : Response) (s : State) :
  canSend s = true →
  crashed s = false →
  failed resp = true →
  Forall (fun m => Message.id m ≠ now ∧ Message.id m ≠ now + 1) (messages s) →
  let s' := sendMessage now resp s in
  ToastError (VStr (js "Failed to send message")) ∈ effects s'
  ∧ (match resp with
     | ResponseBody _ _ => crashed s' = false
     | _ => True
     end →
     messages s' = messages s
     ∧ streamingMessages s' = streamingMessages s
     ∧ Forall (fun m => Message.id m ≠ now ∧ Message.id m ≠ now + 1)
         (messages s')
     ∧ loading s' = false).
Proof.
  intros Hsend Hcr Hfail Hfresh s'. subst s'.
  unfold sendMessage. rewrite Hsend.
  destruct (begin now s) as [a s1] eqn:Hb.
  assert (tempUserMsgId a = now
          ∧ crashed s1 = false
          ∧ messages s1
            = messages s ++ [tempUserMsg now (trim (userInput s));
                             tempAssistantMsg now]) as (Ha & Hcr1 & Hm1).
  { unfold begin in Hb. injection Hb as <- <-.
    destruct s as [acc conv msgs input ld cfgs effs cr].
    cbn in Hcr. subst cr. done. }
  destruct (attempt_failed a resp s1 Hfail) as (s2 & -> & Hadv & Hsame).
  unfold settle, finish, handleError.
  unfold tempAssistantMsgId in *. rewrite Ha in *.
  destruct Hadv as (_ & _ & _ & _ & _ & Hmono & Htouch).
  assert (filter (fun m => Message.id m ≠ now ∧ Message.id m ≠ now + 1)
            (messages s2)
          = messages s) as Hfilter.
  { rewrite (filter_touches_only _ _ _ _ Htouch), Hm1, filter_app.
    rewrite filter_cons_False by (cbn; lia).
    rewrite filter_cons_False by (cbn; lia).
    by rewrite filter_nil, app_nil_r, filter_all. }
  assert (crashed s2 = false →
          let s' := setLoading false
                      (setMessages
                         (fun prev =>
                            Some (filter (fun m => Message.id m ≠ now
                                                   ∧ Message.id m ≠ now + 1)
                                    prev))
                         (perform (ToastError
                                     (VStr (js "Failed to send message")))
                            (perform ConsoleError s2))) in
          messages s' = messages s
          ∧ streamingMessages s' = streamingMessages s
          ∧ Forall (fun m => Message.id m ≠ now ∧ Message.id m ≠ now + 1)
              (messages s')
          ∧ loading s' = false) as Hmounted.
  { intros Hcr2. destruct s2 as [acc conv msgs input ld cfgs effs cr].
    cbn in Hcr2. subst cr. cbn [messages] in Hfilter.
    unfold streamingMessages. cbn. rewrite Hfilter. done. }
  split.
  - destruct s2 as [acc conv msgs input ld cfgs effs [|]]; cbn;
      rewrite !elem_of_app, !list_elem_of_singleton; auto.
  - intros Hcr2. apply Hmounted.
    destruct resp as [| | |chunks ending]; subst; try done.
    destruct s2 as [acc conv msgs input ld cfgs effs [|]]; [|done].
    cbn in Hcr2. done.
Qed.

Lemma failure_discards_witness :
  messages (sendMessage 1000 (ResponseBody [take 30 Sample.stream_hello]
                                           ReadRejected) Sample.ready)
  = messages Sample.ready.
Proof.
  refine (proj1 (proj2
    (failure_discards 1000
       (ResponseBody [take 30 Sample.stream_hello] ReadRejected)
       Sample.ready _ _ _ _) _));
    vm_compute; try reflexivity. constructor.
Defined.

End Failure.

(** ** The session: one streaming message at a time *)

Section Streaming.
Import Chat Message.

Lemma touches_only_streaming msgId l l' :
  touches_only msgId l l' →
  length (filter (fun m => streaming m = true) l')
  = length (filter (fun m => streaming m = true) l).
Proof.
  unfold touches_only. induction 1 as [|m m' l l' (_ & _ & Hs & _) _ IH];
    [done|].
  assert (streaming m' = streaming m) as Hst
    by (unfold streaming; by rewrite Hs).
  destruct (streaming m) eqn:E.
  - rewrite !filter_cons_True by congruence. cbn. by rewrite IH.
  - rewrite !filter_cons_False by congruence. done.
Qed.

Lemma touches_only_elem msgId l l' m' :
  touches_only msgId l l' → m' ∈ l' →
  ∃ m, m ∈ l ∧ Message.id m' = Message.id m ∧ role m' = role m
       ∧ isStreaming m' = isStreaming m.
Proof.
  intros H Hin. apply list_elem_of_lookup in Hin as [i Hi].
  destruct (Forall2_lookup_r _ _ _ _ _ H Hi) as (m & Hm & ? & ? & ? & _).
  exists m. split; [|done]. apply list_elem_of_lookup. eauto.
Qed.

Lemma inflight_single {A} (before after : list A) a :
  (length (before ++ a :: after) ≤ 1)%nat → before = [] ∧ after = [].
Proof.
  rewrite length_app. cbn. destruct before, after; cbn; try lia. done.
Qed.

End Streaming.

Section RunEnds.
Import Chat Message.

Lemma finalise_in_streaming a l :
  (length (filter (fun m => streaming m = true) (finalise_in a l))
   ≤ length (filter (fun m => streaming m = true) l))%nat.
Proof.
  induction l as [|m l IH]; [done|]. cbn [finalise_in map].
  fold (finalise_in a l).
  destruct (Message.id m =? tempAssistantMsgId a).
  - rewrite (filter_cons_False _ (finalized _ _ m)) by done.
    rewrite filter_cons. destruct (decide (streaming m = true)); cbn; lia.
  - rewrite !filter_cons.
    destruct (decide (streaming m = true)); cbn; lia.
Qed.

Lemma discard_in_streaming a l :
  (length (filter (fun m => streaming m = true) (discard_in a l))
   ≤ length (filter (fun m => streaming m = true) l))%nat.
Proof.
  induction l as [|m l IH]; [done|]. unfold discard_in in *.
  rewrite (filter_cons _ m).
  destruct (decide (Message.id m ≠ tempUserMsgId a
                    ∧ Message.id m ≠ tempAssistantMsgId a));
    rewrite !filter_cons;
    destruct (decide (streaming m = true)); cbn; lia.
Qed.

Lemma left_behind_streaming a l l' :
  left_behind a l l' →
  (length (filter (fun m => streaming m = true) l')
   ≤ length (filter (fun m => streaming m = true) l))%nat.
Proof.
  pose proof (finalise_in_streaming a l).
  pose proof (discard_in_streaming a l).
  pose proof (discard_in_streaming a (finalise_in a l)).
  intros [-> | [-> | [-> | ->]]]; lia.
Qed.

(** A message that still streams after the run was streaming before it
    and does not carry the placeholder id. *)
Lemma left_mounted_streaming a l l' m :
  left_mounted a l l' → m ∈ l' → streaming m = true →
  m ∈ l ∧ Message.id m ≠ tempAssistantMsgId a.
Proof.
  assert (∀ k, m ∈ finalise_in a k → streaming m = true →
               m ∈ k ∧ Message.id m ≠ tempAssistantMsgId a) as Hfin.
  { intros k Hin Hs. unfold finalise_in in Hin.
    apply list_elem_of_fmap in Hin as (m0 & -> & Hin0).
    destruct (Z.eqb_spec (Message.id m0) (tempAssistantMsgId a)); done. }
  assert (∀ k, m ∈ discard_in a k →
               m ∈ k ∧ Message.id m ≠ tempAssistantMsgId a) as Hdis.
  { intros k Hin. unfold discard_in in Hin.
    apply list_elem_of_filter in Hin as [[_ ?] ?]. done. }
  intros [-> | [-> | ->]] Hin Hs; [by apply Hfin|by apply Hdis|].
  apply Hdis in Hin as [Hin ?]. by apply Hfin in Hin as [? _].
Qed.

End RunEnds.

Section Settle.
Import Chat Message.

Lemma settle_thrown a s :
  let s' := settle a (Thrown s) in
  left_behind a (messages s) (messages s')
  ∧ (crashed s' = false →
       crashed s = false ∧ left_mounted a (messages s) (messages s')).
Proof.
  destruct s as [acc conv msgs input ld cfgs effs []];
    cbn; unfold left_behind, left_mounted, discard_in;
    (split; [auto 6|intros ?; try done; split; auto 6]).
Qed.

Lemma settle_finalize a s :
  let s' := settle a (finalize a s) in
  left_behind a (messages s) (messages s')
  ∧ (crashed s' = false →
       crashed s = false ∧ left_mounted a (messages s) (messages s')).
Proof.
  unfold finalize.
  assert (setMessages (updateMessage (tempAssistantMsgId a) (fun m =>
              Some (finalized (finalContent (locals a))
                      (finalSignalConfigs (locals a)) m))) s
          = setMessages (fun prev => Some (finalise_in a prev)) s) as ->
    by (apply setMessages_ext; by apply updateMessage_map).
  destruct ((len ← get (finalSignalConfigs (locals a)) (js "length");
             gt_zero len) : option bool) as [[|]|];
    destruct (spread (finalSignalConfigs (locals a)));
    destruct (negb (truthy (conversationIdAtCall a))
              && truthy (finalConversationId (locals a)));
    destruct s as [acc conv msgs input ld cfgs effs []];
    cbn; unfold left_behind, left_mounted, discard_in;
    (split; [auto 6|intros ?; try done; split; auto 6]).
Qed.

End Settle.

Section SessionInvariant.
Import Chat Message.

Lemma session_inv_opened : session_inv opened.
Proof.
  unfold session_inv. cbn. split; [lia|split; [lia|]].
  intros _. split; [done|]. intros m Hm. by apply elem_of_nil in Hm.
Qed.

(** The handlers that leave the messages, [loading] and the runs alone. *)
Lemma session_inv_frame x s' :
  session_inv x →
  messages s' = messages (ui x) → loading s' = loading (ui x) →
  crashed s' = crashed (ui x) →
  session_inv {| ui := s'; inflight := inflight x |}.
Proof.
  unfold session_inv, streamingMessages. cbn.
  intros (H1 & H2 & H3) -> -> ->. done.
Qed.

Lemma session_inv_no_streaming s' fl :
  (length fl ≤ 1)%nat →
  Forall (fun m => streaming m = false) (messages s') →
  (crashed s' = false → loading s' = false → fl = []) →
  session_inv {| ui := s'; inflight := fl |}.
Proof.
  intros Hfl Hall Hld. unfold session_inv, streamingMessages. cbn.
  assert (filter (fun m => streaming m = true) (messages s') = []) as ->.
  { induction Hall as [|m l Hm _ IH]; [done|].
    rewrite filter_cons_False by congruence. done. }
  split; [done|split; [cbn; lia|]].
  intros Hcr. split; [auto|]. intros m Hm Hs.
  rewrite Forall_forall in Hall. specialize (Hall _ Hm). congruence.
Qed.

Lemma session_inv_step x y : session_inv x → step x y → session_inv y.
Proof.
  intros Hinv Hstep. destruct Hstep.
  - (* input *)
    apply session_inv_frame; [done|..];
      destruct (ui x) as [? ? ? ? ? ? ? []]; done.
  - apply session_inv_frame; [done|..];
      destruct (ui x) as [? ? ? ? ? ? ? []]; done.
  - apply session_inv_frame; [done|..];
      destruct (ui x) as [? ? ? ? ? ? ? []]; done.
  - (* new conversation *)
    destruct Hinv as (H1 & H2 & H3). specialize (H3 H) as [H3 _].
    apply session_inv_no_streaming; [done|..];
      destruct (ui x) as [? ? ? ? ? ? ? []]; cbn in *; try done.
  - (* messages loaded *)
    destruct (crashed (ui x)) eqn:Hcr.
    + apply session_inv_frame; [done|..];
        destruct (ui x) as [? ? ? ? ? ? ? cr]; cbn in Hcr; subst cr;
        unfold loadMessages; by destruct (collectConfigs msgs).
    + destruct Hinv as (H1 & H2 & H3). specialize (H3 Hcr) as [H3 _].
      apply session_inv_no_streaming; [done|..];
        destruct (ui x) as [? ? ? ? ? ? ? cr]; cbn in Hcr; subst cr;
        unfold loadMessages; by destruct (collectConfigs msgs).
  - (* send *)
    rename H into Hcr, H0 into Hld, H1 into Hcan, H2 into Hb.
    destruct Hinv as (H1 & H2 & H3). specialize (H3 Hcr) as [Hfl Hst].
    rewrite (Hfl Hld) in *. clear Hfl.
    assert (Forall (fun m => streaming m = false) (messages (ui x))) as Hnone.
    { apply Forall_forall. intros m Hm.
      destruct (streaming m) eqn:E; [|done].
      by destruct (Hst m Hm E) as (_ & ? & ? & _). }
    assert (filter (fun m => streaming m = true) (messages (ui x)) = [])
      as Hfilter.
    { clear -Hnone. induction Hnone as [|m l Hm _ IH]; [done|].
      rewrite filter_cons_False by congruence. done. }
    unfold begin in Hb. injection Hb as <- <-.
    destruct (ui x) as [acc conv msgs input ld cfgs effs cr].
    cbn in Hcr, Hld, Hnone, Hfilter. subst cr ld.
    unfold session_inv, streamingMessages. cbn -[filter trim].
    rewrite filter_app, Hfilter.
    rewrite filter_cons_False by done.
    rewrite filter_cons_True by done. rewrite filter_nil. cbn -[trim].
    split; [lia|split; [lia|]]. intros _. split; [done|].
    intros m Hm Hs. apply elem_of_app in Hm as [Hm|Hm].
    { rewrite Forall_forall in Hnone. specialize (Hnone _ Hm). congruence. }
    apply elem_of_cons in Hm as [->|Hm]; [done|].
    apply list_elem_of_singleton in Hm as ->. cbn. eauto.
  - (* chunk *)
    rename H into Hfl, H0 into Hchunk.
    destruct Hinv as (H1 & H2 & H3).
    rewrite Hfl in H1. destruct (inflight_single _ _ _ H1) as [-> ->].
    cbn [app] in *.
    pose proof (process_chunk_advances (tempAssistantMsgId a)
                  (locals a, ui x) value) as Hadv.
    rewrite Hchunk in Hadv. cbn [fst snd] in Hadv.
    destruct Hadv as (_ & _ & _ & Hld & _ & Hmono & Htouch).
    unfold session_inv, streamingMessages in *. cbn.
    rewrite (touches_only_streaming _ _ _ Htouch).
    split; [lia|split; [done|]]. intros Hcr'.
    assert (crashed (ui x) = false) as Hcr
      by (destruct (crashed (ui x)); [by rewrite Hmono in Hcr'|done]).
    destruct (H3 Hcr) as [Hnil Hst]. split.
    + intros Hl. rewrite Hld in Hl. rewrite Hfl in Hnil.
      by specialize (Hnil Hl).
    + intros m' Hm' Hs'.
      destruct (touches_only_elem _ _ _ _ Htouch Hm')
        as (m & Hm & Hi & Hr & Hs).
      assert (streaming m = true) as Hsm
        by (unfold streaming in *; by rewrite <- Hs).
      destruct (Hst m Hm Hsm) as (Hrole & a0 & Ha0 & Hid).
      rewrite Hfl in Ha0. injection Ha0 as <-.
      split; [congruence|]. exists (with_locals l' a). split; [done|].
      cbn. congruence.
  - (* the run ends *)
    rename H into Hfl.
    destruct Hinv as (H1 & H2 & H3).
    rewrite Hfl in H1. destruct (inflight_single _ _ _ H1) as [-> ->].
    cbn [app] in *.
    destruct (settle_finalize a (ui x)) as [Hleft Hmounted].
    unfold session_inv, streamingMessages in *. cbn.
    pose proof (left_behind_streaming _ _ _ Hleft).
    split; [lia|split; [lia|]]. intros Hcr'.
    destruct (Hmounted Hcr') as [Hcr Hm]. destruct (H3 Hcr) as [_ Hst].
    split; [done|]. intros m Hin Hs.
    destruct (left_mounted_streaming _ _ _ _ Hm Hin Hs) as [Hin0 Hne].
    destruct (Hst m Hin0 Hs) as (_ & a0 & Ha0 & Hid).
    rewrite Hfl in Ha0. injection Ha0 as <-. done.
  - rename H into Hfl.
    destruct Hinv as (H1 & H2 & H3).
    rewrite Hfl in H1. destruct (inflight_single _ _ _ H1) as [-> ->].
    cbn [app] in *.
    destruct (settle_thrown a (ui x)) as [Hleft Hmounted].
    unfold session_inv, streamingMessages in *. cbn.
    pose proof (left_behind_streaming _ _ _ Hleft).
    split; [lia|split; [lia|]]. intros Hcr'.
    destruct (Hmounted Hcr') as [Hcr Hm]. destruct (H3 Hcr) as [_ Hst].
    split; [done|]. intros m Hin Hs.
    destruct (left_mounted_streaming _ _ _ _ Hm Hin Hs) as [Hin0 Hne].
    destruct (Hst m Hin0 Hs) as (_ & a0 & Ha0 & Hid).
    rewrite Hfl in Ha0. injection Ha0 as <-. done.
Qed.

Lemma reachable_inv x : reachable x → session_inv x.
Proof.
  induction 1 as [|x y _ IH Hstep]; [apply session_inv_opened|].
  by apply (session_inv_step x y).
Qed.

(** C8.  In every reachable session at most one message has its
    streaming flag set.  In a mounted modal such a message is an
    assistant message, exactly one run of [sendMessage] is under way, and
    the message carries the id that run made up when it began: the id of
    its user message plus one.  Whatever chunk a run reads, the stream
    events in it change messages of that id only, and the run keeps its
    ids. *)
Theorem one_streaming_message (x : Session) :
  reachable x →
  (length (streamingMessages (ui x)) ≤ 1)%nat
  ∧ (crashed (ui x) = false →
       ∀ m, m ∈ messages (ui x) → streaming m = true →
         role m = assistant
         ∧ ∃ a, inflight x = [a] ∧ Message.id m = tempUserMsgId a + 1)
  ∧ (∀ a value,
       a ∈ inflight x →
       let st' := process_chunk (tempAssistantMsgId a) (locals a, ui x)
                    value in
       touches_only (tempUserMsgId a + 1) (messages (ui x)) (messages st'.2)
       ∧ tempUserMsgId (with_locals st'.1 a) = tempUserMsgId a).
Proof.
  intros Hreach. destruct (reachable_inv x Hreach) as (_ & H2 & H3).
  split; [exact H2|]. split; [intros Hcr; by apply H3|].
  intros a value _ st'. split; [|done].
  pose proof (process_chunk_advances (tempAssistantMsgId a)
                (locals a, ui x) value) as Hadv.
  by destruct Hadv as (_ & _ & _ & _ & _ & _ & Htouch).
Qed.

Lemma one_streaming_message_witness :
  (length (streamingMessages (ui Sample.sending)) ≤ 1)%nat.
Proof.
  apply (one_streaming_message Sample.sending).
  pose (x1 := {| ui := setSelectedAccountId (Some 3) initial;
                 inflight := [] |}).
  pose (x2 := {| ui := Sample.ready; inflight := [] |}).
  apply (reachable_step x2 Sample.sending);
    [apply (reachable_step x1 x2);
       [apply (reachable_step opened x1); [apply reachable_opened|] |] |].
  - exact (step_account opened (Some 3) eq_refl).
  - exact (step_input x1 (js "OI signal for BTC") eq_refl).
  - exact (step_send x2 1000 _ _ eq_refl eq_refl eq_refl eq_refl).
Defined.

End SessionInvariant.

(** ** The cards: computed validity *)

Section Validity.
Import SignalConfig.







End Validity.

(** ** The panel: keys of the cards *)

Section Keys.
Import SignalConfig SignalCardsPanel.

Lemma js_inj (a b : string) : js a = js b → a = b.
Proof.
  unfold js. revert b. induction a as [|x a IH]; intros [|y b]; try done.
  cbn. intros [= Hxy Hab]. f_equal; [|by apply IH].
  rewrite <- (ascii_N_embedding x), <- (ascii_N_embedding y). by rewrite Hxy.
Qed.

Lemma decimal_inj (n m : N) : decimal n = decimal m → n = m.
Proof.
  unfold decimal. intros H. apply js_inj in H.
  assert (∀ k, N.to_uint k ≠ Decimal.Nil) as Hnonnil.
  { intros [|p]; [done|]. apply DecimalPos.Unsigned.to_uint_nonnil. }
  apply DecimalN.Unsigned.to_uint_inj.
  apply (inj Some).
  rewrite <- (NilZero.usu _ (Hnonnil n)), <- (NilZero.usu _ (Hnonnil m)).
  by rewrite H.
Qed.

Lemma positional_inj (i j : nat) :
  positional (Z.of_nat i) = positional (Z.of_nat j) → i = j.
Proof.
  unfold positional.
  replace (Z.of_nat i <? 0) with false by (symmetry; apply Z.ltb_ge; lia).
  replace (Z.of_nat j <? 0) with false by (symmetry; apply Z.ltb_ge; lia).
  intros H. apply app_inv_head in H. cbn [app] in H.
  apply decimal_inj in H. lia.
Qed.

(** With distinct objects in the array, [indexOf] finds a config at its
    own position: the key [handleCreate] computes is the key the panel
    rendered the card with. *)
Lemma indexOf_from_lookup from (configs : list Ref) (i : nat) (c : Ref) :
  NoDup (map addr configs) → configs !! i = Some c →
  indexOf_from from configs c = from + Z.of_nat i.
Proof.
  revert from i. induction configs as [|c' configs IH]; intros from i Hnd Hi;
    [done|].
  apply NoDup_cons in Hnd as [Hnotin Hnd]. cbn [indexOf_from].
  destruct i as [|i]; cbn in Hi.
  - injection Hi as ->. rewrite bool_decide_eq_true_2 by done. lia.
  - rewrite bool_decide_eq_false_2.
    + rewrite (IH _ i) by done. lia.
    + intros Heq. apply Hnotin. rewrite Heq.
      apply list_elem_of_fmap_2. apply list_elem_of_lookup. eauto.
Qed.

Lemma indexOf_lookup (configs : list Ref) (i : nat) (c : Ref) :
  NoDup (map addr configs) → configs !! i = Some c →
  indexOf configs c = Z.of_nat i.
Proof. intros. unfold indexOf. by rewrite (indexOf_from_lookup 0 _ i). Qed.

Lemma positional_nonempty (i : Z) : positional i ≠ [].
Proof. unfold positional. done. Qed.

(** When the keys of two cards are the same. *)
Lemma signalKey_eq (c c' : SignalConfig.t) (i j : nat) :
  i ≠ j →
  signalKey c (Z.of_nat i) = signalKey c' (Z.of_nat j)
  ↔ sameName c c' ∨ namedLikePosition c c' j ∨ namedLikePosition c' c i.
Proof.
  intros Hij. unfold signalKey, sameName, namedLikePosition, unnamed.
  pose proof (positional_nonempty (Z.of_nat i)) as Hi.
  pose proof (positional_nonempty (Z.of_nat j)) as Hj.
  destruct (name c) as [[|u s]|], (name c') as [[|u' s']|]; split;
    try (intros H; apply positional_inj in H; done);
    try (intros [[? ?]|[[? ?]|[? ?]]]; congruence);
    try (intros H; right; left; split; [done|]; by rewrite H);
    try (intros H; right; right; split; [done|]; by rewrite H).
  intros H. left. split; [done|]. by rewrite H.
Qed.

(** C7, as the code has it.  The key of a card is the name of its
    config, or a positional key when the config has none.  In a list of
    distinct objects the keys of two cards are the same in two cases
    only: the two configs carry the same name, or one of them has no
    name and the other is named like the positional key of the first.
    In every other case the keys differ, and then creating or having
    created one card leaves the status of the other as it was. *)
Theorem distinct_keys (configs : list Ref) (i j : nat) (ci cj : Ref) :
  NoDup (map addr configs) →
  configs !! i = Some ci → configs !! j = Some cj → i ≠ j →
  let k := signalKey (config ci) (indexOf configs ci) in
  k = signalKey (config ci) (Z.of_nat i)
  ∧ (k = signalKey (config cj) (Z.of_nat j)
     ↔ sameName (config ci) (config cj)
       ∨ namedLikePosition (config ci) (config cj) j
       ∨ namedLikePosition (config cj) (config ci) i)
  ∧ (k ≠ signalKey (config cj) (Z.of_nat j) →
     ∀ st r,
       card (handleCreate_begin k st) j cj = card st j cj
       ∧ card (handleCreate_end k r st) j cj = card st j cj).
Proof.
  intros Hnd Hi Hj Hij k. subst k.
  rewrite (indexOf_lookup _ _ _ Hnd Hi).
  split; [done|]. split; [by apply signalKey_eq|]. intros Hne st r.
  unfold card, handleCreate_begin, handleCreate_end. cbn.
  revert Hne.
  generalize (signalKey (config ci) (Z.of_nat i))
             (signalKey (config cj) (Z.of_nat j)).
  intros k k' Hne. clear -Hne.
  split; f_equal; apply bool_decide_ext; destruct r as [[|]|];
    rewrite ?elem_of_union, ?elem_of_difference, ?elem_of_singleton;
    intuition congruence.
Qed.

Lemma distinct_keys_witness :
  card (handleCreate_begin (signalKey (Sample.named "" "BTC") 0) mounted) 1
    {| addr := 1; config := Sample.named "" "ETH" |}
  = card mounted 1 {| addr := 1; config := Sample.named "" "ETH" |}
  ∧ card (handleCreate_end (signalKey (Sample.named "" "BTC") 0)
            (Resolved true) mounted) 1
      {| addr := 1; config := Sample.named "" "ETH" |}
    = card mounted 1 {| addr := 1; config := Sample.named "" "ETH" |}.
Proof.
  refine (proj2 (proj2 (distinct_keys Sample.unnamed_pair 0 1
                          {| addr := 0; config := Sample.named "" "BTC" |}
                          {| addr := 1; config := Sample.named "" "ETH" |}
                          _ _ _ _)) _ mounted (Resolved true)).
  - change (NoDup [0%nat; 1%nat]). apply NoDup_cons.
    split; [|apply NoDup_singleton].
    intros H. apply list_elem_of_singleton in H. discriminate H.
  - reflexivity.
  - reflexivity.
  - lia.
  - vm_compute. discriminate.
Defined.

(** C7, as stated, fails in the two cases.  Two different configs with
    the same name have the same key, and once the first card is being
    created the second one shows as creating too; and so do a config the
    assistant named [signal-1] and the config without a name at index
    1. *)
Lemma keys_collide :
  (∃ c1 c2,
     Sample.same_names !! 0%nat = Some c1
     ∧ Sample.same_names !! 1%nat = Some c2
     ∧ config c1 ≠ config c2
     ∧ signalKey (config c1) 0 = signalKey (config c2) 1
     ∧ isCreating (card mounted 1 c2) = false
     ∧ isCreating
         (card (handleCreate_begin
                  (signalKey (config c1) (indexOf Sample.same_names c1))
                  mounted) 1 c2) = true)
  ∧ (∃ c1 c2,
       Sample.positional_clash !! 0%nat = Some c1
       ∧ Sample.positional_clash !! 1%nat = Some c2
       ∧ config c1 ≠ config c2
       ∧ signalKey (config c1) 0 = signalKey (config c2) 1
       ∧ isCreating (card mounted 1 c2) = false
       ∧ isCreating
           (card (handleCreate_begin
                    (signalKey (config c1)
                       (indexOf Sample.positional_clash c1))
                    mounted) 1 c2) = true).
Proof.
  split; (eexists _, _; split; [reflexivity|]; split; [reflexivity|];
          split; [by intros [=]|]; split; [reflexivity|];
          split; [reflexivity|]; apply bool_decide_eq_true_2;
          cbn; apply elem_of_union_r, elem_of_singleton; reflexivity).
Qed.

End Keys.

(** ** The panel: creating a signal *)

Section Create.
Import SignalConfig SignalCardsPanel.

(** C10.  However the callback settles (resolves true, resolves false,
    rejects), when [handleCreate] is through the key of its card is not
    in the creating set: the [finally] block removes it.  The key enters
    the created set exactly when the callback resolved true, and no key
    ever leaves that set: every step of the panel, with any number of
    creations under way, keeps what was created. *)
Theorem create_settles
    (onCreate onCreatePool : SignalConfig.t → Settled)
    (configs : list Ref) (c : Ref) (pool : bool) (st : State) :
  let k := signalKey (config c) (indexOf configs c) in
  let r := if pool then onCreatePool (config c) else onCreate (config c) in
  let st' := (handleCreate onCreate onCreatePool configs c pool st).1 in
  (k ∉ creatingSignals st')
  ∧ (∀ k', k' ∈ createdSignals st'
           ↔ k' ∈ createdSignals st ∨ (k' = k ∧ r = Resolved true))
  ∧ (∀ k0 r0 st0,
       (k0 ∉ creatingSignals (handleCreate_end k0 r0 st0))
       ∧ createdSignals st0 ⊆ createdSignals (handleCreate_end k0 r0 st0)
       ∧ createdSignals (handleCreate_begin k0 st0) = createdSignals st0)
  ∧ (∀ p p', step configs p p' →
             createdSignals (state p) ⊆ createdSignals (state p')).
Proof.
  intros k r st'. subst st'. unfold handleCreate. fold k. fold r.
  cbn [fst handleCreate_end handleCreate_begin creatingSignals
       createdSignals].
  assert (∀ k0 r0 st0,
            (k0 ∉ creatingSignals (handleCreate_end k0 r0 st0))
            ∧ createdSignals st0 ⊆ createdSignals (handleCreate_end k0 r0 st0)
            ∧ createdSignals (handleCreate_begin k0 st0) = createdSignals st0)
    as Hend.
  { intros k0 r0 st0. cbn. split; [|split; [|done]].
    - rewrite elem_of_difference, elem_of_singleton. tauto.
    - destruct r0 as [[|]|]; [apply union_subseteq_l|done..]. }
  split; [|split; [|split; [exact Hend|]]].
  - rewrite elem_of_difference, elem_of_singleton. tauto.
  - intros k'. destruct r as [[|]|];
      rewrite ?elem_of_union, ?elem_of_singleton;
      intuition congruence.
  - intros p p' [p0 c0 _|p0 before k0 after r0 _]; cbn [state].
    + by rewrite (proj2 (proj2 (Hend _ Rejected _))).
    + apply Hend.
Qed.

End Create.

(** ** The trade list *)

Section TradeList.
Import Trades.

(** C9.  Whatever the trade list, the section displays its first twenty
    trades and nothing else (none while loading): at most twenty cards,
    the trade on the i-th card being the i-th trade of the list, so in
    the order given, none repeated or moved. *)
Theorem at_most_twenty_in_order (trades : list ArenaTrade)
    (selectedAccount : Selected) (loading : bool) :
  let shown := displayed (TradesSection trades selectedAccount loading) in
  shown = (if loading then [] else take 20 trades)
  ∧ (length shown ≤ 20)%nat
  ∧ (∃ rest, trades = shown ++ rest)
  ∧ (∀ i t, shown !! i = Some t → trades !! i = Some t).
Proof.
  intros shown.
  assert (shown = if loading then [] else take 20 trades) as Hshown.
  { subst shown. unfold TradesSection. destruct loading; [done|].
    case_bool_decide as Hlen.
    - by destruct trades.
    - cbn [displayed]. rewrite map_map. cbn. apply map_id. }
  split; [exact Hshown|]. rewrite Hshown. destruct loading.
  - split; [cbn; lia|]. split; [by exists trades|]. by intros i t.
  - split; [rewrite length_take; lia|].
    split; [exists (drop 20 trades); by rewrite take_drop|].
    intros i t Hi. apply lookup_take_Some in Hi as [? _]. done.
Qed.

End TradeList.

(** ** [sendMessage] as a path of the session *)

Section BigStep.
Import Chat Message.

Lemma readAll_cons a c chunks s :
  readAll a (c :: chunks) s
  = readAll (with_locals (process_chunk (tempAssistantMsgId a)
                            (locals a, s) c).1 a)
      chunks (process_chunk (tempAssistantMsgId a) (locals a, s) c).2.
Proof.
  unfold readAll, read_loop. cbn [fold_left].
  destruct (process_chunk (tempAssistantMsgId a) (locals a, s) c) as [l' s'].
  cbn [fst snd locals with_locals].
  change (tempAssistantMsgId (with_locals l' a)) with (tempAssistantMsgId a).
  by destruct (fold_left _ chunks (l', s')).
Qed.

Lemma readAll_reachable chunks a s :
  reachable {| ui := s; inflight := [a] |} →
  reachable {| ui := (readAll a chunks s).2;
               inflight := [(readAll a chunks s).1] |}.
Proof.
  revert a s. induction chunks as [|c chunks IH]; intros a s Hr.
  - unfold readAll, read_loop. cbn. by destruct a.
  - rewrite readAll_cons. apply IH.
    eapply reachable_step; [exact Hr|].
    destruct (process_chunk (tempAssistantMsgId a) (locals a, s) c)
      as [l' s'] eqn:E.
    exact (step_chunk {| ui := s; inflight := [a] |} [] a [] c l' s'
             eq_refl E).
Qed.

(** A run of [sendMessage] from an idle session is a path of the
    transition system: the send, the chunks one by one, the end. *)
Lemma sendMessage_reachable now resp s :
  reachable {| ui := s; inflight := [] |} →
  crashed s = false → loading s = false →
  reachable {| ui := sendMessage now resp s; inflight := [] |}.
Proof.
  intros Hr Hcr Hld. unfold sendMessage.
  destruct (canSend s) eqn:Hcan; [|done].
  destruct (begin now s) as [a s1] eqn:Hb.
  assert (reachable {| ui := s1; inflight := [a] |}) as Hr1.
  { eapply reachable_step; [exact Hr|].
    exact (step_send {| ui := s; inflight := [] |} now a s1 Hcr Hld Hcan Hb). }
  destruct resp as [| | |chunks ending]; cbn [attempt].
  1-3: eapply reachable_step; [exact Hr1|];
       exact (step_failed {| ui := s1; inflight := [a] |} [] a [] eq_refl).
  pose proof (readAll_reachable chunks a s1 Hr1) as Hr2.
  unfold readAll in *.
  destruct (read_loop (tempAssistantMsgId a) chunks (locals a, s1))
    as [l' s'].
  cbn [fst snd] in Hr2.
  change (settle a) with (settle (with_locals l' a)).
  eapply reachable_step; [exact Hr2|]. destruct ending.
  - exact (step_done {| ui := s'; inflight := [with_locals l' a] |}
             [] (with_locals l' a) [] eq_refl).
  - exact (step_failed {| ui := s'; inflight := [with_locals l' a] |}
             [] (with_locals l' a) [] eq_refl).
Qed.

End BigStep.

(** ** Worked cases of the runtime services *)

Section Worked.

Example decode_bom_and_astral :
  (TextDecoder.decode TextDecoder.fresh
     [xef; xbb; xbf; x68; xc3; xa9; xf0; x9f; x98; x80; xff]).2
  = [104; 233; 55357; 56832; 65533]%N.
Proof. vm_compute. reflexivity. Qed.

Example decode_split_character :
  let '(d, first) := TextDecoder.decode TextDecoder.fresh [xe2; x82] in
  (first, (TextDecoder.decode d [xac]).2) = ([], [8364%N]).
Proof. vm_compute. reflexivity. Qed.

Example parse_object :
  JSON.parse (Sample.text "{'a': [1, true, null], 'a': 'xA'}")
  = Some (VObj [(js "a", VStr (js "xA"))]).
Proof. vm_compute. reflexivity. Qed.

Example parse_key_order :
  JSON.parse (Sample.text "{'b': 1, '10': 2, '9': 3, 'a': 4, '01': 5, '9': 6}")
  = Some (VObj [(js "9", VNum (of_decimal false 6 0));
                (js "10", VNum (of_decimal false 2 0));
                (js "b", VNum (of_decimal false 1 0));
                (js "a", VNum (of_decimal false 4 0));
                (js "01", VNum (of_decimal false 5 0))]).
Proof. vm_compute. reflexivity. Qed.

Example parse_rejects :
  map JSON.parse [js "{oops"; js "[1,]"; js "01"; js ""; js "nul"; js "1 2"]
  = [None; None; None; None; None; None].
Proof. vm_compute. reflexivity. Qed.

Example number_toString :
  map (fun '(m, e) => toString (of_decimal false m e))
    [(1%N, -1); (15%N, -1); (1%N, 21); (5%N, -324); (2%N, -324)]
  = [js "0.1"; js "1.5"; js "1e+21"; js "5e-324"; js "0"].
Proof. vm_compute. reflexivity. Qed.

Example split_lines :
  pop (split_lf (js "a" ++ [10%N] ++ [10%N] ++ js "bc"))
  = ([js "a"; []], Some (js "bc")).
Proof. vm_compute. reflexivity. Qed.

Example card_validity :
  map SignalCardsPanel.cardIsValid
    [Sample.taker_volume; Sample.zero_threshold; Sample.null_threshold;
     Sample.empty_metric; Sample.numeric_metric; Sample.numeric_metric_pool;
     Sample.null_threshold_pool; Sample.pool_of [];
     Sample.named "OI spike" "BTC"]
  = [true; true; true; false; false; true; true; false; false].
Proof. vm_compute. reflexivity. Qed.

(** Configs as the stream carries them: a threshold that is [null]
    counts as present, an empty or numeric metric makes the single card
    invalid, a numeric metric passes in a pool, and a pool without
    members is invalid. *)
Example validity_of_payloads :
  map (fun payload =>
         SignalCardsPanel.cardIsValid
           <$> (JSON.parse (Sample.text payload) ≫= FromJSON.config))
    ["{'name': 'a', 'trigger_condition': {'metric': 'oi', 'operator': 'greater_than', 'threshold': null}}";
     "{'name': 'b', 'trigger_condition': {'metric': 'oi', 'operator': 'greater_than'}}";
     "{'name': 'c', 'trigger_condition': {'metric': 'taker_volume', 'direction': 'buy'}}";
     "{'name': 'd', 'trigger_condition': {'metric': 5, 'operator': '>', 'threshold': 1}}";
     "{'name': 'e', '_type': 'pool', 'signals': [{'metric': 5, 'operator': '>', 'threshold': null}]}";
     "{'name': 'f', '_type': 'pool', 'signals': []}";
     "{'name': 'g', '_type': 'pool', 'signals': [null]}";
     "null"]%string
  = [Some true; Some false; Some true; Some false; Some true; Some false;
     None; None].
Proof. vm_compute. reflexivity. Qed.

Example blank_input_is_not_sent :
  Chat.sendMessage 1000 Chat.ResponseNotOk
    (Chat.setUserInput (js "   ") Sample.ready)
  = Chat.setUserInput (js "   ") Sample.ready.
Proof. vm_compute. reflexivity. Qed.

End Worked.

(** * Further properties of the components *)

(** ** What follows the last line feed of the stream *)

Section DecoderLineFeed.
Import TextDecoder Stream.

Lemma lor_shift_low (c b : N) :
  N.lor (N.shiftl c 6) (N.land b 63) = (c * 64 + b mod 64)%N.
Proof.
  change 63%N with (N.ones 6).
  assert (N.land (N.shiftl c 6) (N.land b (N.ones 6)) = 0%N) as Hdisjoint.
  { apply N.bits_inj. intros n. rewrite !N.land_spec, N.bits_0.
    destruct (N.lt_ge_cases n 6) as [Hlt|Hge].
    - by rewrite N.shiftl_spec_low.
    - rewrite (N.ones_spec_high 6 n Hge). by rewrite !andb_false_r. }
  rewrite <- (N.lxor_lor _ _ Hdisjoint), <- (N.add_nocarry_lxor _ _ Hdisjoint).
  by rewrite N.land_ones, N.shiftl_mul_pow2.
Qed.

Lemma land_low (b base n : N) :
  (base * 2 ^ n <= b < (base + 1) * 2 ^ n)%N →
  N.land b (N.ones n) = (b - base * 2 ^ n)%N.
Proof.
  intros H. rewrite N.land_ones. symmetry.
  apply (N.mod_unique _ _ base); lia.
Qed.

Lemma started_reset (d : decoder) : started (reset d).
Proof. split; [done|by left]. Qed.

(** A lead byte: the sequence it opens cannot end below U+0080, and the
    only code point it emits at once is the byte itself. *)
Lemma lead_byte_started (d : decoder) (b : N) :
  started (lead_byte d b).1
  ∧ (b ≠ 10%N → 10%N ∉ (lead_byte d b).2).
Proof.
  unfold lead_byte.
  destruct (N.leb_spec b 127) as [Hascii|Hhigh]; cbn [fst snd].
  { split; [apply started_reset|]. intros Hb Hin.
    apply list_elem_of_singleton in Hin. congruence. }
  destruct (N.leb_spec 194 b) as [H194|?], (N.leb_spec b 223) as [H223|?];
    cbn [andb fst snd].
  { split; [|intros _ Hin; by apply elem_of_nil in Hin].
    split; [done|]. right. left. cbn [expect code_point].
    change 31%N with (N.ones 5). rewrite (land_low b 6 5) by (cbn; lia).
    cbn. lia. }
  all: destruct (N.leb_spec 224 b) as [H224|?], (N.leb_spec b 239) as [H239|?];
    cbn [andb fst snd].
  all: try (split; [|intros _ Hin; by apply elem_of_nil in Hin];
            split; [cbn [expect upper_boundary]; by destruct (b =? 237)%N|];
            destruct (N.eqb_spec b 224) as [->|Hne];
            [right; right; cbn; lia|];
            right; left; cbn [expect code_point];
            change 15%N with (N.ones 4);
            rewrite (land_low b 14 4) by (cbn; lia); cbn; lia).
  all: destruct (N.leb_spec 240 b) as [H240|?], (N.leb_spec b 244) as [H244|?];
    cbn [andb fst snd].
  all: try (split; [|intros _ Hin; by apply elem_of_nil in Hin];
            split; [cbn [expect upper_boundary]; by destruct (b =? 244)%N|];
            destruct (N.eqb_spec b 240) as [->|Hne];
            [right; right; cbn; lia|];
            right; left; cbn [expect code_point];
            change 7%N with (N.ones 3);
            rewrite (land_low b 30 3) by (cbn; lia); cbn; lia).
  all: split; [apply started_reset|]; intros _ Hin;
    apply list_elem_of_singleton in Hin; discriminate Hin.
Qed.

Lemma handler_started (d : decoder) (b : N) :
  started d →
  started (handler d b).1
  ∧ (b ≠ 10%N → 10%N ∉ (handler d b).2).
Proof.
  intros [Hupper Hopen]. unfold handler.
  destruct (N.eqb_spec (bytes_needed d) 0) as [Hnone|Hsome];
    [apply lead_byte_started|].
  destruct (N.ltb_spec b (lower_boundary d)) as [Hlow|Hlow];
    [|destruct (N.ltb_spec (upper_boundary d) b) as [Hup|Hup]];
    cbn [orb].
  1-2: destruct (lead_byte_started (reset d) b) as [Hst Hout];
       destruct (lead_byte (reset d) b) as [d' out]; cbn [fst snd] in *;
       (split; [done|]); intros Hb Hin;
       apply elem_of_cons in Hin as [Hin|Hin]; [discriminate Hin|];
       by apply Hout.
  assert (16 <= N.lor (N.shiftl (code_point d) 6) (N.land b 63))%N as Hcp.
  { rewrite lor_shift_low.
    destruct Hopen as [?|[Hc|Hl]];
      [done|generalize (b mod 64)%N; intros; lia|].
    assert (b mod 64 = b - 128)%N as ->
      by (symmetry; apply (N.mod_unique _ _ 2); lia).
    lia. }
  destruct (bytes_seen d + 1 =? bytes_needed d)%N; cbn [fst snd].
  - split; [apply started_reset|]. intros _ Hin.
    apply list_elem_of_singleton in Hin. lia.
  - split; [|intros _ Hin; by apply elem_of_nil in Hin].
    split; [done|]. right. left. cbn. lia.
Qed.

Lemma emit_plain (seen : bool) (cps : list N) :
  10%N ∉ cps → 10%N ∉ (emit seen cps).2.
Proof.
  revert seen. induction cps as [|cp cps IH]; intros seen Hcps; [done|].
  apply not_elem_of_cons in Hcps as [Hcp Hcps]. cbn [emit].
  specialize (IH true Hcps). destruct (emit true cps) as [seen' out].
  cbn [fst snd] in *.
  destruct (negb seen && (cp =? 65279)%N); [done|].
  unfold code_units. destruct (N.ltb_spec cp 65536).
  - cbn. by apply not_elem_of_cons.
  - cbn. apply not_elem_of_cons. split; [lia|].
    apply not_elem_of_cons. split; [lia|done].
Qed.

Lemma decode_byte_started (d : decoder) (b : byte) :
  started d →
  started (decode_byte d b).1
  ∧ (b ≠ x0a → 10%N ∉ (decode_byte d b).2).
Proof.
  intros Hd. unfold decode_byte.
  destruct (handler_started d (Byte.to_N b) Hd) as [Hst Hout].
  destruct (handler d (Byte.to_N b)) as [d' cps]. cbn [fst snd] in *.
  pose proof (emit_plain (bom_seen d') cps) as Hemit.
  destruct (emit (bom_seen d') cps) as [seen out]. cbn [fst snd] in *.
  split; [exact Hst|]. intros Hb. apply Hemit, Hout. intros Heq. apply Hb.
  apply (inj Some). rewrite <- (Byte.of_to_N b), Heq. reflexivity.
Qed.

Lemma decode_started (d : decoder) (value : list byte) :
  started d →
  started (decode d value).1
  ∧ (Forall (fun b => b ≠ x0a) value → 10%N ∉ (decode d value).2).
Proof.
  revert d. induction value as [|b value IH]; intros d Hd; cbn [decode].
  - split; [done|]. intros _. apply not_elem_of_nil.
  - destruct (decode_byte_started d b Hd) as [Hd1 Hout1].
    destruct (decode_byte d b) as [d1 out1]. cbn [fst snd] in *.
    destruct (IH d1 Hd1) as [Hd2 Hout2].
    destruct (decode d1 value) as [d2 out2]. cbn [fst snd] in *.
    split; [done|]. intros Hall. apply Forall_cons in Hall as [Hb Hall].
    rewrite elem_of_app. intros [?|?]; [by apply Hout1|by apply Hout2].
Qed.

End DecoderLineFeed.

Section UnterminatedTail.
Import Chat Stream.

Lemma split_lf_plain (s : jsstring) : 10%N ∉ s → split_lf s = [s].
Proof.
  induction s as [|c s IH]; [done|]. intros Hs.
  apply not_elem_of_cons in Hs as [Hc Hs]. cbn [split_lf].
  destruct (N.eqb_spec c 10) as [->|_]; [done|]. by rewrite (IH Hs).
Qed.

Lemma plain_split_lf (s : jsstring) : split_lf s = [s] → 10%N ∉ s.
Proof.
  induction s as [|c s IH]; [intros _; apply not_elem_of_nil|].
  cbn [split_lf]. destruct (N.eqb_spec c 10) as [->|Hc]; [done|].
  destruct (split_lf s) as [|p ps] eqn:E; [by destruct (split_lf_nonempty s)|].
  intros [= -> ->]. apply not_elem_of_cons. split; [congruence|by apply IH].
Qed.

(** A chunk without a line feed only feeds the decoder and the buffer. *)
Lemma process_chunk_plain msgId (st : Locals * State) (value : list byte) :
  split_lf (buffer st.1) = [buffer st.1] →
  started (decoder st.1) →
  Forall (fun b => b ≠ x0a) value →
  ∃ d b, process_chunk msgId st value = lift_input d b st.
Proof.
  intros Hbuf Hd Hvalue. rewrite process_chunk_unfold. cbn zeta.
  destruct (decode_started (decoder st.1) value Hd) as [_ Hout].
  specialize (Hout Hvalue).
  rewrite (split_lf_plain (buffer st.1 ++ _)).
  - cbn. eauto.
  - rewrite elem_of_app. intros [?|?]; [|done].
    by apply (plain_split_lf _ Hbuf).
Qed.

Lemma read_loop_input msgId chunks (st : Locals * State) :
  split_lf (buffer st.1) = [buffer st.1] →
  started (decoder st.1) →
  split_lf (buffer (read_loop msgId chunks st).1)
  = [buffer (read_loop msgId chunks st).1]
  ∧ started (decoder (read_loop msgId chunks st).1).
Proof.
  revert st. induction chunks as [|c chunks IH]; intros st Hbuf Hd; [done|].
  unfold read_loop in *. cbn [fold_left]. apply IH.
  - apply process_chunk_buffer.
  - rewrite process_chunk_unfold. cbn zeta. cbn [lift_input fst with_input decoder].
    by apply decode_started.
Qed.

Lemma finalize_input (a : Activation) d b (s : State) :
  finalize (with_locals (with_input d b (locals a)) a) s = finalize a s.
Proof. reflexivity. Qed.

(** X1.  What the stream holds after its last line feed is never
    processed: a last chunk without a line feed leaves the outcome of
    [sendMessage] as it is without that chunk, whatever the chunk holds
    (the start of a record, a whole record that lacks its end of line)
    and however the stream ends. *)
Theorem unterminated_tail_ignored (now : Z) (chunks : list (list byte))
    (tail : list byte) (ending : StreamEnd) (s : State) :
  Forall (fun b => b ≠ x0a) tail →
  sendMessage now (ResponseBody (chunks ++ [tail]) ending) s
  = sendMessage now (ResponseBody chunks ending) s.
Proof.
  intros Htail. unfold sendMessage. destruct (canSend s); [|done].
  destruct (begin now s) as [a s1] eqn:Hb.
  assert (locals a = locals0) as Hl by (unfold begin in Hb; by injection Hb as <- _).
  unfold attempt, readAll. rewrite Hl.
  unfold read_loop at 1. rewrite fold_left_app. cbn [fold_left].
  fold (read_loop (tempAssistantMsgId a) chunks (locals0, s1)).
  destruct (read_loop_input (tempAssistantMsgId a) chunks (locals0, s1))
    as [Hbuf Hd]; [done|split; [done|by left]|].
  destruct (process_chunk_plain (tempAssistantMsgId a)
              (read_loop (tempAssistantMsgId a) chunks (locals0, s1)) tail
              Hbuf Hd Htail) as (d & b & ->).
  destruct (read_loop (tempAssistantMsgId a) chunks (locals0, s1)) as [l s2].
  cbn [lift_input fst snd]. by destruct ending.
Qed.

Lemma unterminated_tail_ignored_witness :
  messages (sendMessage 1000
              (ResponseBody [Sample.stream_hello;
                             Sample.quoted "event: content"]
                            EndOfStream) Sample.ready)
  = messages (sendMessage 1000
                (ResponseBody [Sample.stream_hello] EndOfStream)
                Sample.ready).
Proof.
  refine (f_equal messages
            (unterminated_tail_ignored 1000 [Sample.stream_hello]
               (Sample.quoted "event: content") EndOfStream Sample.ready _)).
  repeat constructor; discriminate.
Defined.

End UnterminatedTail.

(** ** Records the loop passes over *)

Section EventTypes.
Import Chat Stream.

Lemma handle_unknown ty data msgId (st : Locals * State) :
  ty ∉ knownEvents → handleSSEEvent ty data msgId onUpdate st = Some st.
Proof.
  intros Hty. destruct st as [l s]. unfold handleSSEEvent, streq.
  repeat (rewrite bool_decide_eq_false_2;
          [|intros ->; apply Hty; unfold knownEvents; cbn [map];
            rewrite !elem_of_cons; tauto]).
  done.
Qed.

(** X2.  An event type applies to one data line: every data line, parsed
    or not, handled or not, leaves the pending event type empty, and a
    data line that comes with no event line of its own changes
    nothing. *)
Theorem event_type_consumed msgId (st : Locals * State)
    (line1 line2 : jsstring) :
  startsWith line1 (js "data: ") = true →
  startsWith line2 (js "data: ") = true →
  currentEventType (process_line msgId st line1).1 = []
  ∧ process_line msgId (process_line msgId st line1) line2
    = process_line msgId st line1.
Proof.
  intros H1 H2.
  assert (∀ st0 : Locals * State,
            currentEventType st0.1 = [] →
            process_line msgId st0 line2
            = (with_currentEventType [] st0.1, st0.2)) as Hidle.
  { intros st0 Hty. unfold process_line.
    rewrite (startsWith_data_not_event _ H2), H2, Hty.
    destruct (JSON.parse (slice_from 6 line2)) as [data|]; [|done].
    rewrite handle_unknown; [done|].
    unfold knownEvents. cbn [map]. rewrite !elem_of_cons, elem_of_nil.
    intros H. repeat destruct H as [H|H]; discriminate H || done. }
  unfold process_line at 1 3 4.
  rewrite (startsWith_data_not_event _ H1), H1.
  split; [done|]. by rewrite Hidle.
Qed.

Lemma event_type_consumed_witness :
  process_line 1001
    (process_line 1001 (with_currentEventType (js "content") locals0,
                        Sample.ready)
       (Sample.text "data: {'content': 'one'}"))
    (Sample.text "data: {'content': 'two'}")
  = process_line 1001 (with_currentEventType (js "content") locals0,
                       Sample.ready)
      (Sample.text "data: {'content': 'one'}").
Proof.
  apply (event_type_consumed 1001
           (with_currentEventType (js "content") locals0, Sample.ready));
    reflexivity.
Defined.

(** X3.  A record whose event type, trimmed, is none of the eight that
    [handleSSEEvent] knows (event types are compared as written, upper
    and lower case apart): whatever its data line holds, the component
    state and the accumulators stay as they are. *)
Theorem unknown_event_ignored msgId (l : Locals) (s : State)
    (event text : jsstring) :
  trim event ∉ knownEvents →
  fold_left (process_line msgId) (record_lines event text) (l, s)
  = (with_currentEventType [] l, s).
Proof.
  intros Hty. unfold record_lines. cbn [fold_left].
  rewrite process_event_line, process_data_line. cbn [fst snd].
  destruct (JSON.parse text) as [data|]; [|done].
  cbn [currentEventType with_currentEventType].
  by rewrite handle_unknown.
Qed.

Lemma unknown_event_ignored_witness :
  fold_left (process_line 1001)
    (record_lines (js "Status") (Sample.text "{'message': 'A'}"))
    (locals0, Sample.sending.(ui))
  = (with_currentEventType [] locals0, Sample.sending.(ui)).
Proof.
  apply (unknown_event_ignored 1001 locals0 (ui Sample.sending)
           (js "Status") (Sample.text "{'message': 'A'}")).
  vm_compute. intros H.
  repeat (apply elem_of_cons in H as [H|H]; [discriminate H|]).
  by apply elem_of_nil in H.
Defined.

(** X4.  A data line whose JSON is [null].  Under every event type but
    [status] the handler either reads a property of the payload before it
    changes anything, which throws into the empty [catch], or does
    nothing: the component state and the accumulators stay as they are.
    Under [status] the payload is read inside the state updater, so with
    the placeholder in the list the updater throws and takes the modal
    down. *)
Theorem null_payload msgId (l : Locals) (s : State) (text : jsstring) :
  JSON.parse text = Some VNull →
  (currentEventType l ≠ js "status" →
   process_line msgId (l, s) (js "data: " ++ text)
   = (with_currentEventType [] l, s))
  ∧ (currentEventType l = js "status" → crashed s = false →
     (∃ m, m ∈ messages s ∧ Message.id m = msgId) →
     crashed (process_line msgId (l, s) (js "data: " ++ text)).2 = true).
Proof.
  intros Hnull. rewrite process_data_line, Hnull. cbn [fst snd]. split.
  - intros Hty.
    assert (handleSSEEvent (currentEventType l) VNull msgId onUpdate (l, s)
            = None
            ∨ handleSSEEvent (currentEventType l) VNull msgId onUpdate (l, s)
              = Some (l, s)) as [-> | ->]; [|done..].
    unfold handleSSEEvent, streq.
    rewrite (bool_decide_eq_false_2 _ Hty). repeat case_match; auto.
  - intros -> Hcr (m & Hin & Hid). rewrite handle_status. cbn [default fst snd from_option].
    unfold setMessages. rewrite Hcr.
    destruct (updateMessage msgId _ (messages s)) as [l'|] eqn:E; [|done].
    exfalso. unfold updateMessage in E.
    assert (is_Some (mapM (fun m0 : Message.t =>
                             if Message.id m0 =? msgId
                             then v ← get VNull (js "message");
                                  Some (Message.with_statusText v m0)
                             else Some m0) (messages s))) as Hsome by eauto.
    apply mapM_is_Some in Hsome. rewrite Forall_forall in Hsome.
    specialize (Hsome m Hin). cbn in Hsome.
    rewrite Hid, Z.eqb_refl in Hsome. by destruct Hsome.
Qed.

Lemma null_payload_witness :
  process_line 1001 (with_currentEventType (js "done") locals0, Sample.ready)
    (js "data: null")
  = (with_currentEventType [] (with_currentEventType (js "done") locals0),
     Sample.ready).
Proof.
  apply (null_payload 1001 (with_currentEventType (js "done") locals0)
           Sample.ready (js "null")).
  - reflexivity.
  - discriminate.
Defined.

End EventTypes.

(** ** Invariants of the decode loop, in general *)

Section LoopInvariant.
Import Chat.

Variable R : State → State → Prop.
Hypothesis R_refl : ∀ s, R s s.
Hypothesis R_trans : ∀ s1 s2 s3, R s1 s2 → R s2 s3 → R s1 s3.
Hypothesis R_event :
  ∀ ty data msgId (l l' : Locals) s s',
    handleSSEEvent ty data msgId onUpdate (l, s) = Some (l', s') → R s s'.

Lemma process_line_keeps msgId (st : Locals * State) line :
  R st.2 (process_line msgId st line).2.
Proof using R_refl R_event.
  unfold process_line. destruct st as [l s].
  repeat case_match; cbn [fst snd]; try apply R_refl.
  destruct (handleSSEEvent _ _ msgId onUpdate (l, s)) as [[l' s']|] eqn:E;
    cbn; [|apply R_refl].
  by apply R_event in E.
Qed.

Lemma read_loop_keeps msgId chunks (st : Locals * State) :
  R st.2 (read_loop msgId chunks st).2.
Proof using R_refl R_trans R_event.
  revert st. induction chunks as [|c chunks IH]; intros st; [apply R_refl|].
  unfold read_loop in *. cbn [fold_left].
  eapply R_trans; [|apply IH].
  rewrite process_chunk_unfold. cbn zeta. cbn [lift_input snd].
  generalize (pop (split_lf (buffer st.1
                ++ (TextDecoder.decode (decoder st.1) c).2))).1.
  intros lines. revert st. clear IH.
  induction lines as [|line lines IH]; intros st; [apply R_refl|].
  cbn [fold_left]. eapply R_trans; [|apply IH]. apply process_line_keeps.
Qed.

End LoopInvariant.

(** ** The effects of reading a stream *)

Section Reports.
Import Chat Stream.

Lemma reports_refl s : reports s s.
Proof. exists []. cbn. by rewrite app_nil_r. Qed.

Lemma reports_trans s1 s2 s3 : reports s1 s2 → reports s2 s3 → reports s1 s3.
Proof.
  intros [t1 H1] [t2 H2]. exists (t1 ++ t2).
  by rewrite H2, H1, map_app, app_assoc.
Qed.

Lemma setMessages_effects f s : effects (setMessages f s) = effects s.
Proof. unfold setMessages. by repeat case_match. Qed.

Lemma reports_event ty data msgId (l l' : Locals) s s' :
  handleSSEEvent ty data msgId onUpdate (l, s) = Some (l', s') → reports s s'.
Proof.
  unfold handleSSEEvent. intros H.
  repeat (case_match; simplify_option_eq);
    try apply reports_refl;
    try (exists []; cbn; by rewrite setMessages_effects, app_nil_r).
  eexists [_]. reflexivity.
Qed.

Lemma read_loop_reports msgId chunks (st : Locals * State) :
  reports st.2 (read_loop msgId chunks st).2.
Proof.
  apply read_loop_keeps;
    eauto using reports_refl, reports_trans, reports_event.
Qed.

End Reports.

(** ** The runs of sendMessage, case by case *)

Section Runs.
Import Chat Message Stream.

(** A run that passes the guard: the request, the loop, and then the
    [catch] or the finalisation, and the [finally]. *)
Lemma sendMessage_unfold now resp s :
  canSend s = true →
  ∃ l s2,
    let a := {| tempUserMsgId := now;
                conversationIdAtCall := currentConversationId s;
                locals := l |} in
    advances (now + 1) (begin now s).2 s2
    ∧ reports (begin now s).2 s2
    ∧ (match resp with ResponseBody _ _ => True | _ => s2 = (begin now s).2 end)
    ∧ sendMessage now resp s
      = settle a (if failed resp then Thrown s2 else finalize a s2).
Proof.
  intros Hsend. unfold sendMessage. rewrite Hsend.
  destruct (begin now s) as [a s1] eqn:Hb. cbn [snd].
  assert (a = {| tempUserMsgId := now;
                 conversationIdAtCall := currentConversationId s;
                 locals := locals0 |}) as ->
    by (unfold begin in Hb; by injection Hb as <- _).
  destruct resp as [| | |chunks ending].
  1-3: exists locals0, s1; cbn;
       split; [apply advances_refl|split; [apply reports_refl|done]].
  unfold attempt, readAll, tempAssistantMsgId. cbn [locals tempUserMsgId].
  pose proof (read_loop_advances (now + 1) chunks (locals0, s1)) as Hadv.
  pose proof (read_loop_reports (now + 1) chunks (locals0, s1)) as Hrep.
  destruct (read_loop (now + 1) chunks (locals0, s1)) as [l s2].
  cbn [fst snd] in *. exists l, s2.
  cbv zeta. split; [exact Hadv|]. split; [exact Hrep|]. split; [done|].
  by destruct ending.
Qed.

Lemma begin_state now s :
  crashed s = false →
  (begin now s).2
  = {| selectedAccountId := selectedAccountId s;
       currentConversationId := currentConversationId s;
       messages := messages s ++ [tempUserMsg now (trim (userInput s));
                                  tempAssistantMsg now];
       userInput := []; loading := true;
       allSignalConfigs := allSignalConfigs s;
       effects := effects s ++ [request s]; crashed := false |}.
Proof. destruct s as [? ? ? ? ? ? ? []]; [done|]. intros _. reflexivity. Qed.

End Runs.

(** ** What a run leaves behind *)

Section Outcome.
Import Chat Message Stream.

Lemma touches_only_fixed msgId l l' :
  Forall (fun m => Message.id m ≠ msgId) l → touches_only msgId l l' → l' = l.
Proof.
  intros Hall H. unfold touches_only in H. revert Hall.
  induction H as [|m m' l l' (_ & _ & _ & Hu) _ IH]; [done|].
  intros Hall. apply Forall_cons in Hall as [Hm Hall].
  by rewrite (Hu Hm), (IH Hall).
Qed.

Lemma finalise_in_fixed a l :
  Forall (fun m => Message.id m ≠ tempAssistantMsgId a) l →
  finalise_in a l = l.
Proof.
  induction 1 as [|m l Hm _ IH]; [done|]. cbn [finalise_in map].
  fold (finalise_in a l). rewrite IH.
  by destruct (Z.eqb_spec (Message.id m) (tempAssistantMsgId a)).
Qed.

Lemma finalize_messages a s :
  setMessages (updateMessage (tempAssistantMsgId a) (fun m =>
      Some (finalized (finalContent (locals a))
              (finalSignalConfigs (locals a)) m))) s
  = setMessages (fun prev => Some (finalise_in a prev)) s.
Proof. apply setMessages_ext. by apply updateMessage_map. Qed.

(** The list a run holds after its stream, when no earlier message
    carries the placeholder id: the old messages, the user message, and
    the placeholder with what the events did to it. *)
Lemma exchange_after_loop now (s s2 : State) :
  crashed s = false →
  Forall (fun m => Message.id m ≠ now + 1) (messages s) →
  advances (now + 1) (begin now s).2 s2 →
  ∃ p, messages s2
       = messages s ++ [tempUserMsg now (trim (userInput s)); p]
       ∧ Message.id p = now + 1 ∧ role p = assistant
       ∧ isStreaming p = Some true.
Proof.
  intros Hcr Hids (_ & _ & _ & _ & _ & _ & Htouch).
  rewrite (begin_state now s Hcr) in Htouch. cbn [messages] in Htouch.
  unfold touches_only in Htouch.
  apply Forall2_app_inv_l in Htouch as (k1 & k2 & H1 & H2 & ->).
  apply (touches_only_fixed _ _ _ Hids) in H1 as ->.
  apply Forall2_cons_inv_l in H2 as (u & k3 & (_ & _ & _ & Hu) & H3 & ->).
  apply Forall2_cons_inv_l in H3 as (p & k4 & (Hi & Hr & Hs & _) & H4 & ->).
  apply Forall2_nil_inv_l in H4 as ->.
  rewrite Hu by (cbn; lia). exists p. done.
Qed.

(** X5.  A stream that is read to its end, sent from a mounted modal in
    which no message carries one of the two ids of the run: if the modal
    is still mounted afterwards, either the list is the old one followed
    by the user message (the trimmed input) and the reply, which has the
    placeholder id, is an assistant message, streams no more and has no
    status text; or the finalisation threw, the failure was reported and
    the list is the old one. *)
Theorem stream_end_outcome (now : Z) (chunks : list (list byte)) (s : State) :
  canSend s = true → crashed s = false →
  Forall (fun m => Message.id m ≠ now ∧ Message.id m ≠ now + 1) (messages s) →
  crashed (sendMessage now (ResponseBody chunks EndOfStream) s) = false →
  let s' := sendMessage now (ResponseBody chunks EndOfStream) s in
  (∃ reply,
     messages s' = messages s ++ [tempUserMsg now (trim (userInput s)); reply]
     ∧ Message.id reply = now + 1 ∧ role reply = assistant
     ∧ isStreaming reply = Some false ∧ statusText reply = VUndefined)
  ∨ (messages s' = messages s
     ∧ ToastError (VStr (js "Failed to send message")) ∈ effects s').
Proof.
  intros Hsend Hcr Hids Hcr' s'. subst s'.
  destruct (sendMessage_unfold now (ResponseBody chunks EndOfStream) s Hsend)
    as (l & s2 & Hadv & _ & _ & Heq).
  rewrite Heq in *. clear Heq. cbn [failed] in *.
  destruct (exchange_after_loop now s s2 Hcr) as (p & Hm2 & Hi & Hr & Hs);
    [by eapply Forall_impl; [exact Hids|]; intros ? []|done|].
  set (a := {| tempUserMsgId := now;
               conversationIdAtCall := currentConversationId s;
               locals := l |}) in *.
  assert (finalise_in a (messages s2)
          = messages s ++ [tempUserMsg now (trim (userInput s));
                           finalized (finalContent l) (finalSignalConfigs l) p])
    as Hfin.
  { rewrite Hm2. unfold finalise_in. rewrite map_app. fold (finalise_in a (messages s)).
    rewrite finalise_in_fixed
      by (eapply Forall_impl; [exact Hids|]; by intros ? []).
    cbn [map tempUserMsg Message.id]. unfold tempAssistantMsgId. cbn [tempUserMsgId a].
    rewrite Hi, Z.eqb_refl.
    by destruct (Z.eqb_spec now (now + 1)); [lia|]. }
  assert (discard_in a (finalise_in a (messages s2)) = messages s) as Hdis.
  { rewrite Hfin. unfold discard_in. rewrite filter_app.
    rewrite filter_cons_False by (cbn; tauto).
    rewrite filter_cons_False by (cbn; unfold tempAssistantMsgId; cbn; tauto).
    rewrite filter_nil, app_nil_r. by apply filter_all. }
  revert Hcr'. unfold finalize. rewrite finalize_messages.
  destruct ((len ← get (finalSignalConfigs (locals a)) (js "length");
             gt_zero len) : option bool) as [[|]|];
    destruct (spread (finalSignalConfigs (locals a)));
    destruct (negb (truthy (conversationIdAtCall a))
              && truthy (finalConversationId (locals a)));
    destruct s2 as [acc conv msgs input ld cfgs effs []];
    cbn [messages] in *; cbn -[js finalise_in filter]; try done; intros _;
    first [ left; exists (finalized (finalContent l) (finalSignalConfigs l) p);
            by rewrite Hfin
          | right;
            change (filter _ (finalise_in a msgs))
              with (discard_in a (finalise_in a msgs));
            rewrite Hdis;
            split; [done|];
            rewrite !elem_of_app, !list_elem_of_singleton; auto ].
Qed.

Lemma stream_end_outcome_witness :
  let s' := sendMessage 1000 (ResponseBody [Sample.stream_hello] EndOfStream)
              Sample.ready in
  (∃ reply,
     messages s'
     = messages Sample.ready
       ++ [tempUserMsg 1000 (trim (userInput Sample.ready)); reply]
     ∧ Message.id reply = 1000 + 1 ∧ role reply = assistant
     ∧ isStreaming reply = Some false ∧ statusText reply = VUndefined)
  ∨ (messages s' = messages Sample.ready
     ∧ ToastError (VStr (js "Failed to send message")) ∈ effects s').
Proof.
  apply (stream_end_outcome 1000 [Sample.stream_hello] Sample.ready);
    [reflexivity|reflexivity|constructor|vm_compute; reflexivity].
Defined.

End Outcome.

Section AfterSend.
Import Chat Message Stream.

Lemma trimStart_blank (s : jsstring) :
  Forall (fun c => isWhiteSpace c = true) s → trimStart s = [].
Proof.
  induction 1 as [|c s Hc _ IH]; [done|]. cbn [trimStart]. by rewrite Hc.
Qed.

(** X6.  The guard of [sendMessage].  With an input that is blank (empty
    or white space only) or with no account selected (none, or the id 0)
    the call changes nothing: no message, no request.  In every other
    state the first thing the call does to the world is the request,
    which carries the selected account, the trimmed input and the
    current conversation id. *)
Theorem send_guard (now : Z) (resp : Response) (s : State) :
  (canSend s = false
   ↔ trim (userInput s) = [] ∨ selectedAccountId s = None
     ∨ selectedAccountId s = Some 0)
  ∧ (Forall (fun c => isWhiteSpace c = true) (userInput s) → canSend s = false)
  ∧ (if canSend s
     then ∃ more, effects (sendMessage now resp s)
                  = effects s ++ request s :: more
     else sendMessage now resp s = s).
Proof.
  split; [|split].
  - unfold canSend. destruct (selectedAccountId s) as [account|].
    + destruct (decide (trim (userInput s) = [])) as [Hb|Hb].
      * rewrite (bool_decide_eq_true_2 _ Hb). cbn. tauto.
      * rewrite (bool_decide_eq_false_2 _ Hb). cbn [negb andb].
        destruct (Z.eqb_spec account 0) as [->|Hz]; cbn.
        -- tauto.
        -- split; [done|]. intros [?|[?|[= ?]]]; done.
    + rewrite andb_false_r. tauto.
  - intros Hblank. unfold canSend, trim.
    rewrite (trimStart_blank _ Hblank). cbn. done.
  - destruct (canSend s) eqn:Hsend; [|unfold sendMessage; by rewrite Hsend].
    destruct (sendMessage_unfold now resp s Hsend)
      as (l & s2 & _ & [toasts Hrep] & _ & ->).
    assert (effects (begin now s).2 = effects s ++ [request s]) as Hb.
    { unfold begin. cbn [snd perform effects].
      unfold setLoading, setUserInput, request.
      by destruct s as [? ? ? ? ? ? ? []]. }
    rewrite Hb in Hrep. clear Hb.
    assert (∀ a c, (c = Thrown s2 ∨ c = finalize a s2) →
                   ∃ more, effects (settle a c) = effects s2 ++ more) as Hsettle.
    { intros a c [-> | ->].
      - unfold settle, finish, handleError. eexists.
        destruct s2 as [? ? ? ? ? ? ? []]; cbn -[js filter];
          rewrite <- app_assoc; reflexivity.
      - unfold finalize. rewrite finalize_messages.
        destruct ((len ← get (finalSignalConfigs (locals a)) (js "length");
                   gt_zero len) : option bool) as [[|]|];
          destruct (spread (finalSignalConfigs (locals a)));
          destruct (negb (truthy (conversationIdAtCall a))
                    && truthy (finalConversationId (locals a)));
          destruct s2 as [? ? ? ? ? ? ? []]; cbn -[js finalise_in filter];
          try rewrite <- app_assoc;
          first [by eexists | by exists []; rewrite app_nil_r]. }
    destruct (Hsettle {| tempUserMsgId := now;
                         conversationIdAtCall := currentConversationId s;
                         locals := l |}
                (if failed resp then Thrown s2
                 else finalize {| tempUserMsgId := now;
                                  conversationIdAtCall := currentConversationId s;
                                  locals := l |} s2)) as [more ->];
      [destruct (failed resp); auto|].
    rewrite Hrep, <- !app_assoc. cbn [app]. eauto.
Qed.

(** The [catch] or the finalisation, then the [finally]: what they keep
    and what they add. *)
Lemma settle_outcome (a : Activation) (s2 : State) (thrown : bool) :
  let s' := settle a (if thrown then Thrown s2 else finalize a s2) in
  selectedAccountId s' = selectedAccountId s2
  ∧ userInput s' = userInput s2
  ∧ (crashed s' = false → crashed s2 = false ∧ loading s' = false)
  ∧ (∃ extra, allSignalConfigs s' = allSignalConfigs s2 ++ extra
              ∧ (thrown = true → extra = []))
  ∧ (∃ added, effects s' = effects s2 ++ added
       ∧ (truthy (conversationIdAtCall a) = true ∨ thrown = true →
          currentConversationId s' = currentConversationId s2
          ∧ LoadConversations ∉ added)
       ∧ (currentConversationId s' = currentConversationId s2
          ∨ truthy (currentConversationId s') = true
            ∧ LoadConversations ∈ added)).
Proof.
  assert (∀ effs : list Effect,
            LoadConversations
            ∉ [ConsoleError; ToastError (VStr (js "Failed to send message"))])
    as Hnone.
  { intros _ H. apply elem_of_cons in H as [H|H]; [discriminate H|].
    apply list_elem_of_singleton in H. discriminate H. }
  specialize (Hnone []).
  destruct thrown.
  - unfold settle, finish, handleError.
    destruct s2 as [acc conv msgs input ld cfgs effs []];
      cbn -[js filter];
      (split; [done|split; [done|split; [done|]]]);
      (split; [exists []; by rewrite app_nil_r|]);
      exists [ConsoleError; ToastError (VStr (js "Failed to send message"))];
      rewrite <- app_assoc; auto.
  - unfold finalize. rewrite finalize_messages.
    destruct ((len ← get (finalSignalConfigs (locals a)) (js "length");
               gt_zero len) : option bool) as [[|]|];
      destruct (spread (finalSignalConfigs (locals a))) as [elems|];
      destruct (truthy (conversationIdAtCall a)) eqn:Hcall;
      destruct (truthy (finalConversationId (locals a))) eqn:Hfinal;
      destruct s2 as [acc conv msgs input ld cfgs effs []];
      cbn -[js finalise_in filter];
      (split; [done|split; [done|split; [done|]]]);
      (split; [first [by eexists; split; [reflexivity|]
                     | exists []; by rewrite app_nil_r]|]);
      first [ exists [LoadConversations]; split; [done|];
              split; [by intros [?|?]|];
              first [by left|right; split; [done|]];
              by apply list_elem_of_singleton
            | exists []; rewrite app_nil_r; split; [done|];
              split; [intros _; split; [done|apply not_elem_of_nil]|by left]
            | exists [ConsoleError;
                      ToastError (VStr (js "Failed to send message"))];
              rewrite <- app_assoc; auto ].
Qed.

Lemma begin_fields now s :
  crashed (begin now s).2 = crashed s
  ∧ selectedAccountId (begin now s).2 = selectedAccountId s
  ∧ currentConversationId (begin now s).2 = currentConversationId s
  ∧ allSignalConfigs (begin now s).2 = allSignalConfigs s
  ∧ effects (begin now s).2 = effects s ++ [request s]
  ∧ (crashed s = false → userInput (begin now s).2 = []).
Proof. by destruct s as [? ? ? ? ? ? ? []]. Qed.

(** X7.  After a send that passed the guard, whether it succeeded or
    failed, a modal that is still mounted has an empty input box (the
    text that was typed is not put back after a failure), is no longer
    loading, and has the account it had. *)
Theorem send_resets_input (now : Z) (resp : Response) (s : State) :
  canSend s = true →
  crashed (sendMessage now resp s) = false →
  userInput (sendMessage now resp s) = []
  ∧ loading (sendMessage now resp s) = false
  ∧ selectedAccountId (sendMessage now resp s) = selectedAccountId s.
Proof.
  intros Hsend.
  destruct (sendMessage_unfold now resp s Hsend)
    as (l & s2 & Hadv & _ & _ & ->).
  destruct Hadv as (Hacc & _ & Hinput & _ & _ & Hmono & _).
  destruct (begin_fields now s) as (Hcr1 & Hacc1 & _ & _ & _ & Hinput1).
  set (a := {| tempUserMsgId := now;
               conversationIdAtCall := currentConversationId s;
               locals := l |}).
  destruct (settle_outcome a s2 (failed resp)) as (Ha & Hi & Hc & _).
  destruct (failed resp); cbv zeta in *; intros Hcr'; rewrite Ha, Hi;
    destruct (Hc Hcr') as [Hcr2 Hld];
    (assert (crashed s = false) as Hcr
       by (rewrite <- Hcr1; destruct (crashed (begin now s).2); [|done];
           by rewrite Hmono in Hcr2));
    by rewrite Hinput, Hinput1, Hacc, Hacc1.
Qed.

Lemma send_resets_input_witness :
  userInput (sendMessage 1000 ResponseNotOk Sample.ready) = [].
Proof.
  apply (send_resets_input 1000 ResponseNotOk Sample.ready); reflexivity.
Defined.

(** X8.  The cards of the panel are never removed or reordered by a
    send: whatever the response, the list of signal configs afterwards
    is the list before followed by what the run added, and a run that
    failed added nothing. *)
Theorem panel_only_grows (now : Z) (resp : Response) (s : State) :
  ∃ extra,
    allSignalConfigs (sendMessage now resp s) = allSignalConfigs s ++ extra
    ∧ (failed resp = true → extra = []).
Proof.
  destruct (canSend s) eqn:Hsend.
  - destruct (sendMessage_unfold now resp s Hsend)
      as (l & s2 & Hadv & _ & _ & ->).
    destruct Hadv as (_ & _ & _ & _ & Hcfg & _).
    destruct (begin_fields now s) as (_ & _ & _ & Hcfg1 & _).
    destruct (settle_outcome {| tempUserMsgId := now;
                                conversationIdAtCall := currentConversationId s;
                                locals := l |} s2 (failed resp))
      as (_ & _ & _ & (extra & He & Hnil) & _).
    exists extra. cbv zeta in He. by rewrite He, Hcfg, Hcfg1.
  - exists []. unfold sendMessage. rewrite Hsend. by rewrite app_nil_r.
Qed.

(** X9.  The current conversation.  A send from inside a conversation
    (the current id is truthy) leaves the id as it is and does not
    reload the list of conversations, whatever the stream says.  A send
    from outside either leaves the id as it is, or ends with a truthy id
    and has reloaded the list. *)
Theorem conversation_kept (now : Z) (resp : Response) (s : State) :
  ∃ added,
    effects (sendMessage now resp s) = effects s ++ added
    ∧ if truthy (currentConversationId s)
      then currentConversationId (sendMessage now resp s)
           = currentConversationId s
           ∧ LoadConversations ∉ added
      else currentConversationId (sendMessage now resp s)
           = currentConversationId s
           ∨ truthy (currentConversationId (sendMessage now resp s)) = true
             ∧ LoadConversations ∈ added.
Proof.
  destruct (canSend s) eqn:Hsend.
  - destruct (sendMessage_unfold now resp s Hsend)
      as (l & s2 & Hadv & [toasts Hrep] & _ & ->).
    destruct Hadv as (_ & Hconv & _).
    destruct (begin_fields now s) as (_ & _ & Hconv1 & _ & Heff1 & _).
    destruct (settle_outcome {| tempUserMsgId := now;
                                conversationIdAtCall := currentConversationId s;
                                locals := l |} s2 (failed resp))
      as (_ & _ & _ & _ & (added & He & Hkept & Hadopt)).
    cbv zeta in *. cbn [conversationIdAtCall] in Hkept.
    exists (request s :: map ToastError toasts ++ added).
    split.
    { rewrite He, Hrep, Heff1, <- !app_assoc. done. }
    rewrite Hconv, Hconv1 in Hkept, Hadopt.
    destruct (truthy (currentConversationId s)).
    + destruct (Hkept (or_introl eq_refl)) as [-> Hno]. split; [done|].
      intros H. apply elem_of_cons in H as [H|H]; [discriminate H|].
      apply elem_of_app in H as [H|H]; [|done].
      apply list_elem_of_fmap in H as (? & H & _). discriminate H.
    + destruct Hadopt as [->|[Ht Hin]]; [by left|]. right. split; [done|].
      apply elem_of_cons. right. apply elem_of_app. by right.
  - exists []. unfold sendMessage. rewrite Hsend, app_nil_r.
    split; [done|].
    destruct (truthy (currentConversationId s)); [|by left].
    split; [done|apply not_elem_of_nil].
Qed.

End AfterSend.

(** ** Which steps of the session add messages *)

Section Growth.
Import Chat Message Stream.

Lemma left_behind_length a l l' :
  left_behind a l l' → (length l' ≤ length l)%nat.
Proof.
  assert (∀ k, length (finalise_in a k) = length k) as Hfin
    by (intros k; apply length_map).
  assert (∀ k, (length (discard_in a k) ≤ length k)%nat) as Hdis
    by (intros k; apply length_filter).
  intros [-> | [-> | [-> | ->]]]; [lia|by rewrite Hfin|apply Hdis|].
  specialize (Hdis (finalise_in a l)). rewrite Hfin in Hdis. lia.
Qed.

(** X10.  Messages are added by the start of a send (the user message
    and the placeholder) and by a loaded conversation, and by nothing
    else: typing, selecting, a chunk of a stream, the end of a run,
    successful or not, and a new conversation never make the list
    longer.  So a reply that is still streaming when the user starts a
    new conversation does not show up in it. *)
Theorem messages_added_by_send_only (x y : Session) :
  step x y →
  (length (messages (ui y)) ≤ length (messages (ui x)))%nat
  ∨ (∃ now a, begin now (ui x) = (a, ui y)
              ∧ length (messages (ui y)) = (length (messages (ui x)) + 2)%nat)
  ∨ (∃ msgs, ui y = loadMessages msgs (ui x)).
Proof.
  intros Hstep. destruct Hstep as
    [x text Hcr|x account Hcr|x conv Hcr|x Hcr|x msgs Hall
    |x now a s' Hcr Hld Hcan Hb|x before a after value l' s' Hfl Hchunk
    |x before a after Hfl|x before a after Hfl]; cbn [ui].
  - left. by destruct (ui x) as [? ? ? ? ? ? ? []].
  - left. by destruct (ui x) as [? ? ? ? ? ? ? []].
  - left. by destruct (ui x) as [? ? ? ? ? ? ? []].
  - left. destruct (ui x) as [? ? ? ? ? ? ? []]; cbn; lia.
  - right. right. by exists msgs.
  - right. left. exists now, a. split; [done|].
    assert (s' = (begin now (ui x)).2) as -> by (by rewrite Hb).
    rewrite (begin_state now (ui x) Hcr). cbn [messages].
    rewrite length_app. done.
  - left.
    pose proof (process_chunk_advances (tempAssistantMsgId a)
                  (locals a, ui x) value) as Hadv.
    rewrite Hchunk in Hadv. cbn [fst snd] in Hadv.
    destruct Hadv as (_ & _ & _ & _ & _ & _ & Htouch).
    by rewrite (Forall2_length _ _ _ Htouch).
  - left. apply (left_behind_length a), settle_finalize.
  - left. apply (left_behind_length a), settle_thrown.
Qed.

Lemma messages_added_by_send_only_witness :
  (length (messages (startNewConversation (ui Sample.sending)))
   ≤ length (messages (ui Sample.sending)))%nat
  ∨ (∃ now a, begin now (ui Sample.sending)
              = (a, startNewConversation (ui Sample.sending))
              ∧ length (messages (startNewConversation (ui Sample.sending)))
                = (length (messages (ui Sample.sending)) + 2)%nat)
  ∨ (∃ msgs, startNewConversation (ui Sample.sending)
             = loadMessages msgs (ui Sample.sending)).
Proof.
  exact (messages_added_by_send_only Sample.sending
           {| ui := startNewConversation (ui Sample.sending);
              inflight := inflight Sample.sending |}
           (step_new Sample.sending eq_refl)).
Defined.

End Growth.

(** ** The analysis log *)

Section AnalysisLog.
Import Chat Message Stream.

Lemma logs_extend_refl l : logs_extend l l.
Proof.
  apply Forall_Forall2_diag, Forall_forall. intros m _. exists [].
  by rewrite app_nil_r.
Qed.

Lemma logs_extend_trans l1 l2 l3 :
  logs_extend l1 l2 → logs_extend l2 l3 → logs_extend l1 l3.
Proof.
  intros H12 H23. eapply Forall2_trans; [|exact H12|exact H23].
  intros m1 m2 m3 [k1 H1] [k2 H2]. exists (k1 ++ k2).
  by rewrite H2, H1, app_assoc.
Qed.

Lemma logs_update msgId (f : Message.t → option Message.t) s :
  (∀ m m', f m = Some m' → ∃ more, logOf m' = logOf m ++ more) →
  logs_extend (messages s) (messages (setMessages (updateMessage msgId f) s)).
Proof.
  intros Hf. unfold setMessages.
  destruct (crashed s); [apply logs_extend_refl|].
  destruct (updateMessage msgId f (messages s)) as [l|] eqn:Hu;
    [|apply logs_extend_refl].
  cbn [messages]. unfold updateMessage in Hu. apply mapM_Some in Hu.
  refine (Forall2_impl _ _ _ _ Hu _). intros m m' Hm. cbn in Hm.
  destruct (Message.id m =? msgId); [by apply Hf|].
  injection Hm as <-. exists []. by rewrite app_nil_r.
Qed.

Lemma logs_event ty data msgId (l l' : Locals) s s' :
  handleSSEEvent ty data msgId onUpdate (l, s) = Some (l', s') →
  logs_extend (messages s) (messages s').
Proof.
  unfold handleSSEEvent. intros H.
  repeat (case_match; simplify_option_eq);
    try apply logs_extend_refl;
    apply logs_update; intros m m' Hm; simplify_option_eq;
    first [by exists []; rewrite app_nil_r | by eexists [_]].
Qed.

Lemma log_update_exact msgId kind (f : Message.t → option Message.t) s :
  (∀ m m', f m = Some m' →
           ∃ e, type e = kind ∧ logOf m' = logOf m ++ [e]) →
  crashed (setMessages (updateMessage msgId f) s) = false →
  Forall2 (fun m m' =>
             if Message.id m =? msgId
             then ∃ e, type e = kind ∧ logOf m' = logOf m ++ [e]
             else m' = m)
    (messages s) (messages (setMessages (updateMessage msgId f) s)).
Proof.
  intros Hf. unfold setMessages.
  destruct (crashed s) eqn:E; [congruence|].
  destruct (updateMessage msgId f (messages s)) as [k|] eqn:Hu; [|done].
  intros _. cbn [messages]. unfold updateMessage in Hu. apply mapM_Some in Hu.
  refine (Forall2_impl _ _ _ _ Hu _). intros m m' Hm. cbn in Hm.
  destruct (Message.id m =? msgId); [by apply Hf|]. by injection Hm.
Qed.

Ltac eval_streq :=
  repeat match goal with
         | |- context [streq (js ?a) (js ?b)] =>
             let v := eval vm_compute in (streq (js a) (js b)) in
             change (streq (js a) (js b)) with v
         end.

(** X11.  The analysis log is append-only.  Whatever a stream holds,
    reading it leaves in every message the log entries the message had,
    in their order, possibly followed by new ones, and finalising the
    placeholder keeps its log.  A [reasoning], [tool_call] or
    [tool_result] event that is handled in a modal that stays mounted
    adds exactly one entry, of its own kind, to the messages with the
    placeholder id and leaves every other message as it was. *)
Theorem analysis_log_append_only (msgId : Z) (chunks : list (list byte))
    (st : Locals * State) (a : Activation) :
  logs_extend (messages st.2) (messages (read_loop msgId chunks st).2)
  ∧ logs_extend (messages st.2) (finalise_in a (messages st.2))
  ∧ ∀ ty kind data l' s',
      entryType ty = Some kind →
      handleSSEEvent ty data msgId onUpdate st = Some (l', s') →
      crashed s' = false →
      Forall2 (fun m m' =>
                 if Message.id m =? msgId
                 then ∃ e, type e = kind ∧ logOf m' = logOf m ++ [e]
                 else m' = m) (messages st.2) (messages s').
Proof.
  split; [|split].
  - apply (read_loop_keeps
             (fun s s' => logs_extend (messages s) (messages s'))).
    + intros s. apply logs_extend_refl.
    + intros s1 s2 s3. apply logs_extend_trans.
    + intros ty data m l l' s s'. apply logs_event.
  - unfold finalise_in, logs_extend. apply Forall2_fmap_r.
    apply Forall_Forall2_diag, Forall_forall. intros m _. exists [].
    rewrite app_nil_r. by destruct (Message.id m =? tempAssistantMsgId a).
  - intros ty kind data l' s' Hkind. destruct st as [l s]. cbn [fst snd].
    unfold entryType in Hkind.
    destruct (streq ty (js "reasoning")) eqn:E1;
      [|destruct (streq ty (js "tool_call")) eqn:E2;
        [|destruct (streq ty (js "tool_result")) eqn:E3; [|done]]];
      injection Hkind as <-;
      match goal with
      | E : streq ty _ = true |- _ =>
          apply bool_decide_eq_true in E; subst ty
      end;
      unfold handleSSEEvent; eval_streq; cbv iota.
    + destruct (get data (js "content")) as [c|]; cbn [mbind option_bind]; [|done].
      intros Hev. apply (inj Some), (f_equal snd) in Hev. cbn [snd] in Hev.
      subst s'. apply log_update_exact. intros m m' Hm.
      revert Hm.
      destruct (@mbind option _ jsval (list N) ToString
                  (slice80 (or_else c (VStr []))));
        cbn [mbind option_bind]; [|done].
      intros Hm. apply (inj Some) in Hm. subst m'.
      eexists. split; [|reflexivity]. reflexivity.
    + destruct (get data (js "name")) as [nm|]; cbn [mbind option_bind]; [|done].
      destruct (get data (js "arguments")) as [args|]; cbn [mbind option_bind]; [|done].
      intros Hev. apply (inj Some), (f_equal snd) in Hev. cbn [snd] in Hev.
      subst s'. apply log_update_exact. intros m m' Hm.
      revert Hm. destruct (ToString nm); cbn [mbind option_bind]; [|done].
      intros Hm. apply (inj Some) in Hm. subst m'.
      eexists. split; [|reflexivity]. reflexivity.
    + destruct (get data (js "name")) as [nm|]; cbn [mbind option_bind]; [|done].
      destruct (get data (js "result")) as [res|]; cbn [mbind option_bind]; [|done].
      intros Hev. apply (inj Some), (f_equal snd) in Hev. cbn [snd] in Hev.
      subst s'. apply log_update_exact. intros m m' Hm.
      revert Hm. destruct (ToString nm); cbn [mbind option_bind]; [|done].
      intros Hm. apply (inj Some) in Hm. subst m'.
      eexists. split; [|reflexivity]. reflexivity.
Qed.

End AnalysisLog.

(** ** The configs a run hands to the panel *)

Section FinalConfigs.
Import Chat Message Stream.

Lemma round_half_even_ge (n d : Z) : 0 < d → n / d <= round_half_even n d.
Proof.
  intros Hd. unfold round_half_even.
  destruct (2 * (n mod d) ?= d); [destruct (Z.even (n / d))|..]; lia.
Qed.

(** The Number of a positive integer is above zero. *)
Lemma of_ratio_positive (p : Z) : 0 < p → isPositive (of_ratio false p 1) = true.
Proof.
  intros Hp. unfold of_ratio.
  assert (log2_ratio p 1 = Z.log2 p) as ->.
  { unfold log2_ratio. change (Z.log2 1) with 0. rewrite Z.sub_0_r.
    pose proof (Z.log2_nonneg p) as Hnn.
    destruct (Z.leb_spec 0 (Z.log2 p)); [|lia].
    destruct (Z.leb_spec (1 * 2 ^ Z.log2 p) p) as [|Hlt]; [done|].
    pose proof (Z.log2_spec p Hp). lia. }
  pose proof (Z.log2_nonneg p) as Hnn.
  rewrite Z.max_l by lia.
  set (sh := Z.log2 p - 52).
  set (m := if 0 <=? sh then round_half_even p (1 * 2 ^ sh)
            else round_half_even (p * 2 ^ (- sh)) 1).
  assert (0 < m) as Hm.
  { subst m. destruct (Z.leb_spec 0 sh) as [Hsh|Hsh].
    - pose proof (round_half_even_ge p (1 * 2 ^ sh)) as Hge.
      assert (0 < 2 ^ sh) by (apply Z.pow_pos_nonneg; lia).
      specialize (Hge ltac:(lia)).
      assert (2 ^ 52 <= p / (1 * 2 ^ sh)); [|lia].
      apply Z.div_le_lower_bound; [lia|].
      pose proof (Z.log2_spec p Hp) as [Hlow _].
      replace (Z.log2 p) with (sh + 52) in Hlow by (subst sh; lia).
      rewrite Z.pow_add_r in Hlow by lia. lia.
    - pose proof (round_half_even_ge (p * 2 ^ (- sh)) 1 ltac:(lia)) as Hge.
      rewrite Z.div_1_r in Hge.
      assert (0 < 2 ^ (- sh)) by (apply Z.pow_pos_nonneg; lia).
      nia. }
  destruct (Z.eqb_spec m (2 ^ 53)) as [_|_].
  - destruct (972 <=? sh + 1); [done|]. reflexivity.
  - destruct (972 <=? sh); [done|].
    destruct (Z.eqb_spec m 0) as [|_]; [lia|]. cbn.
    destruct (N.eqb_spec (Z.to_N m) 0); [lia|done].
Qed.

Lemma array_length_positive (elems : list jsval) :
  (get (VArr elems) (js "length") ≫= gt_zero)
  = Some (negb (bool_decide (elems = []))).
Proof.
  destruct elems as [|e elems]; [reflexivity|].
  change (get (VArr (e :: elems)) (js "length") ≫= gt_zero)
    with (Some (isPositive
                  (of_decimal false (N.of_nat (length (e :: elems))) 0))).
  f_equal. unfold of_decimal.
  destruct (N.eqb_spec (N.of_nat (length (e :: elems))) 0) as [H|_];
    [cbn in H; lia|].
  change (0 <=? 0) with true. cbv iota. apply of_ratio_positive.
  cbn [length]. lia.
Qed.

(** X12.  The end of a stream whose accumulator holds an array (what a
    [signal_config] event, or a [done] event with an array, leaves
    there), when no updater has thrown before: the finalisation does not
    take the [catch] path, and the state it sets has the elements of the
    array appended to the list of the panel, each once and in their
    order (nothing is appended for the empty array), and the messages
    with the placeholder id, and no others, finalised with the array as
    their [signal_configs].  What the elements are plays no part, so
    this says nothing on whether the panel can render them. *)
Theorem final_configs_reach_panel (a : Activation) (s : State)
    (elems : list jsval) :
  finalSignalConfigs (locals a) = VArr elems →
  crashed s = false →
  ∃ s', finalize a s = Returned s'
        ∧ allSignalConfigs s' = allSignalConfigs s ++ elems
        ∧ messages s' = finalise_in a (messages s)
        ∧ ∀ m, m ∈ messages s' → Message.id m = tempAssistantMsgId a →
               signal_configs m = VArr elems ∧ isStreaming m = Some false.
Proof.
  intros Hacc Hcr. unfold finalize. rewrite finalize_messages, Hacc.
  rewrite array_length_positive. cbn [spread fmap option_fmap option_map].
  assert (∀ m, m ∈ finalise_in a (messages s) →
               Message.id m = tempAssistantMsgId a →
               signal_configs m = VArr elems ∧ isStreaming m = Some false)
    as Hfin.
  { intros m Hin Hid. unfold finalise_in in Hin.
    apply list_elem_of_fmap in Hin as (m0 & -> & _).
    destruct (Z.eqb_spec (Message.id m0) (tempAssistantMsgId a)) as [|Hne].
    - by rewrite Hacc.
    - done. }
  destruct s as [acc conv msgs input ld cfgs effs cr]. cbn in Hcr. subst cr.
  cbn [messages] in Hfin.
  destruct elems as [|e elems];
    destruct (negb (truthy (conversationIdAtCall a))
              && truthy (finalConversationId (locals a)));
    eexists; (split; [reflexivity|]); cbn -[finalise_in];
    rewrite ?app_nil_r; done.
Qed.

Lemma final_configs_reach_panel_witness :
  ∃ s', finalize {| tempUserMsgId := 1000; conversationIdAtCall := VNull;
                    locals := with_input TextDecoder.fresh []
                                (onUpdate {| u_content := VUndefined;
                                             u_signalConfigs :=
                                               VArr [Sample.cfg_a; Sample.cfg_b];
                                             u_conversationId := VUndefined;
                                             u_messageId := VUndefined |}
                                   locals0) |}
          (ui Sample.sending)
        = Returned s'
        ∧ allSignalConfigs s' = [Sample.cfg_a; Sample.cfg_b].
Proof.
  destruct (final_configs_reach_panel
              {| tempUserMsgId := 1000; conversationIdAtCall := VNull;
                 locals := with_input TextDecoder.fresh []
                             (onUpdate {| u_content := VUndefined;
                                          u_signalConfigs :=
                                            VArr [Sample.cfg_a; Sample.cfg_b];
                                          u_conversationId := VUndefined;
                                          u_messageId := VUndefined |}
                                locals0) |}
              (ui Sample.sending) [Sample.cfg_a; Sample.cfg_b]
              eq_refl eq_refl) as (s' & H1 & H2 & _).
  exists s'. split; [exact H1|exact H2].
Defined.

End FinalConfigs.

(** ** An error the server reports in the stream *)

Section ErrorEvent.
Import Chat Message Stream.

Ltac eval_streq :=
  repeat match goal with
         | |- context [streq (js ?a) (js ?b)] =>
             let v := eval vm_compute in (streq (js a) (js b)) in
             change (streq (js a) (js b)) with v
         end.

Lemma handle_error data msgId (l : Locals) s message :
  get data (js "message") = Some message →
  handleSSEEvent (js "error") data msgId onUpdate (l, s)
  = Some (l, perform (ToastError
                        (or_else message (VStr (js "AI generation failed")))) s).
Proof.
  intros Hg. unfold handleSSEEvent. eval_streq. cbv iota. by rewrite Hg.
Qed.

Lemma process_error_record msgId (l : Locals) s text data message :
  JSON.parse text = Some data → get data (js "message") = Some message →
  fold_left (process_line msgId) (record_lines (js "error") text) (l, s)
  = (with_currentEventType [] l,
     perform (ToastError (or_else message (VStr (js "AI generation failed"))))
       s).
Proof.
  intros Hp Hg. unfold record_lines. cbn [fold_left].
  rewrite process_event_line, process_data_line, Hp. cbn [fst snd].
  change (trim (js "error")) with (js "error").
  cbn [currentEventType with_currentEventType].
  by rewrite (handle_error _ _ _ _ _ Hg), process_blank_line.
Qed.

(** The end of a stream that set no accumulator. *)
Lemma finalize_empty (a : Activation) (s : State) :
  finalContent (locals a) = VStr [] →
  finalSignalConfigs (locals a) = VArr [] →
  finalConversationId (locals a) = VNull →
  finalize a s
  = Returned (setMessages (fun prev => Some (map (fun m =>
                if Message.id m =? tempUserMsgId a + 1
                then finalized (VStr []) (VArr []) m else m) prev)) s).
Proof.
  intros Hc Hs Hi. unfold finalize. rewrite finalize_messages.
  unfold finalise_in, tempAssistantMsgId. rewrite Hc, Hs, Hi.
  change (get (VArr []) (js "length") ≫= λ len, gt_zero len)
    with (Some false).
  change (truthy VNull) with false. by rewrite andb_false_r.
Qed.

(** X13.  A stream that consists of one [error] record, however it is
    cut into chunks, sent from a mounted modal: the message of the event
    (or "AI generation failed" when it has none) is shown as an error
    and nothing else is reported; the run does not take the [catch]
    path.  The user message stays, and the placeholder is finalised as
    an empty reply: it is the last message, with empty content, no
    configs, not streaming. *)
Theorem error_event_reported (chunks : list (list byte)) (now : Z) (s : State)
    (text : jsstring) (data message : jsval) (carry : option jsstring) :
  pop (split_lf (TextDecoder.decode TextDecoder.fresh (concat chunks)).2)
  = (record_lines (js "error") text, carry) →
  JSON.parse text = Some data →
  get data (js "message") = Some message →
  canSend s = true → crashed s = false →
  let s' := sendMessage now (ResponseBody chunks EndOfStream) s in
  effects s'
  = effects s
    ++ [request s;
        ToastError (or_else message (VStr (js "AI generation failed")))]
  ∧ last (messages s')
    = Some {| id := now + 1; role := assistant; content := VStr [];
              signal_configs := VArr []; isStreaming := Some false;
              statusText := VUndefined; analysisLog := None |}
  ∧ length (messages s') = (length (messages s) + 2)%nat
  ∧ loading s' = false.
Proof.
  intros Hlines Hp Hg Hsend Hcr s'. subst s'.
  unfold sendMessage. rewrite Hsend.
  pose proof (begin_state now s Hcr) as Hb.
  destruct (begin now s) as [a s1] eqn:Hbegin. cbn [snd] in Hb.
  assert (a = {| tempUserMsgId := now;
                 conversationIdAtCall := currentConversationId s;
                 locals := locals0 |}) as ->
    by (unfold begin in Hbegin; by injection Hbegin as <- _).
  unfold attempt, readAll, tempAssistantMsgId. cbn [locals tempUserMsgId].
  assert (∃ d b, read_loop (now + 1) chunks (locals0, s1)
                 = (with_input d b locals0,
                    perform (ToastError
                               (or_else message
                                  (VStr (js "AI generation failed")))) s1))
    as (d & b & ->).
  { rewrite read_loop_concat by done. rewrite process_chunk_unfold.
    cbn zeta. cbn [fst snd locals0 decoder buffer app]. rewrite Hlines.
    cbn [fst snd]. rewrite (process_error_record _ _ _ _ _ _ Hp Hg).
    eexists _, _. reflexivity. }
  rewrite finalize_empty by reflexivity. subst s1.
  unfold settle, finish.
  assert (messages s ++ [tempUserMsg now (trim (userInput s));
                         tempAssistantMsg now]
          = (messages s ++ [tempUserMsg now (trim (userInput s))])
              ++ [tempAssistantMsg now]) as Happ by (by rewrite <- app_assoc).
  cbn -[js trim]. rewrite Happ, map_app.
  cbn [map tempAssistantMsg Message.id finalized role analysisLog].
  rewrite Z.eqb_refl, last_snoc, length_app, length_map, length_app.
  cbn [length]. rewrite <- app_assoc. cbn [app].
  repeat split; lia.
Qed.

Lemma error_event_reported_witness :
  effects (sendMessage 1000
             (ResponseBody [Sample.record "error" "{'message': 'quota'}"]
                           EndOfStream) Sample.ready)
  = [PostChatStream 3 (js "OI signal for BTC") VNull;
     ToastError (VStr (js "quota"))].
Proof.
  refine (proj1 (error_event_reported
                   [Sample.record "error" "{'message': 'quota'}"] 1000
                   Sample.ready (Sample.text "{'message': 'quota'}")
                   (VObj [(js "message", VStr (js "quota"))])
                   (VStr (js "quota")) (Some []) _ _ _ _ _));
    vm_compute; reflexivity.
Defined.

End ErrorEvent.

(** ** Number::toString of a safe integer *)

Section SafeIntegers.

Lemma round_half_even_one (n : Z) : round_half_even n 1 = n.
Proof.
  unfold round_half_even. rewrite Z.mod_1_r, Z.div_1_r. done.
Qed.

Lemma log2_ratio_one (n : Z) : 0 < n → log2_ratio n 1 = Z.log2 n.
Proof.
  intros Hn. unfold log2_ratio. change (Z.log2 1) with 0. rewrite Z.sub_0_r.
  pose proof (Z.log2_nonneg n) as HL.
  rewrite (proj2 (Z.leb_le 0 (Z.log2 n))) by done.
  rewrite Z.mul_1_l.
  rewrite (proj2 (Z.leb_le _ _)); [done|].
  by apply Z.log2_spec.
Qed.

(** A positive integer below 2^53 is a Number, exactly. *)
Lemma of_ratio_exact (neg : bool) (n : Z) :
  0 < n < 2 ^ 53 →
  of_ratio neg n 1
  = Finite neg (Z.to_N (n * 2 ^ (52 - Z.log2 n))) (Z.log2 n - 52).
Proof.
  intros [Hpos Hlt]. unfold of_ratio. rewrite log2_ratio_one by done.
  pose proof (Z.log2_nonneg n) as HL0.
  assert (Z.log2 n < 53) as HL by (by apply Z.log2_lt_pow2).
  destruct (Z.log2_spec n Hpos) as [Hlo Hhi].
  rewrite Z.max_l by lia.
  assert (0 < 2 ^ (52 - Z.log2 n)) as Hd by (apply Z.pow_pos_nonneg; lia).
  assert (n * 2 ^ (52 - Z.log2 n) < 2 ^ 53) as Hm.
  { replace (2 ^ 53) with (2 ^ (Z.succ (Z.log2 n)) * 2 ^ (52 - Z.log2 n)).
    - apply Z.mul_lt_mono_pos_r; done.
    - rewrite <- Z.pow_add_r by lia. f_equal. lia. }
  assert (0 < n * 2 ^ (52 - Z.log2 n)) as Hm0 by lia.
  destruct (Z.leb_spec 0 (Z.log2 n - 52)) as [Hsh|Hsh].
  - assert (Z.log2 n = 52) as HL52 by lia. rewrite HL52 in *.
    change (52 - 52) with 0 in *. change (2 ^ 0) with 1 in *.
    rewrite Z.mul_1_r in *. rewrite round_half_even_one.
    rewrite (proj2 (Z.eqb_neq n (2 ^ 53))) by lia.
    change (972 <=? 0) with false. cbv iota.
    rewrite (proj2 (Z.eqb_neq n 0)) by lia. by rewrite Z.mul_1_r.
  - replace (- (Z.log2 n - 52)) with (52 - Z.log2 n) by lia.
    rewrite round_half_even_one.
    rewrite (proj2 (Z.eqb_neq _ (2 ^ 53))) by lia.
    rewrite (proj2 (Z.leb_gt 972 _)) by lia.
    rewrite (proj2 (Z.eqb_neq _ 0)) by lia. done.
Qed.

(** What [of_ratio] gives for an integer, when the exponent it gives is
    not above zero, is that integer. *)
Lemma of_ratio_int_inv (v : Z) (b : bool) (m : N) (e : Z) :
  0 < v → of_ratio false v 1 = Finite b m e → e <= 0 → m ≠ 0%N →
  Z.of_N m = v * 2 ^ (- e).
Proof.
  intros Hpos. unfold of_ratio. rewrite log2_ratio_one by done.
  pose proof (Z.log2_nonneg v) as HL0.
  rewrite Z.max_l by lia.
  destruct (Z.leb_spec 0 (Z.log2 v - 52)) as [Hsh|Hsh].
  - rewrite Z.mul_1_l.
    destruct (Z.eqb_spec (round_half_even v (2 ^ (Z.log2 v - 52))) (2 ^ 53))
      as [Heq|Hne].
    + destruct (972 <=? Z.log2 v - 52 + 1); [done|]. cbn.
      intros [= _ <- <-] He. exfalso. clear -Hsh He. lia.
    + destruct (972 <=? Z.log2 v - 52); [done|].
      destruct (Z.eqb_spec (round_half_even v (2 ^ (Z.log2 v - 52))) 0);
        [by intros [= _ <- <-]|].
      intros [= _ <- <-] He _.
      assert (Z.log2 v - 52 = 0) as H0 by (clear -Hsh He; lia).
      rewrite H0 in *. change (2 ^ 0) with 1 in *.
      rewrite round_half_even_one in *.
      change (- 0) with 0. change (2 ^ 0) with 1. lia.
  - rewrite round_half_even_one.
    assert (0 < 2 ^ (- (Z.log2 v - 52))) by (apply Z.pow_pos_nonneg; lia).
    destruct (Z.eqb_spec (v * 2 ^ (- (Z.log2 v - 52))) (2 ^ 53)) as [Heq|Hne].
    + destruct (972 <=? Z.log2 v - 52 + 1); [done|]. cbn.
      intros [= _ <- <-]. intros He _.
      replace (- (Z.log2 v - 52 + 1)) with (- (Z.log2 v - 52) - 1) by lia.
      assert (2 ^ (- (Z.log2 v - 52))
              = 2 * 2 ^ (- (Z.log2 v - 52) - 1)) as Hp.
      { rewrite <- Z.pow_succ_r by lia. f_equal. lia. }
      rewrite Hp in Heq. change (2 ^ 53) with (2 * 2 ^ 52) in Heq.
      change (Z.pos (2 ^ 52)) with (2 ^ 52). lia.
    + destruct (972 <=? Z.log2 v - 52); [done|].
      destruct (Z.eqb_spec (v * 2 ^ (- (Z.log2 v - 52))) 0); [lia|].
      intros [= _ <- <-] _ _. rewrite Z2N.id by lia. done.
Qed.

End SafeIntegers.
Section DecimalDigits.

Lemma string_of_revapp (l acc : Decimal.uint) :
  js (NilEmpty.string_of_uint (Decimal.revapp l acc))
  = js (NilEmpty.string_of_uint (Decimal.revapp l Decimal.Nil))
    ++ js (NilEmpty.string_of_uint acc).
Proof.
  revert acc. induction l; intros acc; [done|..];
    cbn [Decimal.revapp]; rewrite IHl;
    match goal with
    | |- context [Decimal.revapp l (?D Decimal.Nil)] =>
        rewrite (IHl (D Decimal.Nil))
    end;
    rewrite <- app_assoc; reflexivity.
Qed.

Lemma string_of_uint_nonnil (d : Decimal.uint) :
  d ≠ Decimal.Nil → NilZero.string_of_uint d = NilEmpty.string_of_uint d.
Proof. by destruct d. Qed.

(** Ten times a positive number prints as the number followed by 0. *)
Lemma decimal_tenfold (m : N) :
  (0 < m)%N → decimal (10 * m) = decimal m ++ [48%N].
Proof.
  destruct m as [|p]; [lia|]. intros _. unfold decimal.
  change (10 * N.pos p)%N with (N.pos (10 * p)).
  cbn [N.to_uint].
  rewrite !string_of_uint_nonnil by apply DecimalPos.Unsigned.to_uint_nonnil.
  unfold Pos.to_uint, Decimal.rev.
  pose proof (DecimalPos.Unsigned.to_ldec_tenfold p) as H10.
  change (10 * N.pos p)%N with (N.pos (10 * p)) in H10.
  cbn [DecimalPos.Unsigned.to_lu] in H10. rewrite H10.
  cbn [Decimal.revapp]. rewrite string_of_revapp. done.
Qed.

Lemma decimal_pow10 (s : Z) (j : nat) :
  0 < s →
  decimal (Z.to_N (s * 10 ^ Z.of_nat j)) = decimal (Z.to_N s) ++ repeat 48%N j.
Proof.
  intros Hs. induction j as [|j IH].
  - rewrite Z.mul_1_r. cbn [repeat]. by rewrite app_nil_r.
  - rewrite Nat2Z.inj_succ, Z.pow_succ_r by lia.
    replace (s * (10 * 10 ^ Z.of_nat j)) with (10 * (s * 10 ^ Z.of_nat j))
      by lia.
    assert (0 < s * 10 ^ Z.of_nat j) by (apply Z.mul_pos_pos; [done|apply Z.pow_pos_nonneg; lia]).
    rewrite Z2N.inj_mul by lia. change (Z.to_N 10) with 10%N.
    rewrite decimal_tenfold by lia. rewrite IH.
    rewrite <- app_assoc. f_equal.
    change [48%N] with (repeat 48%N 1). rewrite <- repeat_app.
    f_equal. lia.
Qed.

End DecimalDigits.
Section SafeToString.

Lemma estimate_table (L : Z) :
  0 <= L <= 52 →
  0 <= L * 30103 / 100000
  ∧ 10 ^ (L * 30103 / 100000) <= 2 ^ L
  ∧ 2 ^ (L + 1) <= 10 ^ (L * 30103 / 100000 + 2).
Proof.
  intros HL.
  assert (List.forallb
            (fun L => (0 <=? L * 30103 / 100000)
                      && (10 ^ (L * 30103 / 100000) <=? 2 ^ L)
                      && (2 ^ (L + 1) <=? 10 ^ (L * 30103 / 100000 + 2)))
            (List.map Z.of_nat (List.seq 0 53)) = true) as Htab
    by (vm_compute; reflexivity).
  rewrite List.forallb_forall in Htab. specialize (Htab L).
  assert (List.In L (List.map Z.of_nat (List.seq 0 53))) as Hin.
  { apply List.in_map_iff. exists (Z.to_nat L). split; [lia|].
    apply List.in_seq. lia. }
  apply Htab in Hin. apply andb_true_iff in Hin as [Hin H3].
  apply andb_true_iff in Hin as [H1 H2].
  apply Z.leb_le in H1, H2, H3. done.
Qed.

Lemma log2_ratio_scaled (n j : Z) :
  0 < n → 0 <= j → log2_ratio (n * 2 ^ j) (2 ^ j) = Z.log2 n.
Proof.
  intros Hn Hj. unfold log2_ratio.
  rewrite Z.log2_mul_pow2, Z.log2_pow2 by lia.
  replace (j + Z.log2 n - j) with (Z.log2 n) by lia.
  pose proof (Z.log2_nonneg n) as HL.
  rewrite (proj2 (Z.leb_le 0 (Z.log2 n))) by done.
  rewrite (proj2 (Z.leb_le _ _)); [done|].
  rewrite (Z.mul_comm n). apply Z.mul_le_mono_nonneg_l.
  - apply Z.pow_nonneg. lia.
  - by apply Z.log2_spec.
Qed.

(** The position of the decimal point of a positive integer below 2^53:
    the number of its digits. *)
Lemma point_position_int (n j : Z) :
  0 < n < 2 ^ 53 → 0 <= j →
  10 ^ (point_position (n * 2 ^ j) (2 ^ j) - 1) <= n
  ∧ n < 10 ^ point_position (n * 2 ^ j) (2 ^ j)
  ∧ 1 <= point_position (n * 2 ^ j) (2 ^ j) <= 16.
Proof.
  intros [Hpos Hlt] Hj.
  assert (0 < 2 ^ j) as Hd by (apply Z.pow_pos_nonneg; lia).
  pose proof (Z.log2_nonneg n) as HL0.
  assert (Z.log2 n < 53) as HL by (by apply Z.log2_lt_pow2).
  destruct (Z.log2_spec n Hpos) as [Hlo Hhi].
  destruct (estimate_table (Z.log2 n)) as (He0 & Hte & Hth); [lia|].
  replace (Z.succ (Z.log2 n)) with (Z.log2 n + 1) in Hhi by lia.
  assert (∀ t, 0 <= t →
            (2 ^ j * 10 ^ t <=? n * 2 ^ j) = (10 ^ t <=? n)) as Hge.
  { intros t Ht. rewrite (Z.mul_comm n).
    destruct (Z.leb_spec (10 ^ t) n) as [H|H].
    - apply Z.leb_le. by apply Z.mul_le_mono_nonneg_l; [lia|].
    - apply Z.leb_gt. by apply Z.mul_lt_mono_pos_l. }
  assert (∀ nn, 10 ^ (nn - 1) <= n → 1 <= nn → nn <= 16) as H16.
  { intros nn Hnn H1.
    assert (10 ^ (nn - 1) < 10 ^ 16) as Hp by (change (10 ^ 16) with 10000000000000000; lia).
    apply Z.pow_lt_mono_r_iff in Hp; lia. }
  unfold point_position. rewrite log2_ratio_scaled by lia.
  set (est := Z.log2 n * 30103 / 100000) in *.
  rewrite (proj2 (Z.leb_le 0 (est + 1))) by lia. rewrite Hge by lia.
  destruct (Z.leb_spec (10 ^ (est + 1)) n) as [H1|H1].
  - replace (est + 2 - 1) with (est + 1) by lia.
    split; [done|]. split; [lia|]. split; [lia|]. apply H16; [|lia].
    by replace (est + 2 - 1) with (est + 1) by lia.
  - rewrite (proj2 (Z.leb_le 0 est)) by lia. rewrite Hge by lia.
    rewrite (proj2 (Z.leb_le (10 ^ est) n)) by lia.
    replace (est + 1 - 1) with est by lia.
    split; [lia|]. split; [done|]. split; [lia|]. apply H16; [|lia].
    replace (est + 1 - 1) with est by lia. lia.
Qed.

(** A decimal of an integer value stands for the integer exactly when it
    is the integer. *)
Lemma represents_int (neg : bool) (n s nn k dist : Z) :
  0 < n < 2 ^ 53 → 0 < s → k <= nn →
  represents (Finite neg (Z.to_N (n * 2 ^ (52 - Z.log2 n))) (Z.log2 n - 52))
    (s, nn, dist) k
  = bool_decide (s * 10 ^ (nn - k) = n).
Proof.
  intros Hn Hs Hk. unfold represents, of_decimal.
  pose proof (Z.log2_nonneg n) as HL0.
  assert (Z.log2 n < 53) as HL by (apply Z.log2_lt_pow2; lia).
  assert (0 < 2 ^ (52 - Z.log2 n)) as Hd by (apply Z.pow_pos_nonneg; lia).
  assert (0 < 10 ^ (nn - k)) as H10 by (apply Z.pow_pos_nonneg; lia).
  rewrite (proj2 (N.eqb_neq (Z.to_N s) 0)) by lia.
  rewrite (proj2 (Z.leb_le 0 (nn - k))) by lia.
  rewrite Z2N.id by lia.
  assert (0 < s * 10 ^ (nn - k)) as Hv by (by apply Z.mul_pos_pos).
  case_bool_decide as Heq.
  - rewrite Heq, (of_ratio_exact false n Hn). by rewrite N.eqb_refl, Z.eqb_refl.
  - destruct (of_ratio false (s * 10 ^ (nn - k)) 1) as [b m' e'|b] eqn:E;
      [|done].
    apply andb_false_iff.
    destruct (N.eqb_spec (Z.to_N (n * 2 ^ (52 - Z.log2 n))) m') as [Hm|Hm];
      [|by left].
    destruct (Z.eqb_spec (Z.log2 n - 52) e') as [He|He]; [|by right].
    exfalso. apply Heq.
    assert (Z.of_N m' = s * 10 ^ (nn - k) * 2 ^ (- e')) as Hinv.
    { apply (of_ratio_int_inv _ b); [done|done|lia|].
      rewrite <- Hm. intros H0. apply (f_equal Z.of_N) in H0.
      rewrite Z2N.id in H0 by lia. cbn in H0. lia. }
    rewrite <- Hm, <- He in Hinv. rewrite Z2N.id in Hinv by lia.
    replace (- (Z.log2 n - 52)) with (52 - Z.log2 n) in Hinv by lia.
    apply Z.mul_reg_r in Hinv; lia.
Qed.

End SafeToString.
Section SafeToStringLoop.

Lemma candidates_int (n j k : Z) :
  0 < n < 2 ^ 53 → 0 <= j →
  1 <= k <= point_position (n * 2 ^ j) (2 ^ j) →
  ∃ dlo shi nhi dhi,
    candidates (n * 2 ^ j) (2 ^ j) k
    = [(n / 10 ^ (point_position (n * 2 ^ j) (2 ^ j) - k),
        point_position (n * 2 ^ j) (2 ^ j), dlo);
       (shi, nhi, dhi)]
    ∧ 0 < shi ∧ k <= nhi
    ∧ shi * 10 ^ (nhi - k)
      = (n / 10 ^ (point_position (n * 2 ^ j) (2 ^ j) - k) + 1)
        * 10 ^ (point_position (n * 2 ^ j) (2 ^ j) - k).
Proof.
  intros Hn Hj.
  destruct (point_position_int n j Hn Hj) as (Hlo & Hhi & Hnn).
  unfold candidates.
  set (nn := point_position (n * 2 ^ j) (2 ^ j)) in *. intros Hk.
  assert (0 < 2 ^ j) as Hd by (apply Z.pow_pos_nonneg; lia).
  assert (0 < 10 ^ (nn - k)) as H10 by (apply Z.pow_pos_nonneg; lia).
  assert (0 < 10 ^ (k - 1)) as H10k by (apply Z.pow_pos_nonneg; lia).
  assert (10 ^ (nn - 1) = 10 ^ (k - 1) * 10 ^ (nn - k)) as Hsplit.
  { rewrite <- Z.pow_add_r by lia. f_equal. lia. }
  assert (10 ^ nn = 10 ^ k * 10 ^ (nn - k)) as Hsplit2.
  { rewrite <- Z.pow_add_r by lia. f_equal. lia. }
  assert ((if 0 <=? k - nn then n * 2 ^ j * 10 ^ (k - nn) else n * 2 ^ j)
          / (if 0 <=? k - nn then 2 ^ j else 2 ^ j * 10 ^ (- (k - nn)))
          = n / 10 ^ (nn - k)) as Hdiv.
  { destruct (Z.leb_spec 0 (k - nn)).
    - assert (k = nn) as -> by lia.
      replace (nn - nn) with 0 by lia. change (10 ^ 0) with 1.
      rewrite Z.mul_1_r, Z.div_1_r. apply Z.div_mul. lia.
    - replace (- (k - nn)) with (nn - k) by lia.
      rewrite (Z.mul_comm n). apply Z.div_mul_cancel_l; lia. }
  rewrite !Hdiv.
  assert (10 ^ (k - 1) <= n / 10 ^ (nn - k)) as Hlow.
  { apply Z.div_le_lower_bound; [done|]. rewrite Z.mul_comm. lia. }
  rewrite (proj2 (Z.ltb_ge _ _) Hlow).
  destruct (Z.eqb_spec (n / 10 ^ (nn - k) + 1) (10 ^ k)) as [Heq|Hne].
  - eexists _, _, _, _. split; [reflexivity|]. split; [done|]. split; [lia|].
    rewrite Heq, <- Hsplit2.
    rewrite <- Z.pow_add_r by lia. f_equal. lia.
  - eexists _, _, _, _. split; [reflexivity|]. split; [lia|]. split; [lia|].
    done.
Qed.

(** The search for the shortest digits of a positive integer below 2^53
    ends on digits that denote the integer exactly. *)
Lemma shortest_int (neg : bool) (n : Z) (fuel : nat) (k : Z) :
  0 < n < 2 ^ 53 →
  1 <= k <= point_position (n * 2 ^ (52 - Z.log2 n)) (2 ^ (52 - Z.log2 n)) →
  (Z.to_nat (point_position (n * 2 ^ (52 - Z.log2 n)) (2 ^ (52 - Z.log2 n)) - k)
   < fuel)%nat →
  ∃ s k',
    shortest fuel
      (Finite neg (Z.to_N (n * 2 ^ (52 - Z.log2 n))) (Z.log2 n - 52))
      (n * 2 ^ (52 - Z.log2 n)) (2 ^ (52 - Z.log2 n)) k
    = (s, point_position (n * 2 ^ (52 - Z.log2 n)) (2 ^ (52 - Z.log2 n)), k')
    ∧ k <= k'
      <= point_position (n * 2 ^ (52 - Z.log2 n)) (2 ^ (52 - Z.log2 n))
    ∧ 0 < s
    ∧ s * 10 ^ (point_position (n * 2 ^ (52 - Z.log2 n))
                  (2 ^ (52 - Z.log2 n)) - k') = n.
Proof.
  intros Hn.
  pose proof (Z.log2_nonneg n) as HL0.
  assert (Z.log2 n < 53) as HL by (apply Z.log2_lt_pow2; lia).
  assert (0 <= 52 - Z.log2 n) as Hj by lia.
  destruct (point_position_int n _ Hn Hj) as (Hlo & Hhi & Hnn).
  set (j := 52 - Z.log2 n) in *.
  set (nn := point_position (n * 2 ^ j) (2 ^ j)) in *.
  revert k. induction fuel as [|fuel IH]; intros k Hk Hfuel; [lia|].
  cbn [shortest].
  destruct (candidates_int n j k Hn Hj Hk)
    as (dlo & shi & nhi & dhi & -> & Hshi & Hnhi & Hval).
  fold nn in Hval |- *.
  assert (0 < 10 ^ (nn - k)) as H10 by (apply Z.pow_pos_nonneg; lia).
  assert (0 < 10 ^ (k - 1)) as H10k by (apply Z.pow_pos_nonneg; lia).
  assert (10 ^ (k - 1) <= n / 10 ^ (nn - k)) as Hlow.
  { apply Z.div_le_lower_bound; [done|]. rewrite <- Z.pow_add_r by lia.
    replace (nn - k + (k - 1)) with (nn - 1) by lia. done. }
  assert (n < (n / 10 ^ (nn - k) + 1) * 10 ^ (nn - k)) as Hgt.
  { rewrite Z.mul_comm. apply Z.mul_succ_div_gt. done. }
  rewrite !filter_cons, filter_nil.
  destruct (decide (represents _ (shi, nhi, dhi) k = true)) as [Hr2|Hr2].
  { rewrite represents_int in Hr2 by lia.
    apply bool_decide_eq_true in Hr2. lia. }
  destruct (decide (represents _ (n / 10 ^ (nn - k), nn, dlo) k = true))
    as [Hr1|Hr1].
  - rewrite represents_int in Hr1 by lia. apply bool_decide_eq_true in Hr1.
    exists (n / 10 ^ (nn - k)), k. split; [done|]. split; [lia|].
    split; [lia|done].
  - rewrite represents_int in Hr1 by lia.
    apply not_true_is_false, bool_decide_eq_false in Hr1.
    assert (k < nn) as Hlt.
    { destruct (decide (k = nn)) as [->|]; [|lia]. exfalso. apply Hr1.
      replace (nn - nn) with 0 by lia. change (10 ^ 0) with 1.
      rewrite Z.div_1_r. lia. }
    destruct (IH (k + 1)) as (s & k' & -> & Hk' & Hs & Hv); [lia|lia|].
    exists s, k'. split; [done|]. split; [lia|]. done.
Qed.

(** Number::toString of a positive integer below 2^53 prints its
    digits. *)
Lemma toString_safe (neg : bool) (n : Z) :
  0 < n < 2 ^ 53 →
  toString (of_decimal neg (Z.to_N n) 0)
  = (if neg then js "-" else []) ++ decimal (Z.to_N n).
Proof.
  intros Hn. unfold of_decimal.
  rewrite (proj2 (N.eqb_neq (Z.to_N n) 0)) by lia.
  change (0 <=? 0) with true. cbv iota.
  rewrite Z2N.id by lia. change (10 ^ 0) with 1. rewrite Z.mul_1_r.
  rewrite (of_ratio_exact neg n Hn).
  pose proof (Z.log2_nonneg n) as HL0.
  assert (Z.log2 n < 53) as HL by (apply Z.log2_lt_pow2; lia).
  assert (0 <= 52 - Z.log2 n) as Hj by lia.
  assert (0 < 2 ^ (52 - Z.log2 n)) as Hd by (apply Z.pow_pos_nonneg; lia).
  destruct (point_position_int n _ Hn Hj) as (Hlo & Hhi & Hnn).
  unfold toString.
  rewrite (proj2 (N.eqb_neq (Z.to_N (n * 2 ^ (52 - Z.log2 n))) 0)) by lia.
  rewrite Z2N.id by lia.
  assert ((if 0 <=? Z.log2 n - 52
           then n * 2 ^ (52 - Z.log2 n) * 2 ^ (Z.log2 n - 52)
           else n * 2 ^ (52 - Z.log2 n)) = n * 2 ^ (52 - Z.log2 n)) as ->.
  { destruct (Z.leb_spec 0 (Z.log2 n - 52)); [|done].
    replace (Z.log2 n - 52) with 0 by lia. change (2 ^ 0) with 1. lia. }
  assert ((if 0 <=? Z.log2 n - 52 then 1 else 2 ^ (- (Z.log2 n - 52)))
          = 2 ^ (52 - Z.log2 n)) as ->.
  { destruct (Z.leb_spec 0 (Z.log2 n - 52)).
    - replace (52 - Z.log2 n) with 0 by lia. done.
    - f_equal. lia. }
  destruct (shortest_int neg n 17 1 Hn) as (s & k & -> & Hk & Hs & Hv);
    [lia|lia|].
  set (nn := point_position _ _) in *.
  f_equal. unfold format.
  rewrite (proj2 (Z.leb_le k nn)) by lia.
  rewrite (proj2 (Z.leb_le nn 21)) by lia. cbn [andb]. unfold zeros.
  rewrite <- decimal_pow10 by done. rewrite Z2Nat.id by lia. by rewrite Hv.
Qed.

End SafeToStringLoop.

(** ** Ids as the values of the select items *)

Section Integers.

Ltac eval_ascii :=
  repeat match goal with
         | |- context [N_of_ascii ?a] =>
             let v := eval vm_compute in (N_of_ascii a) in
             change (N_of_ascii a) with v
         end.

Ltac eval_digit :=
  repeat match goal with
         | |- context [digit_of 10 ?c] =>
             let v := eval vm_compute in (digit_of 10 c) in
             change (digit_of 10 c) with v
         end.

Lemma js_cons (a : ascii) (s : string) :
  js (String a s) = N_of_ascii a :: js s.
Proof. reflexivity. Qed.

Lemma digits_of_uint_acc (d : Decimal.uint) (p : positive) :
  fold_left (fun acc d => (acc * 10 + d)%N)
    (Int.digits 10 (js (NilEmpty.string_of_uint d))) (N.pos p)
  = N.pos (Pos.of_uint_acc d p).
Proof.
  revert p. induction d; intros p; [done|..];
    cbn [NilEmpty.string_of_uint]; rewrite js_cons; eval_ascii;
    cbn [Int.digits]; eval_digit; cbv iota; cbn [fold_left Pos.of_uint_acc];
    rewrite <- IHd; f_equal; lia.
Qed.

Lemma digits_of_uint (d : Decimal.uint) :
  fold_left (fun acc d => (acc * 10 + d)%N)
    (Int.digits 10 (js (NilEmpty.string_of_uint d))) 0%N
  = N.of_uint d.
Proof.
  induction d; [done|..];
    cbn [NilEmpty.string_of_uint]; rewrite js_cons; eval_ascii;
    cbn [Int.digits]; eval_digit; cbv iota; cbn [fold_left];
    first [exact IHd | apply digits_of_uint_acc].
Qed.

Lemma uint_all_digits (d : Decimal.uint) :
  Forall (fun c => isDigit c = true) (js (NilEmpty.string_of_uint d)).
Proof.
  induction d; [constructor|..];
    cbn [NilEmpty.string_of_uint]; rewrite js_cons; eval_ascii;
    by constructor.
Qed.

Lemma decimal_digits (n : N) :
  Forall (fun c => isDigit c = true) (decimal n) ∧ decimal n ≠ []
  ∧ fold_left (fun acc d => (acc * 10 + d)%N) (Int.digits 10 (decimal n)) 0%N
    = n.
Proof.
  unfold decimal.
  assert (N.to_uint n ≠ Decimal.Nil) as Hnn
    by (destruct n; [done|apply DecimalPos.Unsigned.to_uint_nonnil]).
  assert (NilZero.string_of_uint (N.to_uint n)
          = NilEmpty.string_of_uint (N.to_uint n)) as ->
    by (by destruct (N.to_uint n)).
  split; [apply uint_all_digits|]. split.
  - by destruct (N.to_uint n).
  - rewrite digits_of_uint. apply DecimalN.Unsigned.of_to.
Qed.

Lemma digit_cases (c : N) :
  isDigit c = true →
  c = 48%N ∨ c = 49%N ∨ c = 50%N ∨ c = 51%N ∨ c = 52%N ∨ c = 53%N
  ∨ c = 54%N ∨ c = 55%N ∨ c = 56%N ∨ c = 57%N.
Proof.
  unfold isDigit. intros H. apply andb_true_iff in H as [H1 H2].
  apply N.leb_le in H1, H2. lia.
Qed.

(** [parseInt] on a run of decimal digits, with and without a minus
    sign. *)
Lemma parseInt_digits (s : jsstring) :
  Forall (fun c => isDigit c = true) s → s ≠ [] →
  let n := fold_left (fun acc d => (acc * 10 + d)%N) (Int.digits 10 s) 0%N in
  Int.parseInt s = Some (of_decimal false n 0)
  ∧ Int.parseInt (45%N :: s) = Some (of_decimal true n 0).
Proof.
  intros Hall Hne. destruct Hall as [|c s Hc Hs]; [done|].
  assert (∀ c' rest, s = c' :: rest →
                     ((c' =? 120) || (c' =? 88))%N = false) as Hx.
  { intros c' rest ->. apply Forall_cons in Hs as [Hc' _].
    apply digit_cases in Hc'.
    destruct (N.eqb_spec c' 120); [lia|].
    destruct (N.eqb_spec c' 88); [lia|done]. }
  apply digit_cases in Hc.
  unfold Int.parseInt.
  destruct Hc as [->|[->|[->|[->|[->|[->|[->|[->|[->| ->]]]]]]]]];
    cbn -[of_decimal]; try done.
  destruct s as [|c' rest]; [done|].
  rewrite (Hx c' rest eq_refl). done.
Qed.

(** [parseInt] reads back the Number of the integer [toString]
    printed. *)
Lemma parseInt_toString (z : Z) :
  Int.parseInt (Int.toString z) = Some (Int.toNumber z).
Proof.
  destruct (decimal_digits (Z.abs_N z)) as (Hall & Hne & Hval).
  destruct (parseInt_digits _ Hall Hne) as [Hplus Hminus].
  cbv zeta in *. rewrite Hval in *.
  unfold Int.toString, Int.toNumber. destruct (z <? 0).
  - change (js "-" ++ decimal (Z.abs_N z)) with (45%N :: decimal (Z.abs_N z)).
    exact Hminus.
  - exact Hplus.
Qed.

(** Number::toString of a safe integer prints its digits. *)
Lemma toString_safe_integer (z : Z) :
  Int.safe z → toString (Int.toNumber z) = Int.toString z.
Proof.
  unfold Int.safe, Int.toNumber, Int.toString. intros Hz.
  destruct (Z.ltb_spec z 0) as [Hneg|Hpos].
  - replace (Z.abs_N z) with (Z.to_N (- z)) by lia.
    apply (toString_safe true). lia.
  - destruct (decide (z = 0)) as [->|Hnz]; [reflexivity|].
    replace (Z.abs_N z) with (Z.to_N z) by lia.
    apply (toString_safe false). lia.
Qed.

(** A safe integer is the integer its Number is. *)
Lemma ofNumber_toNumber (z : Z) :
  Int.safe z → Int.ofNumber (Int.toNumber z) = Some z.
Proof.
  unfold Int.safe, Int.toNumber, of_decimal. intros Hz.
  destruct (N.eqb_spec (Z.abs_N z) 0) as [H0|H0].
  { assert (z = 0) as -> by lia. cbn [Int.ofNumber].
    change (0 <=? -1074) with false. cbv iota.
    change (Z.of_N 0) with 0. rewrite Z.mod_0_l, Z.div_0_l.
    - reflexivity.
    - apply Z.pow_nonzero; lia.
    - apply Z.pow_nonzero; lia. }
  change (0 <=? 0) with true. cbv iota.
  change (10 ^ 0) with 1. rewrite Z.mul_1_r.
  assert (0 < Z.of_N (Z.abs_N z) < 2 ^ 53) as Hn by lia.
  rewrite (of_ratio_exact _ _ Hn). set (n := Z.of_N (Z.abs_N z)) in *.
  pose proof (Z.log2_nonneg n) as HL0.
  assert (Z.log2 n < 53) as HL by (apply Z.log2_lt_pow2; lia).
  assert (0 < 2 ^ (52 - Z.log2 n)) as Hd by (apply Z.pow_pos_nonneg; lia).
  cbn [Int.ofNumber]. rewrite Z2N.id by lia.
  assert ((if z <? 0 then -1 else 1) * n = z) as Hsign.
  { subst n. destruct (Z.ltb_spec z 0); lia. }
  destruct (Z.leb_spec 0 (Z.log2 n - 52)).
  - replace (52 - Z.log2 n) with 0 by lia.
    replace (Z.log2 n - 52) with 0 by lia. change (2 ^ 0) with 1.
    rewrite !Z.mul_1_r. by rewrite Hsign.
  - replace (- (Z.log2 n - 52)) with (52 - Z.log2 n) by lia.
    rewrite Z.mod_mul, Z.div_mul by lia. cbn [Z.eqb]. by rewrite Hsign.
Qed.

Lemma toString_not_new (z : Z) : Int.toString z ≠ js "new".
Proof.
  destruct (decimal_digits (Z.abs_N z)) as (Hall & Hne & _).
  unfold Int.toString. destruct (z <? 0); [done|]. cbn [app].
  destruct Hall as [|c s Hc _]; [done|].
  intros [= -> _]. done.
Qed.

End Integers.

(** ** The header of the modal *)

Section Header.
Import Chat Modal.

(** X14.  Every item of the two selects is understood by its handler,
    for ids that are safe integers.  Choosing the item of an AI account
    selects that account, choosing the item of a conversation makes its
    id the current one, and choosing [new] starts a new conversation:
    what [toString] prints for a safe integer is its digits, [parseInt]
    reads the Number of that integer back from them, never NaN, and no
    id prints as [new]. *)
Theorem select_items_understood (accounts : list TradingAccount.t)
    (conversations : list Conversation.t) (s : State) :
  Forall (fun acc => Int.safe (TradingAccount.id acc)) accounts →
  Forall (fun conv => Int.safe (Conversation.id conv)) conversations →
  (∀ val, val ∈ accountItems accounts →
     ∃ acc, acc ∈ accounts
            ∧ TradingAccount.account_type acc = js "AI"
            ∧ val = Int.toString (TradingAccount.id acc)
            ∧ onAccountChange val s
              = Some (setSelectedAccountId (Some (TradingAccount.id acc)) s))
  ∧ (∀ val, val ∈ conversationItems conversations →
       val = js "new"
       ∧ onConversationChange val s = Some (startNewConversation s)
       ∨ ∃ conv, conv ∈ conversations
                 ∧ val = Int.toString (Conversation.id conv)
                 ∧ onConversationChange val s
                   = Some (setCurrentConversationId
                             (VNum (Int.toNumber (Conversation.id conv))) s))
  ∧ (∀ z, Int.safe z →
          toString (Int.toNumber z) = Int.toString z
          ∧ Int.parseInt (Int.toString z) = Some (Int.toNumber z)
          ∧ Int.ofNumber (Int.toNumber z) = Some z).
Proof.
  intros Haccounts Hconversations.
  rewrite Forall_forall in Haccounts. rewrite Forall_forall in Hconversations.
  split; [|split].
  - intros val Hval. unfold accountItems, aiAccounts in Hval.
    apply list_elem_of_fmap in Hval as (acc & -> & Hacc).
    apply list_elem_of_filter in Hacc as [Hai Hin].
    pose proof (Haccounts acc Hin) as Hsafe.
    exists acc. split; [done|]. split; [done|].
    rewrite (toString_safe_integer _ Hsafe). split; [done|].
    unfold onAccountChange.
    rewrite parseInt_toString, (ofNumber_toNumber _ Hsafe). done.
  - intros val Hval. unfold conversationItems in Hval.
    apply elem_of_cons in Hval as [->|Hval]; [by left|]. right.
    apply list_elem_of_fmap in Hval as (conv & -> & Hin).
    pose proof (Hconversations conv Hin) as Hsafe.
    exists conv. split; [done|].
    rewrite (toString_safe_integer _ Hsafe). split; [done|].
    unfold onConversationChange, streq.
    rewrite bool_decide_eq_false_2 by apply toString_not_new.
    by rewrite parseInt_toString.
  - intros z Hsafe. split; [by apply toString_safe_integer|].
    split; [apply parseInt_toString|by apply ofNumber_toNumber].
Qed.

Lemma select_items_understood_witness :
  toString (Int.toNumber 42) = Int.toString 42
  ∧ Int.parseInt (Int.toString 42) = Some (Int.toNumber 42)
  ∧ Int.ofNumber (Int.toNumber 42) = Some 42.
Proof.
  refine (proj2 (proj2 (select_items_understood Sample.accounts
                          Sample.conversations Sample.ready _ _)) 42 _).
  - repeat constructor.
  - repeat constructor.
  - split; reflexivity.
Defined.

Lemma filter_first {A} (P : A → Prop) `{∀ x, Decision (P x)}
    (l : list A) (x : A) (rest : list A) :
  filter P l = x :: rest →
  ∃ before after, l = before ++ x :: after ∧ Forall (fun y => ¬ P y) before
                  ∧ P x.
Proof.
  induction l as [|y l IH]; [done|]. rewrite filter_cons.
  destruct (decide (P y)) as [Hy|Hy].
  - intros [= -> _]. exists [], l. by repeat split.
  - intros Hf. destruct (IH Hf) as (before & after & -> & Hb & Hx).
    exists (y :: before), after. repeat split; [|done]. by constructor.
Qed.

(** X15.  The default account.  When the modal opens, the conversations
    are requested; an account that is selected stays selected, and with
    none selected (none, or the id 0) the first account of type AI in
    the order of the list becomes the selected one.  Without an AI
    account, and while the modal is closed, the selection stays as it
    is. *)
Theorem default_account (open : bool) (accounts : list TradingAccount.t)
    (s : State) :
  crashed s = false →
  let s' := openEffect open accounts s in
  (open = false → s' = s)
  ∧ (open = true →
     effects s' = effects s ++ [LoadConversations]
     ∧ (hasAccount s = true → selectedAccountId s' = selectedAccountId s)
     ∧ (hasAccount s = false →
        (Forall (fun acc => TradingAccount.account_type acc ≠ js "AI") accounts
         ∧ selectedAccountId s' = selectedAccountId s)
        ∨ ∃ before first after,
            accounts = before ++ first :: after
            ∧ Forall (fun acc => TradingAccount.account_type acc ≠ js "AI")
                before
            ∧ TradingAccount.account_type first = js "AI"
            ∧ selectedAccountId s' = Some (TradingAccount.id first))).
Proof.
  intros Hcr s'. subst s'. split; [by intros ->|]. intros ->.
  unfold openEffect.
  destruct (aiAccounts accounts) as [|first rest] eqn:Hai.
  - split; [done|]. split; [done|]. intros _. left. split; [|done].
    unfold aiAccounts in Hai. apply Forall_forall. intros acc Hin Htype.
    assert (acc ∈ filter (fun acc => TradingAccount.account_type acc = js "AI")
                    accounts) as Hf by (by apply list_elem_of_filter).
    rewrite Hai in Hf. by apply elem_of_nil in Hf.
  - destruct (hasAccount s) eqn:Hhas.
    + split; [done|]. split; [done|]. done.
    + destruct s as [acc conv msgs input ld cfgs effs cr]. cbn in Hcr.
      subst cr. cbn. split; [done|]. split; [done|]. intros _. right.
      apply filter_first in Hai as (before & after & -> & Hb & Hx).
      exists before, first, after. done.
Qed.

Lemma default_account_witness :
  selectedAccountId
    (openEffect true
       [ {| TradingAccount.id := 1; TradingAccount.name := js "manual";
            TradingAccount.model := []; TradingAccount.account_type := js "PAPER" |};
         {| TradingAccount.id := 2; TradingAccount.name := js "gpt";
            TradingAccount.model := js "gpt-5"; TradingAccount.account_type := js "AI" |} ]
       initial)
  = selectedAccountId initial
  ∨ selectedAccountId
      (openEffect true
         [ {| TradingAccount.id := 1; TradingAccount.name := js "manual";
              TradingAccount.model := []; TradingAccount.account_type := js "PAPER" |};
           {| TradingAccount.id := 2; TradingAccount.name := js "gpt";
              TradingAccount.model := js "gpt-5"; TradingAccount.account_type := js "AI" |} ]
         initial)
    = Some 2.
Proof.
  destruct (default_account true
              [ {| TradingAccount.id := 1; TradingAccount.name := js "manual";
                   TradingAccount.model := [];
                   TradingAccount.account_type := js "PAPER" |};
                {| TradingAccount.id := 2; TradingAccount.name := js "gpt";
                   TradingAccount.model := js "gpt-5";
                   TradingAccount.account_type := js "AI" |} ]
              initial eq_refl) as [_ H].
  destruct (H eq_refl) as (_ & _ & H2).
  destruct (H2 eq_refl) as [[_ H3]|(before & first & after & _ & _ & _ & _)].
  - left. exact H3.
  - right. reflexivity.
Defined.

(** X16.  [loadMessages].  A response that is OK and carries a list
    replaces the messages by that list, and the configs of the panel by
    the configs of its assistant messages, in the order of the
    messages; the configs of user messages are left out.  When one of
    those [signal_configs] is not iterable the messages are replaced,
    the panel keeps its configs and the error is logged; the same
    happens, with an empty list of messages, when the body has no
    [messages].  A response that is not OK changes nothing, and a
    request that fails only logs the error. *)
Theorem loadMessages_outcome (resp : MessagesResponse) (s : State) :
  crashed s = false →
  let s' := loadMessagesFrom resp s in
  match resp with
  | MessagesBody (Some msgs) =>
      messages s' = msgs
      ∧ match collectConfigs msgs with
        | Some configs =>
            allSignalConfigs s' = configs
            ∧ effects s' = effects s
            ∧ ∀ c, c ∈ configs
                   ↔ ∃ m elems, m ∈ msgs ∧ Message.role m = Message.assistant
                                ∧ truthy (Message.signal_configs m) = true
                                ∧ spread (Message.signal_configs m) = Some elems
                                ∧ c ∈ elems
        | None =>
            allSignalConfigs s' = allSignalConfigs s
            ∧ effects s' = effects s ++ [ConsoleError]
        end
  | MessagesBody None =>
      messages s' = [] ∧ allSignalConfigs s' = allSignalConfigs s
      ∧ effects s' = effects s ++ [ConsoleError]
  | MessagesNotOk => s' = s
  | MessagesRejected =>
      messages s' = messages s ∧ allSignalConfigs s' = allSignalConfigs s
      ∧ effects s' = effects s ++ [ConsoleError]
  end.
Proof.
  intros Hcr s'. subst s'.
  destruct s as [acc conv msgs0 input ld cfgs effs cr]. cbn in Hcr. subst cr.
  destruct resp as [| |[msgs|]]; [done|done| |done].
  unfold loadMessagesFrom, loadMessages.
  destruct (collectConfigs msgs) as [configs|] eqn:Hcollect; [|done].
  split; [done|]. split; [done|]. split; [done|].
  clear -Hcollect. revert configs Hcollect.
  induction msgs as [|m msgs IH]; intros configs Hcollect c.
  - injection Hcollect as <-. split.
    + intros H. by apply elem_of_nil in H.
    + intros (m & elems & H & _). by apply elem_of_nil in H.
  - cbn [collectConfigs] in Hcollect.
    destruct (match Message.role m with
              | Message.user => Some []
              | Message.assistant =>
                  if truthy (Message.signal_configs m)
                  then spread (Message.signal_configs m) else Some []
              end) as [here|] eqn:Hhere; [|done].
    cbn [mbind option_bind] in Hcollect.
    destruct (collectConfigs msgs) as [rest|]; [|done].
    cbn [mbind option_bind] in Hcollect. injection Hcollect as <-.
    specialize (IH rest eq_refl c). rewrite elem_of_app, IH. split.
    + intros [Hc|(m' & elems & Hin & ?)].
      * destruct (Message.role m) eqn:Hrole;
          [injection Hhere as <-; by apply elem_of_nil in Hc|].
        destruct (truthy (Message.signal_configs m)) eqn:Ht;
          [|injection Hhere as <-; by apply elem_of_nil in Hc].
        exists m, here. repeat split; [apply list_elem_of_here|done..].
      * exists m', elems. split; [by apply list_elem_of_further|done].
    + intros (m' & elems & Hin & Hrole & Ht & Hs & Hc).
      apply elem_of_cons in Hin as [->|Hin].
      * left. rewrite Hrole, Ht, Hs in Hhere. by injection Hhere as <-.
      * right. exists m', elems. done.
Qed.

Lemma loadMessages_outcome_witness :
  messages (loadMessagesFrom (MessagesBody None) (ui Sample.sending)) = [].
Proof.
  exact (proj1 (loadMessages_outcome (MessagesBody None) (ui Sample.sending)
                  eq_refl)).
Defined.

End Header.

(** ** The labels of metrics and operators *)

Section LabelTables.
Import Labels.

Lemma own_cases (key : jsstring) (labels : list (jsstring * jsstring)) v :
  own key labels = Some v → (key, v) ∈ labels.
Proof.
  induction labels as [|[k w] labels IH]; [done|]. cbn [own]. unfold streq.
  case_bool_decide as Hk.
  - intros [= ->]. subst k. apply list_elem_of_here.
  - intros H. apply list_elem_of_further. by apply IH.
Qed.

Lemma label_or_key_cases (labels : list (jsstring * jsstring)) (key : jsstring) :
  Forall (fun kv => kv.2 ≠ [] ∧ own kv.2 labels = None
                    ∧ kv.2 ∉ objectPrototype) labels →
  key ∉ objectPrototype →
  ∃ t, label_or_key labels key = Text t
       ∧ (t = key ∨ (key, t) ∈ labels)
       ∧ (key ≠ [] → t ≠ [])
       ∧ label_or_key labels t = Text t.
Proof.
  intros Hlabels Hkey. unfold label_or_key at 1.
  destruct (own key labels) as [v|] eqn:Hown.
  - apply own_cases in Hown. rewrite Forall_forall in Hlabels.
    destruct (Hlabels _ Hown) as (Hne & Hnot & Hproto). cbn [snd] in *.
    destruct v as [|c v]; [done|]. exists (c :: v).
    split; [done|]. split; [by right|]. split; [done|].
    unfold label_or_key. rewrite Hnot.
    by rewrite bool_decide_eq_false_2.
  - rewrite bool_decide_eq_false_2 by done. exists key.
    split; [done|]. split; [by left|]. split; [done|].
    unfold label_or_key. rewrite Hown. by rewrite bool_decide_eq_false_2.
Qed.

(** X17.  The labels.  For a metric (an operator) that is not the name
    of a member of [Object.prototype], [getMetricLabel]
    ([getOperatorLabel]) gives a text: the label of the table when the
    metric is one of its keys, the metric itself otherwise, so never an
    empty text for a metric that is not empty; and a label is its own
    label.  For the name of a member of [Object.prototype] the result
    is that member, not a text. *)
Theorem labels_total (key : jsstring) :
  (key ∉ objectPrototype →
   (∃ t, getMetricLabel key = Text t
         ∧ (t = key ∨ (key, t) ∈ metricLabels)
         ∧ (key ≠ [] → t ≠ [])
         ∧ getMetricLabel t = Text t)
   ∧ (∃ t, getOperatorLabel key = Text t
           ∧ (t = key ∨ (key, t) ∈ operatorLabels)
           ∧ (key ≠ [] → t ≠ [])
           ∧ getOperatorLabel t = Text t))
  ∧ (key ∈ objectPrototype →
     getMetricLabel key = Inherited key
     ∧ getOperatorLabel key = Inherited key).
Proof.
  split.
  - intros Hkey. split; apply label_or_key_cases; try done;
      repeat constructor; vm_compute; try done;
      intros H;
      repeat (apply elem_of_cons in H as [H|H]; [discriminate H|]);
      by apply elem_of_nil in H.
  - intros Hkey. unfold objectPrototype in Hkey. cbn [map] in Hkey.
    repeat (apply elem_of_cons in Hkey as [->|Hkey]; [by vm_compute|]).
    by apply elem_of_nil in Hkey.
Qed.

End LabelTables.

(** ** The chat area *)

Section ChatAreaView.
Import Chat Message ChatArea.

(** X18.  What the input area lets through.  Every event that calls
    [sendMessage] (Enter without Shift in the text area, a click on
    Send) comes from a control that is enabled only while the modal is
    not loading, so a run is never started while another one has the
    modal loading: with the guard passed, the call is a send step of the
    session.  The Send button is enabled exactly when the modal is not
    loading and the guard of [sendMessage] lets the message go; Enter
    on a blank input reaches [sendMessage], which returns at once. *)
Theorem send_gated (now : Z) (resp : Response) (act : Action) (s : State)
    (runs : list Activation) :
  enabled act s = true →
  sends act = true →
  loading s = false
  ∧ handle now resp act s = sendMessage now resp s
  ∧ (act = ClickSend → canSend s = true)
  ∧ (canSend s = false → handle now resp act s = s)
  ∧ (canSend s = true → crashed s = false →
     step {| ui := s; inflight := runs |}
          {| ui := (begin now s).2; inflight := runs ++ [(begin now s).1] |})
  ∧ (sendDisabled (render s) = false ↔ loading s = false ∧ canSend s = true).
Proof.
  intros Hen Hsends.
  assert (sendDisabled (render s) = false
          ↔ loading s = false ∧ canSend s = true) as Hbutton.
  { unfold render, canSend, Modal.hasAccount. cbn [sendDisabled].
    destruct (loading s), (bool_decide (trim (userInput s) = [])),
      (selectedAccountId s) as [account|];
      try destruct (account =? 0); cbn; intuition congruence. }
  assert (loading s = false) as Hld.
  { destruct act as [v|[|]|]; try done; cbn in Hen;
      apply negb_true_iff, orb_false_iff in Hen as [Hen _];
      [done|]. by apply orb_false_iff in Hen as [Hen _]. }
  assert (handle now resp act s = sendMessage now resp s) as Hhandle
    by (by destruct act as [v|[|]|]).
  split; [exact Hld|]. split; [exact Hhandle|]. split; [|split; [|split]].
  - intros ->. cbn in Hen. apply negb_true_iff in Hen.
    by apply Hbutton in Hen as [_ ?].
  - intros Hno. rewrite Hhandle. unfold sendMessage. by rewrite Hno.
  - intros Hcan Hcr.
    apply (step_send {| ui := s; inflight := runs |} now
             (begin now s).1 (begin now s).2 Hcr Hld Hcan).
    cbn [ui]. apply surjective_pairing.
  - exact Hbutton.
Qed.

Lemma send_gated_witness :
  handle 1000 ResponseNotOk ClickSend Sample.ready
  = sendMessage 1000 ResponseNotOk Sample.ready.
Proof.
  refine (proj1 (proj2 (send_gated 1000 ResponseNotOk ClickSend Sample.ready
                          [] _ _))); reflexivity.
Defined.

(** X19.  What a bubble shows of the progress of a reply.  A message
    that is not streaming shows no status, no analysis log and no
    "Generating..." line, whatever its fields hold.  A streaming message
    with a log that is not empty shows a suffix of it: its last five
    entries in their order, all of them when there are five or fewer. *)
Theorem progress_on_display (msg : Message.t) (entries : list AnalysisEntry) :
  default [] (analysisLog msg) = entries →
  (streaming msg = false →
   status (bubble msg) = NoStatus ∧ log (bubble msg) = None
   ∧ body (bubble msg) ≠ Generating)
  ∧ (streaming msg = true →
     log (bubble msg)
     = (if bool_decide (entries = []) then None else Some (lastFive entries))
     ∧ (∃ hidden, entries = hidden ++ lastFive entries)
     ∧ length (lastFive entries) = Nat.min 5 (length entries)
     ∧ ((length entries ≤ 5)%nat → lastFive entries = entries)).
Proof.
  intros Hlog. split.
  - intros Hs. unfold bubble. cbn [status log body]. rewrite Hs.
    repeat split. by destruct (truthy (content msg)).
  - intros Hs. unfold bubble. cbn [log]. rewrite Hs. split; [|split; [|split]].
    + destruct (analysisLog msg) as [[|e l]|]; cbn in Hlog; by subst.
    + exists (take (length entries - 5) entries). unfold lastFive.
      by rewrite take_drop.
    + unfold lastFive. rewrite length_drop. lia.
    + intros Hle. unfold lastFive.
      replace (length entries - 5)%nat with 0%nat by lia. done.
Qed.

Lemma progress_on_display_witness :
  log (bubble (Message.log_entry
                 {| type := tool_call; entry_content := VUndefined;
                    name := VStr (js "get_klines"); arguments := VObj [];
                    result := VUndefined |}
                 (tempAssistantMsg 1000)))
  = Some [ {| type := tool_call; entry_content := VUndefined;
              name := VStr (js "get_klines"); arguments := VObj [];
              result := VUndefined |} ].
Proof.
  refine (proj1 (proj2 (progress_on_display
                          (Message.log_entry
                             {| type := tool_call; entry_content := VUndefined;
                                name := VStr (js "get_klines");
                                arguments := VObj [];
                                result := VUndefined |}
                             (tempAssistantMsg 1000)) _ eq_refl) eq_refl)).
Defined.

End ChatAreaView.

(** ** The panel: a card after its creation *)

Section CreatedCard.
Import SignalConfig SignalCardsPanel CardButtons.

(** X20.  Creating from a card, in a list of distinct config objects:
    the key [handleCreate] computes with [indexOf] is the key the panel
    rendered that card with.  While the callback is pending the card
    shows as creating, with a disabled button unless it was created
    before.  When [handleCreate] is through the card no longer shows as
    creating; after a callback that resolved true it shows as created
    and has no button left to create it again; after any other outcome
    it shows as created only if it did before. *)
Theorem created_card_shows_created
    (onCreate onCreatePool : SignalConfig.t → Settled)
    (configs : list Ref) (i : nat) (c : Ref) (pool : bool) (st : State) :
  NoDup (map addr configs) → configs !! i = Some c →
  let k := signalKey (config c) (indexOf configs c) in
  let r := if pool then onCreatePool (config c) else onCreate (config c) in
  let st' := (handleCreate onCreate onCreatePool configs c pool st).1 in
  isCreating (card (handleCreate_begin k st) i c) = true
  ∧ (isCreated (card st i c) = false →
     ∃ label, createButton (handleCreate_begin k st) i c = Create true label)
  ∧ isCreating (card st' i c) = false
  ∧ (r = Resolved true →
     isCreated (card st' i c) = true ∧ createButton st' i c = Created)
  ∧ (r ≠ Resolved true → isCreated (card st' i c) = isCreated (card st i c)).
Proof.
  intros Hnd Hi k r st'. subst k st'. unfold handleCreate. fold r.
  rewrite (indexOf_lookup _ _ _ Hnd Hi).
  set (k := signalKey (config c) (Z.of_nat i)).
  cbn [fst]. unfold createButton, card. fold k.
  cbn [isPool isCreating isCreated handleCreate_begin handleCreate_end
       creatingSignals createdSignals].
  split; [|split; [|split; [|split]]].
  - apply bool_decide_eq_true_2, elem_of_union_r, elem_of_singleton. done.
  - intros Hnot. rewrite Hnot.
    rewrite (bool_decide_eq_true_2 (k ∈ creatingSignals st ∪ {[k]}))
      by (by apply elem_of_union_r, elem_of_singleton).
    unfold poolCreate, signalCreate, SignalCard.createDisabled,
      SignalPoolCard.createDisabled.
    rewrite !orb_true_r. destruct (isPoolConfig (config c)); eauto.
  - apply bool_decide_eq_false_2.
    rewrite elem_of_difference, elem_of_singleton. tauto.
  - intros ->.
    rewrite (bool_decide_eq_true_2 (k ∈ createdSignals st ∪ {[k]}))
      by (by apply elem_of_union_r, elem_of_singleton).
    split; [done|]. by destruct (isPoolConfig (config c)).
  - intros Hr. destruct r as [[|]|]; done.
Qed.

Lemma created_card_shows_created_witness :
  createButton
    (handleCreate (fun _ => Resolved true) (fun _ => Rejected)
       Sample.unnamed_pair
       {| addr := 1; config := Sample.named "" "ETH" |} false mounted).1
    1 {| addr := 1; config := Sample.named "" "ETH" |}
  = Created.
Proof.
  refine (proj2 (proj1 (proj2 (proj2 (proj2
            (created_card_shows_created (fun _ => Resolved true)
               (fun _ => Rejected) Sample.unnamed_pair 1
               {| addr := 1; config := Sample.named "" "ETH" |} false mounted
               _ _)))) eq_refl)).
  - change (NoDup [0%nat; 1%nat]). apply NoDup_cons.
    split; [|apply NoDup_singleton].
    intros H. apply list_elem_of_singleton in H. discriminate H.
  - reflexivity.
Defined.

End CreatedCard.

(** ** The trade cards: amounts and keys *)

Section TradeTexts.
Import Trades TradeText Fixed.

Lemma toFixed_decimals (f : nat) (neg : bool) (m : N) (e : Z) :
  (0 < f)%nat → large m e = false →
  decimals f (toFixed f (Finite neg m e)).
Proof.
  intros Hf Hlarge. unfold toFixed, large in *.
  destruct (ratio m e) as [p q]. rewrite Hlarge.
  set (n := (2 * p * 10 ^ Z.of_nat f + q) / (2 * q)).
  set (m0 := if n =? 0 then js "0" else decimal (Z.to_N n)).
  assert (Forall (fun c => isDigit c = true) m0 ∧ m0 ≠ []) as [Hm0 Hne0].
  { subst m0. destruct (n =? 0).
    - split; [by repeat constructor|done].
    - destruct (decimal_digits (Z.to_N n)) as (? & ? & _). done. }
  destruct f as [|f]; [lia|].
  set (m1 := if (length m0 <=? S f)%nat
             then repeat 48%N (S f + 1 - length m0) ++ m0 else m0).
  assert (Forall (fun c => isDigit c = true) m1 ∧ (S f < length m1)%nat)
    as [Hm1 Hlen].
  { subst m1. destruct (Nat.leb_spec (length m0) (S f)).
    - split.
      + apply Forall_app. split; [|done].
        apply Forall_forall. intros c Hc.
        apply list_elem_of_In, repeat_spec in Hc. by subst c.
      + rewrite length_app, repeat_length. lia.
    - done. }
  exists (if neg && negb (m =? 0)%N then js "-" else []),
         (take (length m1 - S f) m1), (drop (length m1 - S f) m1).
  split; [done|]. split; [destruct (neg && negb (m =? 0)%N); auto|].
  split.
  { intros Hnil. apply (f_equal length) in Hnil.
    rewrite length_take in Hnil. cbn in Hnil. lia. }
  split; [rewrite length_drop; lia|].
  by rewrite take_drop.
Qed.

(** X21.  The amounts on a trade card.  A price or a notional that is
    present and below 10^21 in absolute value is printed with exactly
    two digits after the point, a quantity with exactly four, each with
    one digit or more before the point and a minus sign for a negative
    amount; an amount that is missing prints as nothing. *)
Theorem amounts_have_fixed_decimals (f : nat) (x : option number) :
  (0 < f)%nat →
  match x with
  | Some (Finite neg m e) => large m e = false → decimals f (fixed f x)
  | Some (Infinite neg) => fixed f x = toString (Infinite neg)
  | None => fixed f x = []
  end
  ∧ ∀ t, priceText t = js "@ $" ++ fixed 2 (price t)
         ∧ quantityText t = fixed 4 (quantity t)
         ∧ notionalText t = js "$" ++ fixed 2 (notional t).
Proof.
  intros Hf. split; [|done].
  destruct x as [[neg m e|neg]|]; [|done..].
  intros Hlarge. by apply toFixed_decimals.
Qed.

Lemma amounts_have_fixed_decimals_witness :
  fixed 2 (Some (of_decimal false 1005 (-3))) = js "1.00"
  ∧ decimals 2 (fixed 2 (Some (of_decimal false 1005 (-3)))).
Proof.
  split; [reflexivity|].
  exact (proj1 (amounts_have_fixed_decimals 2
                  (Some (of_decimal false 1005 (-3))) (Nat.lt_0_succ 1))
           eq_refl).
Defined.

Lemma digits_before_minus (d1 d2 r1 r2 : jsstring) :
  Forall (fun c => isDigit c = true) d1 →
  Forall (fun c => isDigit c = true) d2 →
  d1 ++ 45%N :: r1 = d2 ++ 45%N :: r2 → d1 = d2 ∧ r1 = r2.
Proof.
  intros H1. revert d2. induction H1 as [|c d1 Hc _ IH]; intros d2 H2 Heq.
  - destruct H2 as [|c' d2 Hc' _]; [by injection Heq|].
    injection Heq as <- _. done.
  - destruct H2 as [|c' d2 Hc' H2]; [injection Heq as -> _; done|].
    injection Heq as -> Heq. destruct (IH d2 H2 Heq) as [-> ->]. done.
Qed.

Lemma toString_minus_inj (z1 z2 : Z) (r1 r2 : jsstring) :
  Int.toString z1 ++ 45%N :: r1 = Int.toString z2 ++ 45%N :: r2 →
  z1 = z2 ∧ r1 = r2.
Proof.
  destruct (decimal_digits (Z.abs_N z1)) as (Hd1 & Hn1 & _).
  destruct (decimal_digits (Z.abs_N z2)) as (Hd2 & Hn2 & _).
  unfold Int.toString.
  destruct (Z.ltb_spec z1 0), (Z.ltb_spec z2 0); cbn [app].
  - change (js "-") with [45%N]. cbn [app]. intros [= Heq].
    destruct (digits_before_minus _ _ _ _ Hd1 Hd2 Heq) as [Hd ->].
    apply decimal_inj in Hd. split; [lia|done].
  - change (js "-") with [45%N]. cbn [app]. intros Heq.
    destruct Hd2 as [|c d2 Hc _]; [done|]. injection Heq as <- _. done.
  - change (js "-") with [45%N]. cbn [app]. intros Heq.
    destruct Hd1 as [|c d1 Hc _]; [done|]. injection Heq as -> _. done.
  - intros Heq.
    destruct (digits_before_minus _ _ _ _ Hd1 Hd2 Heq) as [Hd ->].
    apply decimal_inj in Hd. split; [lia|done].
Qed.

(** X22.  The keys of the trade cards.  The key of a card,
    [`${trade_id}-${trade_time}`], determines the id and the time of its
    trade: two trades get the same key exactly when they have the same
    id and the same time, so trades that differ in one of the two never
    share a key. *)
Theorem trade_keys_distinct (t1 t2 : ArenaTrade) (selectedAccount : Selected) :
  (keyString t1 = keyString t2
   ↔ trade_id t1 = trade_id t2 ∧ trade_time t1 = trade_time t2)
  ∧ (keyString t1 = keyString t2
     ↔ key (renderCard selectedAccount t1) = key (renderCard selectedAccount t2)).
Proof.
  assert (keyString t1 = keyString t2
          ↔ trade_id t1 = trade_id t2 ∧ trade_time t1 = trade_time t2) as H.
  { unfold keyString. change (js "-") with [45%N]. cbn [app]. split.
    - apply toString_minus_inj.
    - by intros [-> ->]. }
  split; [exact H|]. rewrite H. cbn [renderCard key]. split.
  - by intros [-> ->].
  - by intros [= -> ->].
Qed.

End TradeTexts.

(** ** Loading, and the runs under way *)

Section Loading.
Import Chat Message.

Lemma finish_loading (s : State) :
  crashed (finish s) = false → loading (finish s) = false.
Proof.
  unfold finish, setLoading. destruct (crashed s) eqn:E; [congruence|done].
Qed.

Lemma idle_not_loading (x : Session) :
  reachable x →
  crashed (ui x) = false → inflight x = [] → loading (ui x) = false.
Proof.
  induction 1 as [|x y _ IH Hstep]; [done|].
  destruct Hstep as
    [x text Hcr|x account Hcr|x conv Hcr|x Hcr|x msgs Hall
    |x now a s' Hcr Hld Hcan Hb|x before a after value l' s' Hfl Hchunk
    |x before a after Hfl|x before a after Hfl]; cbn [ui inflight].
  - intros _ Hnil. specialize (IH Hcr Hnil).
    by destruct (ui x) as [? ? ? ? ? ? ? []].
  - intros _ Hnil. specialize (IH Hcr Hnil).
    by destruct (ui x) as [? ? ? ? ? ? ? []].
  - intros _ Hnil. specialize (IH Hcr Hnil).
    by destruct (ui x) as [? ? ? ? ? ? ? []].
  - intros _ Hnil. specialize (IH Hcr Hnil).
    by destruct (ui x) as [? ? ? ? ? ? ? []].
  - intros Hcr' Hnil. unfold loadMessages in *.
    destruct (collectConfigs msgs);
      destruct (ui x) as [? ? ? ? ? ? ? []]; cbn in *; try done;
      by apply IH.
  - intros _ Hnil. by destruct (inflight x).
  - intros _ Hnil. by destruct before.
  - intros Hcr' _. by apply finish_loading.
  - intros Hcr' _. by apply finish_loading.
Qed.

(** X23.  In every reachable session at most one run of [sendMessage]
    is under way, and a mounted modal is loading exactly while one is:
    the input area is never left disabled when no reply is being
    awaited, and it is never enabled while one is. *)
Theorem loading_while_in_flight (x : Session) :
  reachable x →
  (length (inflight x) ≤ 1)%nat
  ∧ (crashed (ui x) = false →
     (loading (ui x) = true ↔ inflight x ≠ [])
     ∧ (ChatArea.textareaDisabled (ChatArea.render (ui x)) = false →
        inflight x = [])).
Proof.
  intros Hreach. destruct (reachable_inv x Hreach) as (Hone & _ & Hinv).
  split; [exact Hone|]. intros Hcr. destruct (Hinv Hcr) as [Hidle _].
  assert (loading (ui x) = true ↔ inflight x ≠ []) as Hiff.
  { split.
    - intros Hld Hnil.
      rewrite (idle_not_loading x Hreach Hcr Hnil) in Hld. done.
    - intros Hne. destruct (loading (ui x)) eqn:Hld; [done|].
      by specialize (Hidle eq_refl). }
  split; [exact Hiff|]. cbn [ChatArea.render ChatArea.textareaDisabled].
  intros Hen. apply orb_false_iff in Hen as [Hld _]. by apply Hidle.
Qed.

Lemma loading_while_in_flight_witness :
  (length (inflight Sample.sending) ≤ 1)%nat.
Proof.
  apply (loading_while_in_flight Sample.sending).
  pose (x1 := {| ui := setSelectedAccountId (Some 3) initial;
                 inflight := [] |}).
  pose (x2 := {| ui := Sample.ready; inflight := [] |}).
  apply (reachable_step x2 Sample.sending);
    [apply (reachable_step x1 x2);
       [apply (reachable_step opened x1); [apply reachable_opened|] |] |].
  - exact (step_account opened (Some 3) eq_refl).
  - exact (step_input x1 (js "OI signal for BTC") eq_refl).
  - exact (step_send x2 1000 _ _ eq_refl eq_refl eq_refl eq_refl).
Defined.

End Loading.

(** ** The panel with several creations under way *)

Section Pending.
Import SignalConfig SignalCardsPanel.

(** X24.  With any number of creations under way, in any order of
    clicks and settlements: a key is in the creating set only while a
    run of [handleCreate] for it is pending, so once every callback has
    settled no card is left showing "Creating...". *)
Theorem no_stuck_creating (configs : list Ref) (p : Panel) :
  rtc (step configs) {| state := mounted; pending := [] |} p →
  (∀ k, k ∈ creatingSignals (state p) → k ∈ pending p)
  ∧ (pending p = [] →
     creatingSignals (state p) = ∅
     ∧ ∀ idx c, isCreating (card (state p) idx c) = false).
Proof.
  intros Hreach.
  assert (∀ k, k ∈ creatingSignals (state p) → k ∈ pending p) as Hinv.
  { revert p Hreach.
    apply (rtc_ind_r (fun p => ∀ k, k ∈ creatingSignals (state p)
                                     → k ∈ pending p)).
    - intros k Hk. by apply elem_of_empty in Hk.
    - intros p q _ Hstep IH.
      destruct Hstep as [p c Hc|p before k0 after r Hp];
        cbn [state pending handleCreate_begin handleCreate_end
             creatingSignals]; intros k Hk.
      + apply elem_of_union in Hk as [Hk|Hk].
        * apply list_elem_of_further. by apply IH.
        * apply elem_of_singleton in Hk as ->. apply list_elem_of_here.
      + apply elem_of_difference in Hk as [Hk Hne].
        rewrite elem_of_singleton in Hne.
        specialize (IH k Hk). rewrite Hp in IH.
        apply elem_of_app in IH as [?|IH]; apply elem_of_app; [by left|].
        apply elem_of_cons in IH as [?|?]; [done|by right]. }
  split; [exact Hinv|]. intros Hnil.
  assert (creatingSignals (state p) = ∅) as Hempty.
  { apply leibniz_equiv, elem_of_equiv_empty. intros k Hk.
    specialize (Hinv k Hk). rewrite Hnil in Hinv.
    by apply elem_of_nil in Hinv. }
  split; [exact Hempty|]. intros idx c. unfold card. cbn [isCreating].
  rewrite Hempty. by apply bool_decide_eq_false_2, not_elem_of_empty.
Qed.

Lemma no_stuck_creating_witness :
  creatingSignals
    (handleCreate_end (signalKey (Sample.named "" "BTC") 0) Rejected
       (handleCreate_begin (signalKey (Sample.named "" "BTC") 0) mounted))
  = ∅.
Proof.
  refine (proj1 (proj2 (no_stuck_creating Sample.unnamed_pair
            {| state := handleCreate_end (signalKey (Sample.named "" "BTC") 0)
                          Rejected
                          (handleCreate_begin
                             (signalKey (Sample.named "" "BTC") 0) mounted);
               pending := [] |} _) eq_refl)).
  eapply rtc_l; [|eapply rtc_l; [|apply rtc_refl]].
  - exact (step_click Sample.unnamed_pair {| state := mounted; pending := [] |}
             {| addr := 0; config := Sample.named "" "BTC" |}
             (list_elem_of_here _ _)).
  - exact (step_settled Sample.unnamed_pair
             {| state := handleCreate_begin
                           (signalKey (Sample.named "" "BTC") 0) mounted;
                pending := [signalKey (Sample.named "" "BTC") 0] |}
             [] (signalKey (Sample.named "" "BTC") 0) [] Rejected eq_refl).
Defined.

End Pending.

(** ** Line ends with a carriage return *)

Section CarriageReturn.
Import Chat.

Lemma trimStart_snoc (s : jsstring) (c : N) :
  isWhiteSpace c = true →
  trimStart (s ++ [c]) = match trimStart s with
                         | [] => []
                         | t => t ++ [c]
                         end.
Proof.
  intros Hc. induction s as [|x s IH]; cbn [app trimStart].
  - by rewrite Hc.
  - destruct (isWhiteSpace x); [exact IH|done].
Qed.

Lemma trim_snoc (s : jsstring) (c : N) :
  isWhiteSpace c = true → trim (s ++ [c]) = trim s.
Proof.
  intros Hc. unfold trim. rewrite (trimStart_snoc s c Hc).
  destruct (trimStart s) as [|x t]; [done|].
  rewrite rev_app_distr. cbn [rev app trimStart]. by rewrite Hc.
Qed.

Lemma startsWith_snoc (line p : jsstring) (c : N) :
  last p ≠ Some c → startsWith (line ++ [c]) p = startsWith line p.
Proof.
  revert line. induction p as [|x p IH]; intros line Hlast; [done|].
  destruct line as [|y line]; cbn [app startsWith].
  - destruct p as [|x' p].
    + destruct (N.eqb_spec x c) as [->|]; [done|done].
    + by rewrite andb_false_r.
  - rewrite IH; [done|]. destruct p; [done|exact Hlast].
Qed.

Lemma startsWith_length (line p : jsstring) :
  startsWith line p = true → (length p ≤ length line)%nat.
Proof.
  revert line. induction p as [|x p IH]; intros line; [cbn; lia|].
  destruct line as [|y line]; [done|]. cbn [startsWith length].
  intros H. apply andb_true_iff in H as [_ H]. apply IH in H. lia.
Qed.

Lemma complete_mode (v : jsval) (stack : list JSON.frame) rest w :
  (JSON.complete v stack).1 ≠ JSON.Literal rest w.
Proof. by destruct stack as [|[]]. Qed.

(** The literals [true], [false] and [null] hold no carriage return. *)
Lemma json_step_literal (st st' : JSON.state) (c : N) :
  (∀ rest v, st.1 = JSON.Literal rest v → 13%N ∉ rest) →
  JSON.step st c = Some st' →
  ∀ rest v, st'.1 = JSON.Literal rest v → 13%N ∉ rest.
Proof.
  intros Hinv Hstep rest v Hmode.
  assert (∀ stack, JSON.start_value c stack = Some st' → 13%N ∉ rest)
    as Hstart.
  { intros stack H. unfold JSON.start_value in H.
    repeat case_match; simplify_eq; cbn in Hmode; try discriminate;
      injection Hmode as <- _; vm_compute; intros Hin;
      repeat (apply elem_of_cons in Hin as [Hin|Hin];
              [discriminate Hin|]);
      by apply elem_of_nil in Hin. }
  assert (∀ m stack, (∀ r w, m ≠ JSON.Literal r w) →
                     JSON.step_between m stack c = Some st' → 13%N ∉ rest)
    as Hbetween.
  { intros m stack Hm H. unfold JSON.step_between in H.
    destruct (JSON.isJSONSpace c).
    - injection H as <-. cbn in Hmode. by destruct (Hm rest v).
    - unfold JSON.close_array, JSON.close_object in H.
      destruct m; try discriminate H; repeat case_match; simplify_eq;
        try (by eapply Hstart);
        try (by destruct (complete_mode _ _ _ _ Hmode));
        try (cbn in Hmode; discriminate Hmode). }
  destruct st as [m stack]. unfold JSON.step in Hstep.
  destruct m as [| | | | | | |v0|key acc|key acc|key acc count code
                |ns neg mant frac eneg ex|lit v0];
    try (by eapply Hbetween; [|exact Hstep]; intros; discriminate).
  - repeat case_match; simplify_eq; try (cbn in Hmode; discriminate Hmode).
  - unfold JSON.end_string in Hstep.
    repeat case_match; simplify_eq;
      try (by destruct (complete_mode _ _ _ _ Hmode));
      try (cbn in Hmode; discriminate Hmode).
  - repeat case_match; simplify_option_eq;
      try (cbn in Hmode; discriminate Hmode).
  - simplify_option_eq. repeat case_match;
      try (cbn in Hmode; discriminate Hmode).
  - unfold JSON.step_number in Hstep.
    repeat case_match; simplify_eq;
      try (cbn in Hmode; discriminate Hmode);
      match goal with
      | H : JSON.complete ?x ?y = (?m0, ?st0) |- _ =>
          eapply (Hbetween m0 st0); [|eassumption];
          intros r w ->;
          by destruct (complete_mode x y r w); rewrite H
      end.
  - destruct lit as [|r lit]; [done|].
    destruct (c =? r)%N; [|done]. injection Hstep as <-.
    specialize (Hinv (r :: lit) v0 eq_refl).
    apply not_elem_of_cons in Hinv as [_ Hinv].
    destruct lit; [by destruct (complete_mode _ _ _ _ Hmode)|].
    cbn in Hmode. by injection Hmode as <- _.
Qed.

(** A carriage return where the text may end changes nothing of what
    [JSON.parse] makes of it. *)
Lemma json_step_cr (st : JSON.state) :
  (∀ rest v, st.1 = JSON.Literal rest v → 13%N ∉ rest) →
  (JSON.step st 13 ≫= JSON.finish) = JSON.finish st.
Proof.
  intros Hinv. destruct st as [m stack].
  destruct m as [| | | | | | |v|key acc|key acc|key acc count code
                |ns neg mant frac eneg ex|rest v];
    try destruct ns; try destruct rest as [|r rest];
    destruct stack as [|[elems|props k] stack]; cbn -[N.eqb]; try done.
  all: specialize (Hinv (r :: rest) v eq_refl);
    apply not_elem_of_cons in Hinv as [Hr _];
    by destruct (N.eqb_spec 13 r) as [?|_]; [congruence|].
Qed.

Lemma json_run_cr (st : JSON.state) (text : jsstring) :
  (∀ rest v, st.1 = JSON.Literal rest v → 13%N ∉ rest) →
  JSON.run st (text ++ [13%N]) = JSON.run st text.
Proof.
  revert st. induction text as [|c text IH]; intros st Hinv;
    cbn [app JSON.run].
  - rewrite <- (json_step_cr st Hinv). by destruct (JSON.step st 13).
  - destruct (JSON.step st c) as [st'|] eqn:Hstep; [|done].
    cbn [mbind option_bind]. apply IH. by eapply json_step_literal.
Qed.

(** X25.  A line that ends with a carriage return is read as the line
    without it, whatever the line is: the event type is trimmed,
    [JSON.parse] accepts white space after a value, and a line that is
    only a carriage return is a blank line.  So a stream whose lines end
    with CR LF is read as the same stream with LF. *)
Theorem carriage_return_tolerated (msgId : Z) (st : Locals * State)
    (line : jsstring) (lines : list jsstring) :
  process_line msgId st (line ++ [13%N]) = process_line msgId st line
  ∧ fold_left (process_line msgId) (map (fun l => l ++ [13%N]) lines) st
    = fold_left (process_line msgId) lines st.
Proof.
  assert (∀ st line,
            process_line msgId st (line ++ [13%N])
            = process_line msgId st line) as Hline.
  { clear. intros st line. unfold process_line.
    rewrite !startsWith_snoc by (vm_compute; congruence).
    destruct (startsWith line (js "event: ")) eqn:He.
    - apply startsWith_length in He.
      unfold slice_from. rewrite drop_app_le by exact He.
      by rewrite trim_snoc.
    - destruct (startsWith line (js "data: ")) eqn:Hd; [|done].
      apply startsWith_length in Hd.
      unfold slice_from, JSON.parse. rewrite drop_app_le by exact Hd.
      by rewrite json_run_cr. }
  split; [apply Hline|].
  revert st. induction lines as [|l lines IH]; intros st; [done|].
  cbn [map fold_left]. by rewrite Hline, IH.
Qed.

End CarriageReturn.

(** ** ASCII in the stream *)

Section Ascii.
Import TextDecoder.

Lemma decode_ascii_idle (d : decoder) (value : list byte) :
  bytes_needed d = 0%N →
  Forall (fun b => (Byte.to_N b < 128)%N) value →
  (decode d value).2 = map Byte.to_N value
  ∧ bytes_needed (decode d value).1 = 0%N.
Proof.
  intros Hidle Hall. revert d Hidle.
  induction Hall as [|b value Hb _ IH]; intros d Hidle; [done|].
  cbn [decode map]. unfold decode_byte, handler, lead_byte.
  rewrite Hidle. cbn [N.eqb].
  destruct (N.leb_spec (Byte.to_N b) 127) as [_|?]; [|lia].
  cbn [emit]. rewrite andb_comm.
  destruct (N.eqb_spec (Byte.to_N b) 65279) as [?|_]; [lia|]. cbn [andb].
  unfold code_units. destruct (N.ltb_spec (Byte.to_N b) 65536); [|lia].
  cbn [app reset bom_seen code_point bytes_seen bytes_needed lower_boundary
       upper_boundary].
  match goal with
  | |- context [decode ?d' value] =>
      destruct (IH d' eq_refl) as [Hout Hd]; destruct (decode d' value)
  end.
  cbn [fst snd] in *. by rewrite Hout.
Qed.

(** X26.  The decoder passes ASCII through: a stream of bytes below 128
    is decoded to the text with the same character codes, whether it is
    decoded at once or chunk by chunk with the decoder kept between the
    chunks, however the chunks are cut. *)
Theorem ascii_passes_through (chunks : list (list byte)) :
  Forall (fun b => (Byte.to_N b < 128)%N) (concat chunks) →
  (decode fresh (concat chunks)).2 = map Byte.to_N (concat chunks)
  ∧ (fold_left (fun st chunk =>
                  ((decode st.1 chunk).1, st.2 ++ (decode st.1 chunk).2))
       chunks (fresh, [])).2
    = map Byte.to_N (concat chunks).
Proof.
  intros Hall. split; [by apply decode_ascii_idle|].
  assert (∀ d acc, bytes_needed d = 0%N →
            (fold_left (fun st chunk =>
                          ((decode st.1 chunk).1,
                           st.2 ++ (decode st.1 chunk).2))
               chunks (d, acc)).2
            = acc ++ map Byte.to_N (concat chunks)) as H; [|by apply H].
  induction chunks as [|c chunks IH]; intros d acc Hd;
    [by rewrite app_nil_r|].
  cbn [concat] in Hall. apply Forall_app in Hall as [Hc Hrest].
  cbn [fold_left fst snd concat].
  destruct (decode_ascii_idle d c Hd Hc) as [Hout Hd'].
  rewrite (IH Hrest _ _ Hd'), Hout, map_app, app_assoc. done.
Qed.

Lemma ascii_passes_through_witness :
  (decode fresh (concat [Sample.quoted "event: sta"; Sample.quoted "tus"])).2
  = js "event: status".
Proof.
  refine (proj1 (ascii_passes_through
                   [Sample.quoted "event: sta"; Sample.quoted "tus"] _)).
  repeat constructor.
Defined.

End Ascii.

(** ** The signal card: what it reports and what it lets through *)

Section SignalCardFace.
Import SignalConfig SignalCardView CardButtons.

(** X27.  The face of a signal card agrees with its buttons.  The card
    reports "Invalid Config" exactly when it reports the metric as
    missing, and such a card is marked invalid and can be neither
    previewed nor created.  Preview is disabled exactly on the cards
    marked invalid, and a card whose Create button is enabled shows the
    label of its metric.  The title, the symbol line and the time
    window are never blank: a missing or empty one is replaced by its
    default. *)
Theorem card_face_agrees (config : SignalConfig.t) (isCreating isCreated : bool) :
  let v := render config isCreating isCreated in
  (badge v = InvalidConfig ↔ details v = MissingMetric)
  ∧ (badge v = InvalidConfig →
     invalidBorder v = true ∧ previewDisabled v = true
     ∧ (create v = Created ∨ ∃ label, create v = Create true label))
  ∧ previewDisabled v = invalidBorder v
  ∧ (∀ label, create v = Create false label →
       isCreating = false ∧ isCreated = false
       ∧ ∃ l, badge v = MetricBadge l)
  ∧ title v ≠ [] ∧ symbol v ≠ [] ∧ timeWindow v ≠ [].
Proof.
  intros v. subst v. unfold render.
  cbn [badge details invalidBorder previewDisabled create title
       symbol timeWindow].
  assert (hasValidMetric config = false →
          truthy (SignalCard.isValid config) = false) as Hmetric.
  { unfold hasValidMetric, SignalCard.isValid, cond, and_then.
    destruct (truthy (TriggerCondition.metric
                        (default TriggerCondition.empty
                           (trigger_condition config)))) eqn:Hm;
      [|by rewrite Hm].
    cbn [truthy]. by intros ->. }
  assert (∀ o fallback, fallback ≠ [] → or_text o fallback ≠ []) as Htext
    by (by intros [[|? ?]|] ?).
  split; [|split; [|split; [|split]]].
  - destruct (hasValidMetric config); cbn [negb];
      [by destruct (isTakerVolume config)|done].
  - destruct (hasValidMetric config) eqn:Hv; [done|]. intros _.
    unfold SignalCard.previewDisabled, signalCreate,
      SignalCard.createDisabled.
    rewrite (Hmetric eq_refl). cbn [negb orb].
    repeat split. destruct isCreated; eauto.
  - done.
  - intros label. unfold signalCreate, SignalCard.createDisabled.
    destruct isCreated; [done|]. intros [= Hdis _].
    apply orb_false_iff in Hdis as [Hvalid ->].
    split; [done|]. split; [done|].
    destruct (hasValidMetric config) eqn:Hv; [eauto|].
    by rewrite (Hmetric eq_refl) in Hvalid.
  - repeat split; by apply Htext.
Qed.

End SignalCardFace.
